(** * A shallow embedding of the set-associative cache simulator

    The simulator (cache_simulator.h, cache_simulator.cpp, main.cpp) keeps a
    table of sets of slots, decodes every traced address into an index and a
    tag, and accounts hits, misses and cycles.  This file embeds the C++
    functions as Rocq functions over a state-and-failure monad and proves the
    properties of the address decoder, the replacement engine and the two
    access handlers. *)

From Stdlib Require Import ZArith Lia String Ascii Bool.
From stdpp Require Import base tactics option list.

Local Open Scope Z_scope.

(** ** 32-bit machine integers

    [int] is a 32-bit two's complement integer and [uint32_t] a 32-bit
    unsigned one.  Both are carried by [Z]; every operation writes its
    wrap-around out.  Shifts by a count outside [0, 32) and [log2] of a
    non-positive number have no defined result in C++ and yield [None]. *)
Module Int32.

Definition width : Z := 32.
Definition modulus : Z := 2 ^ 32.
Definition half : Z := 2 ^ 31.
Definition max_int : Z := 2 ^ 31 - 1.
Definition min_int : Z := - 2 ^ 31.

(** The value of [z] as an [int]. *)
Definition wrap (z : Z) : Z := (z + half) mod modulus - half.

(** The value of [z] as a [uint32_t]. *)
Definition to_uint (z : Z) : Z := z mod modulus.

Definition in_range (z : Z) : Prop := min_int <= z <= max_int.
Definition in_urange (z : Z) : Prop := 0 <= z < modulus.

Definition add (a b : Z) : Z := wrap (a + b).
Definition sub (a b : Z) : Z := wrap (a - b).
Definition mul (a b : Z) : Z := wrap (a * b).
(** C++ division truncates towards zero. *)
Definition div (a b : Z) : Z := wrap (a ÷ b).

(** [a >> n] on a signed [int]: an arithmetic shift, as g++ implements it. *)
Definition shr (a n : Z) : option Z :=
  if (0 <=? n) && (n <? width) then Some (Z.shiftr a n) else None.

Definition shl (a n : Z) : option Z :=
  if (0 <=? n) && (n <? width) then Some (wrap (Z.shiftl a n)) else None.

(** [int k = log2(x)]: the double result truncated to an [int]. *)
Definition log2 (x : Z) : option Z :=
  if 0 <? x then Some (Z.log2 x) else None.

End Int32.

(** ** The cache structures (cache_simulator.h) *)

Record Slot := mkSlot {
  tag : Z;            (* int *)
  valid : bool;
  dirty : bool;
  load_ts : Z;        (* uint32_t *)
  access_ts : Z       (* uint32_t *)
}.

(** [struct Set]; the name [Set] is reserved in Rocq. *)
Record Set_ := mkSet { slots : list Slot }.

Record Cache := mkCache {
  numSets : Z;
  numBlocks : Z;
  numBytes : Z;
  handleMiss : string;
  handleWrite : string;
  handleEviction : string;
  sets : list Set_;
  loadCount : Z;
  storeCount : Z;
  loadHits : Z;
  loadMisses : Z;
  storeHits : Z;
  storeMisses : Z;
  totalCycles : Z
}.

(** Field assignments. *)
Definition set_tag (v : Z) (s : Slot) : Slot :=
  mkSlot v (valid s) (dirty s) (load_ts s) (access_ts s).
Definition set_valid (v : bool) (s : Slot) : Slot :=
  mkSlot (tag s) v (dirty s) (load_ts s) (access_ts s).
Definition set_dirty (v : bool) (s : Slot) : Slot :=
  mkSlot (tag s) (valid s) v (load_ts s) (access_ts s).
Definition set_load_ts (v : Z) (s : Slot) : Slot :=
  mkSlot (tag s) (valid s) (dirty s) v (access_ts s).
Definition set_access_ts (v : Z) (s : Slot) : Slot :=
  mkSlot (tag s) (valid s) (dirty s) (load_ts s) v.

Definition set_sets (v : list Set_) (c : Cache) : Cache :=
  mkCache (numSets c) (numBlocks c) (numBytes c) (handleMiss c) (handleWrite c)
    (handleEviction c) v (loadCount c) (storeCount c) (loadHits c)
    (loadMisses c) (storeHits c) (storeMisses c) (totalCycles c).
Definition set_loadCount (v : Z) (c : Cache) : Cache :=
  mkCache (numSets c) (numBlocks c) (numBytes c) (handleMiss c) (handleWrite c)
    (handleEviction c) (sets c) v (storeCount c) (loadHits c)
    (loadMisses c) (storeHits c) (storeMisses c) (totalCycles c).
Definition set_storeCount (v : Z) (c : Cache) : Cache :=
  mkCache (numSets c) (numBlocks c) (numBytes c) (handleMiss c) (handleWrite c)
    (handleEviction c) (sets c) (loadCount c) v (loadHits c)
    (loadMisses c) (storeHits c) (storeMisses c) (totalCycles c).
Definition set_loadHits (v : Z) (c : Cache) : Cache :=
  mkCache (numSets c) (numBlocks c) (numBytes c) (handleMiss c) (handleWrite c)
    (handleEviction c) (sets c) (loadCount c) (storeCount c) v
    (loadMisses c) (storeHits c) (storeMisses c) (totalCycles c).
Definition set_loadMisses (v : Z) (c : Cache) : Cache :=
  mkCache (numSets c) (numBlocks c) (numBytes c) (handleMiss c) (handleWrite c)
    (handleEviction c) (sets c) (loadCount c) (storeCount c) (loadHits c)
    v (storeHits c) (storeMisses c) (totalCycles c).
Definition set_storeHits (v : Z) (c : Cache) : Cache :=
  mkCache (numSets c) (numBlocks c) (numBytes c) (handleMiss c) (handleWrite c)
    (handleEviction c) (sets c) (loadCount c) (storeCount c) (loadHits c)
    (loadMisses c) v (storeMisses c) (totalCycles c).
Definition set_storeMisses (v : Z) (c : Cache) : Cache :=
  mkCache (numSets c) (numBlocks c) (numBytes c) (handleMiss c) (handleWrite c)
    (handleEviction c) (sets c) (loadCount c) (storeCount c) (loadHits c)
    (loadMisses c) (storeHits c) v (totalCycles c).
Definition set_totalCycles (v : Z) (c : Cache) : Cache :=
  mkCache (numSets c) (numBlocks c) (numBytes c) (handleMiss c) (handleWrite c)
    (handleEviction c) (sets c) (loadCount c) (storeCount c) (loadHits c)
    (loadMisses c) (storeHits c) (storeMisses c) v.

(** ** Pointers into the slot table

    A [Slot *] is either [nullptr] or the position of a slot: the number of
    its set in [cache.sets] and its way in [set.slots]. *)
Definition SlotPtr : Type := option (nat * nat).
Definition nullptr : SlotPtr := None.

Definition slot_at (c : Cache) (si w : nat) : option Slot :=
  match sets c !! si with
  | Some st => slots st !! w
  | None => None
  end.

Definition upd_slot (si w : nat) (f : Slot -> Slot) (c : Cache) : Cache :=
  set_sets (alter (fun st => mkSet (alter f w (slots st))) si (sets c)) c.

(** ** Threading the cache: state and undefined behaviour

    Every function of the simulator receives [Cache &cache].  A computation
    is a function from the cache to a result and the updated cache, or to
    [None] where C++ leaves the behaviour undefined (indexing a vector out of
    range, dereferencing [nullptr], an out-of-range shift). *)
Definition M (A : Type) : Type := Cache -> option (A * Cache).

Definition ret {A} (a : A) : M A := fun c => Some (a, c).
Definition bind {A B} (m : M A) (k : A -> M B) : M B :=
  fun c => match m c with
           | Some (a, c') => k a c'
           | None => None
           end.
Definition undefined {A} : M A := fun _ => None.
Definition gets {A} (f : Cache -> A) : M A := fun c => Some (f c, c).
Definition modify (f : Cache -> Cache) : M unit := fun c => Some (tt, f c).
Definition lift {A} (o : option A) : M A :=
  fun c => match o with Some a => Some (a, c) | None => None end.

Declare Scope cache_scope.
Delimit Scope cache_scope with cache.
Notation "x <- m ;; k" := (bind m (fun x => k))
  (at level 100, m at next level, right associativity) : cache_scope.
Notation "m ;; k" := (bind m (fun _ => k))
  (at level 100, right associativity) : cache_scope.
Local Open Scope cache_scope.

(** [*p]: reading through a pointer. *)
Definition deref (p : SlotPtr) : M Slot :=
  fun c => match p with
           | Some (si, w) =>
               match slot_at c si w with
               | Some s => Some (s, c)
               | None => None
               end
           | None => None
           end.

(** [p->field = v]: writing through a pointer. *)
Definition assign (p : SlotPtr) (f : Slot -> Slot) : M unit :=
  s <- deref p ;;
  match p with
  | Some (si, w) => modify (upd_slot si w f)
  | None => undefined
  end.

(** [cache.sets[index]] for an [int] index: the number of the set. *)
Definition set_ref (index : Z) : M nat :=
  fun c => if (0 <=? index) && (index <? Z.of_nat (length (sets c)))
           then Some (Z.to_nat index, c) else None.

Definition slots_of (si : nat) : M (list Slot) :=
  fun c => match sets c !! si with
           | Some st => Some (slots st, c)
           | None => None
           end.

Definition str_eq (a b : string) : bool := String.eqb a b.

(** ** cache_simulator.cpp *)

Definition checkPowTwo (x : Z) : bool :=
  if x <? 1 then false
  else if Z.land x (Int32.sub x 1) =? 0 then true
  else false.

(** Returns 0 for success, 1 for bad input. *)
Definition validateArguments (numSets numBlocks blockSize : Z)
    (handleMiss handleWrite handleEviction : string) : Z :=
  if (numSets <? 1) || negb (checkPowTwo numSets) then 1
  else if (numBlocks <? 1) || negb (checkPowTwo numBlocks) then 1
  else if (blockSize <? 4) || negb (checkPowTwo blockSize) then 1
  else if negb (str_eq handleMiss "write-allocate")
          && negb (str_eq handleMiss "no-write-allocate") then 1
  else
    let eviction :=
      if negb (str_eq handleEviction "lru")
         && negb (str_eq handleEviction "fifo") then 1
      else 0 in
    if str_eq handleWrite "write-through" then eviction
    else if str_eq handleWrite "write-back" then
      if str_eq handleMiss "no-write-allocate" then 1 else eviction
    else 1.

Definition calculateIndex (address : Z) : M Z :=
  nb <- gets numBytes ;;
  offset <- lift (Int32.log2 nb) ;;
  ns <- gets numSets ;;
  index <- lift (Int32.log2 ns) ;;
  shifted <- lift (Int32.shr address offset) ;;
  one <- lift (Int32.shl 1 index) ;;
  let mask := Int32.sub one 1 in
  ret (Z.land shifted mask).

Definition calculateTag (address : Z) : M Z :=
  nb <- gets numBytes ;;
  offset <- lift (Int32.log2 nb) ;;
  ns <- gets numSets ;;
  index <- lift (Int32.log2 ns) ;;
  lift (Int32.shr address (Int32.add offset index)).

(** The slot every set is filled with by [cacheSetUp]. *)
Definition emptySlot : Slot := mkSlot 0 false false 0 0.

(** [Cache cache;] in main: no sets, empty policy strings, statistics 0.
    The three geometry fields have no initialiser; [cacheSetUp] assigns them
    before they are read. *)
Definition newCache : Cache :=
  mkCache 0 0 0 EmptyString EmptyString EmptyString [] 0 0 0 0 0 0 0.

Definition cacheSetUp (cache : Cache) (numSets numBlocks numBytes : Z)
    (handleMiss handleWrite handleEviction : string) : Cache :=
  mkCache numSets numBlocks numBytes handleMiss handleWrite handleEviction
    (sets cache ++
       replicate (Z.to_nat numSets)
         (mkSet (replicate (Z.to_nat numBlocks) emptySlot)))
    (loadCount cache) (storeCount cache) (loadHits cache) (loadMisses cache)
    (storeHits cache) (storeMisses cache) (totalCycles cache).

(** The loop of [findBlock]: the first valid slot with the tag, from way [w]. *)
Fixpoint findBlock_scan (tg : Z) (si w : nat) (l : list Slot) : SlotPtr :=
  match l with
  | [] => nullptr
  | slot :: l' =>
      if valid slot && (tag slot =? tg) then Some (si, w)
      else findBlock_scan tg si (S w) l'
  end.

Definition findBlock (tg index : Z) : M SlotPtr :=
  si <- set_ref index ;;
  l <- slots_of si ;;
  ret (findBlock_scan tg si 0 l).

(** The first loop of [findReplacementBlock]: the first invalid slot. *)
Fixpoint findInvalid_scan (si w : nat) (l : list Slot) : SlotPtr :=
  match l with
  | [] => nullptr
  | slot :: l' =>
      if negb (valid slot) then Some (si, w)
      else findInvalid_scan si (S w) l'
  end.

(** The loop shared by [findLRUBlock] and [findFIFOBlock]: [temp] is the way
    [temp] points to together with the slot there (the loop writes nothing);
    [ts] is the timestamp compared, as unsigned numbers. *)
Fixpoint findMin_scan (ts : Slot -> Z) (w : nat) (l : list Slot)
    (temp : nat * Slot) : nat * Slot :=
  match l with
  | [] => temp
  | slot :: l' =>
      if ts slot <? ts (snd temp) then findMin_scan ts (S w) l' (w, slot)
      else findMin_scan ts (S w) l' temp
  end.

(** [cache.totalCycles += n]. *)
Definition addCycles (n : Z) (c : Cache) : Cache :=
  set_totalCycles (Int32.add (totalCycles c) n) c.

(** [100 * cache.numBytes / 4], the cycles of one block transfer.  The
    product [100 * numBytes] leaves [int] for blocks of 2^25 bytes and more,
    where C++ defines no result; g++ evaluates the expression as
    [25 * numBytes], one multiplication.  So the quotient is taken of the
    exact product and the result reduced to an [int]: for every [numBytes]
    this is [25 * numBytes] as an [int]. *)
Definition blockCost (c : Cache) : Z :=
  Int32.div (100 * numBytes c) 4.

(** [cache.totalCycles += 100 * cache.numBytes / 4]. *)
Definition charge (c : Cache) : Cache := addCycles (blockCost c) c.

Definition chargeBlock : M unit := modify charge.

(** The tail shared by [findLRUBlock] and [findFIFOBlock]. *)
Definition flushIfDirty (temp : SlotPtr) : M SlotPtr :=
  s <- deref temp ;;
  hw <- gets handleWrite ;;
  if dirty s && str_eq hw "write-back" then
    assign temp (set_valid false) ;;
    assign temp (set_dirty false) ;;
    chargeBlock ;;
    ret temp
  else ret temp.

Definition findLRUBlock (si : nat) : M SlotPtr :=
  l <- slots_of si ;;
  match l with
  | [] => undefined
  | s0 :: _ =>
      let temp := findMin_scan access_ts 0 l (0%nat, s0) in
      flushIfDirty (Some (si, fst temp))
  end.

Definition findFIFOBlock (si : nat) : M SlotPtr :=
  l <- slots_of si ;;
  match l with
  | [] => undefined
  | s0 :: _ =>
      let temp := findMin_scan load_ts 0 l (0%nat, s0) in
      flushIfDirty (Some (si, fst temp))
  end.

Definition findReplacementBlock (index : Z) : M SlotPtr :=
  si <- set_ref index ;;
  l <- slots_of si ;;
  match findInvalid_scan si 0 l with
  | Some p => ret (Some p)
  | None =>
      he <- gets handleEviction ;;
      if str_eq he "lru" then findLRUBlock si else findFIFOBlock si
  end.

(** [cache.counter++]. *)
Definition bump (get : Cache -> Z) (set : Z -> Cache -> Cache) (c : Cache)
    : Cache :=
  set (Int32.add (get c) 1) c.

Definition incr (get : Cache -> Z) (set : Z -> Cache -> Cache) : M unit :=
  modify (bump get set).

(** [temp->access_ts = cache.totalCycles] (or [load_ts]): the [int] is
    converted to [uint32_t]. *)
Definition stamp (p : SlotPtr) (set_ts : Z -> Slot -> Slot) : M unit :=
  t <- gets totalCycles ;;
  assign p (set_ts (Int32.to_uint t)).

Definition handleLoad (index tg : Z) (hit : SlotPtr) : M unit :=
  incr loadCount set_loadCount ;;
  match hit with
  | Some _ =>
      incr loadHits set_loadHits ;;
      incr totalCycles set_totalCycles ;;
      he <- gets handleEviction ;;
      if str_eq he "lru" then stamp hit set_access_ts else ret tt
  | None =>
      incr loadMisses set_loadMisses ;;
      chargeBlock ;;
      temp <- findReplacementBlock index ;;
      incr totalCycles set_totalCycles ;;
      assign temp (set_valid true) ;;
      assign temp (set_tag tg) ;;
      he <- gets handleEviction ;;
      if str_eq he "lru" then stamp temp set_access_ts
      else stamp temp set_load_ts
  end.

(** [100 * (cache.numBytes / 4)], in [int] arithmetic. *)
Definition storeFetchCost (c : Cache) : Z :=
  Int32.mul 100 (Int32.div (numBytes c) 4).

Definition handleStore (index tg : Z) (hit : SlotPtr) : M unit :=
  incr storeCount set_storeCount ;;
  match hit with
  | Some _ =>
      incr storeHits set_storeHits ;;
      stamp hit set_access_ts ;;
      hw <- gets handleWrite ;;
      if str_eq hw "write-back" then
        assign hit (set_dirty true) ;;
        incr totalCycles set_totalCycles
      else
        modify (addCycles 100)
  | None =>
      incr storeMisses set_storeMisses ;;
      hm <- gets handleMiss ;;
      if str_eq hm "no-write-allocate" then
        modify (addCycles 100)
      else
        modify (fun c => addCycles (storeFetchCost c) c) ;;
        temp <- findReplacementBlock index ;;
        incr totalCycles set_totalCycles ;;
        assign temp (set_valid true) ;;
        assign temp (set_tag tg) ;;
        he <- gets handleEviction ;;
        (if str_eq he "lru" then stamp temp set_access_ts
         else stamp temp set_load_ts) ;;
        hw <- gets handleWrite ;;
        if str_eq hw "write-back" then assign temp (set_dirty true)
        else ret tt
  end.

Definition cacheSimulator (loadStore : ascii) (address : Z) : M unit :=
  index <- calculateIndex address ;;
  tg <- calculateTag address ;;
  hit <- findBlock tg index ;;
  if Ascii.eqb loadStore "l" then handleLoad index tg hit
  else handleStore index tg hit.

(** ** main.cpp: the trace loop

    Each record is an operation character and an address parsed as a
    [uint32_t]; the call converts the address to [int]. *)
Fixpoint runTrace (trace : list (ascii * Z)) : M unit :=
  match trace with
  | [] => ret tt
  | (loadStore, address) :: rest =>
      cacheSimulator loadStore (Int32.wrap address) ;;
      runTrace rest
  end.

(** * Vocabulary of the properties *)

(** The geometry [validateArguments] accepts, as far as the decoder reads it:
    both numbers are [int]s, powers of two, and a block has at least 4 bytes. *)
Definition valid_geometry (c : Cache) : Prop :=
  Int32.in_range (numSets c) /\ Int32.in_range (numBytes c) /\
  checkPowTwo (numSets c) = true /\ checkPowTwo (numBytes c) = true /\
  4 <= numBytes c.

(** The cache of the smallest geometry, used in the examples below. *)
Definition tinyCache (hm hw he : string) : Cache :=
  cacheSetUp newCache 1 1 4 hm hw he.

(** The timestamp an eviction policy compares. *)
Definition ts_for (he : string) : Slot -> Z :=
  if str_eq he "lru" then access_ts else load_ts.

Definition ts_of (c : Cache) : Slot -> Z := ts_for (handleEviction c).

(** The test [temp->dirty && cache.handleWrite == "write-back"]. *)
Definition flushes (s : Slot) (c : Cache) : bool :=
  dirty s && str_eq (handleWrite c) "write-back".

(** The cache after the flush of the slot at way [w] of set [si]. *)
Definition flush (si w : nat) (c : Cache) : Cache :=
  charge (upd_slot si w (set_dirty false) (upd_slot si w (set_valid false) c)).

(** The cache [findReplacementBlock] leaves when it returns the slot [s]
    found at way [w] of set [si]: an invalid slot is handed out as it is, a
    victim is flushed when the test above holds. *)
Definition evict (si w : nat) (s : Slot) (c : Cache) : Cache :=
  if valid s && flushes s c then flush si w c else c.

(** The slot the replacement engine picks in a list of slots: the first
    invalid one, or else the first of those with the least timestamp. *)
Definition picked (he : string) (l : list Slot) (w : nat) (s : Slot) : Prop :=
  l !! w = Some s /\
  ((valid s = false /\
    forall j sj, (j < w)%nat -> l !! j = Some sj -> valid sj = true)
   \/
   ((forall j sj, l !! j = Some sj -> valid sj = true) /\
    (forall j sj, l !! j = Some sj -> ts_for he s <= ts_for he sj) /\
    (forall j sj, (j < w)%nat -> l !! j = Some sj ->
       ts_for he s < ts_for he sj))).

(** The slot [findReplacementBlock] hands out, after the flush if any. *)
Definition evicted (s : Slot) (c : Cache) : Slot :=
  if valid s && flushes s c then set_dirty false (set_valid false s) else s.

(** The timestamp field the eviction policy writes at an install. *)
Definition set_ts_of (c : Cache) : Z -> Slot -> Slot :=
  if str_eq (handleEviction c) "lru" then set_access_ts else set_load_ts.

(** The slot a miss installs over [s], at the cycle count [t]. *)
Definition installed (c : Cache) (tg t : Z) (s : Slot) : Slot :=
  set_ts_of c (Int32.to_uint t) (set_tag tg (set_valid true s)).

Definition loadHit (si w : nat) (c : Cache) : Cache :=
  let c1 := bump totalCycles set_totalCycles
              (bump loadHits set_loadHits (bump loadCount set_loadCount c)) in
  if str_eq (handleEviction c) "lru"
  then upd_slot si w (set_access_ts (Int32.to_uint (totalCycles c1))) c1
  else c1.

Definition loadMiss (si w : nat) (s : Slot) (tg : Z) (c : Cache) : Cache :=
  let c1 := charge (bump loadMisses set_loadMisses
                      (bump loadCount set_loadCount c)) in
  let c2 := bump totalCycles set_totalCycles (evict si w s c1) in
  upd_slot si w (installed c tg (totalCycles c2)) c2.

Definition storeHit (si w : nat) (c : Cache) : Cache :=
  let c1 := bump storeHits set_storeHits (bump storeCount set_storeCount c) in
  let c2 := upd_slot si w (set_access_ts (Int32.to_uint (totalCycles c1))) c1 in
  if str_eq (handleWrite c) "write-back"
  then bump totalCycles set_totalCycles (upd_slot si w (set_dirty true) c2)
  else addCycles 100 c2.

Definition storeMissNoAllocate (c : Cache) : Cache :=
  addCycles 100 (bump storeMisses set_storeMisses
                   (bump storeCount set_storeCount c)).

Definition storeMissAllocate (si w : nat) (s : Slot) (tg : Z) (c : Cache)
    : Cache :=
  let c0 := bump storeMisses set_storeMisses
              (bump storeCount set_storeCount c) in
  let c1 := addCycles (storeFetchCost c0) c0 in
  let c2 := bump totalCycles set_totalCycles (evict si w s c1) in
  let c3 := upd_slot si w (installed c tg (totalCycles c2)) c2 in
  if str_eq (handleWrite c) "write-back"
  then upd_slot si w (set_dirty true) c3
  else c3.

(** The cycle count after the flush of [s], if there is one. *)
Definition afterFlush (s : Slot) (c : Cache) (t : Z) : Z :=
  if valid s && flushes s c then Int32.add t (blockCost c) else t.

(** Configuration fields, which no access writes. *)
Definition same_config (c c' : Cache) : Prop :=
  numSets c' = numSets c /\ numBlocks c' = numBlocks c /\
  numBytes c' = numBytes c /\ handleMiss c' = handleMiss c /\
  handleWrite c' = handleWrite c /\ handleEviction c' = handleEviction c.

(** The slot at the touched position after each kind of access. *)
Definition loadHitSlot (c : Cache) (s : Slot) : Slot :=
  if str_eq (handleEviction c) "lru"
  then set_access_ts (Int32.to_uint (Int32.add (totalCycles c) 1)) s
  else s.

Definition loadMissCycles (c : Cache) (s : Slot) : Z :=
  Int32.add (afterFlush s c (Int32.add (totalCycles c) (blockCost c))) 1.

Definition loadMissSlot (c : Cache) (tg : Z) (s : Slot) : Slot :=
  installed c tg (loadMissCycles c s) (evicted s c).

Definition storeHitSlot (c : Cache) (s : Slot) : Slot :=
  let s1 := set_access_ts (Int32.to_uint (totalCycles c)) s in
  if str_eq (handleWrite c) "write-back" then set_dirty true s1 else s1.

Definition storeMissCycles (c : Cache) (s : Slot) : Z :=
  Int32.add (afterFlush s c (Int32.add (totalCycles c) (storeFetchCost c))) 1.

Definition storeMissSlot (c : Cache) (tg : Z) (s : Slot) : Slot :=
  let s1 := installed c tg (storeMissCycles c s) (evicted s c) in
  if str_eq (handleWrite c) "write-back" then set_dirty true s1 else s1.

(** The lookup of [findBlock] in a list of slots: a hit at the first valid
    slot that carries the tag, or a miss. *)
Definition hits (tg : Z) (l : list Slot) (w : nat) (s : Slot) : Prop :=
  l !! w = Some s /\ valid s = true /\ tag s = tg /\
  forall j sj, (j < w)%nat -> l !! j = Some sj ->
    valid sj && (tag sj =? tg) = false.

Definition misses (tg : Z) (l : list Slot) : Prop :=
  forall j sj, l !! j = Some sj -> valid sj && (tag sj =? tg) = false.

(** The five ways an access to the set [st] at [index] ends. *)
Inductive access (c : Cache) (op : ascii) (index tg : Z) (st : Set_)
    : Cache -> Prop :=
| access_loadHit w s :
    op = "l"%char -> hits tg (slots st) w s ->
    access c op index tg st (loadHit (Z.to_nat index) w c)
| access_loadMiss w s :
    op = "l"%char -> misses tg (slots st) ->
    picked (handleEviction c) (slots st) w s ->
    access c op index tg st (loadMiss (Z.to_nat index) w s tg c)
| access_storeHit w s :
    op <> "l"%char -> hits tg (slots st) w s ->
    access c op index tg st (storeHit (Z.to_nat index) w c)
| access_storeMissNoAllocate :
    op <> "l"%char -> misses tg (slots st) ->
    str_eq (handleMiss c) "no-write-allocate" = true ->
    access c op index tg st (storeMissNoAllocate c)
| access_storeMissAllocate w s :
    op <> "l"%char -> misses tg (slots st) ->
    str_eq (handleMiss c) "no-write-allocate" = false ->
    picked (handleEviction c) (slots st) w s ->
    access c op index tg st (storeMissAllocate (Z.to_nat index) w s tg c).

Definition write_back (c : Cache) : bool := str_eq (handleWrite c) "write-back".

Record wf (c : Cache) : Prop := mk_wf {
  wf_args :
    validateArguments (numSets c) (numBlocks c) (numBytes c)
      (handleMiss c) (handleWrite c) (handleEviction c) = 0;
  wf_range :
    Int32.in_range (numSets c) /\ Int32.in_range (numBlocks c) /\
    Int32.in_range (numBytes c);
  (** the table has [numSets] sets of [numBlocks] slots *)
  wf_table :
    forall si w,
      is_Some (slot_at c si w) <->
      (si < Z.to_nat (numSets c))%nat /\ (w < Z.to_nat (numBlocks c))%nat;
  (** a dirty slot is valid, and only write-back makes slots dirty *)
  wf_clean :
    forall si w s,
      slot_at c si w = Some s -> dirty s = true ->
      valid s = true /\ write_back c = true;
  (** the valid slots of a set carry pairwise different tags *)
  wf_tags :
    forall si w1 w2 s1 s2,
      slot_at c si w1 = Some s1 -> slot_at c si w2 = Some s2 ->
      valid s1 = true -> valid s2 = true -> tag s1 = tag s2 -> w1 = w2
}.

(** [c'] is [c] with the slot at way [w] of set [si] replaced by [s']. *)
Definition table_upd (c c' : Cache) (si w : nat) (s' : Slot) : Prop :=
  forall si' w',
    slot_at c' si' w'
    = if decide (si = si' /\ w = w') then Some s' else slot_at c si' w'.

(** The caches main can reach: [cacheSetUp] on arguments that
    [validateArguments] accepts, then any number of accesses at [int]
    addresses; [reach_in n] counts the accesses. *)
Inductive reach_in : nat -> Cache -> Prop :=
| reach_init ns nb nby hm hw he :
    Int32.in_range ns -> Int32.in_range nb -> Int32.in_range nby ->
    validateArguments ns nb nby hm hw he = 0 ->
    reach_in 0 (cacheSetUp newCache ns nb nby hm hw he)
| reach_step n c op a c' :
    reach_in n c -> Int32.in_range a ->
    cacheSimulator op a c = Some (tt, c') ->
    reach_in (S n) c'.

Definition reachable (c : Cache) : Prop := exists n, reach_in n c.

(** Statistics other than the named ones are left alone. *)
Definition same_load_stats (c c' : Cache) : Prop :=
  loadCount c' = loadCount c /\ loadHits c' = loadHits c /\
  loadMisses c' = loadMisses c.

Definition same_store_stats (c c' : Cache) : Prop :=
  storeCount c' = storeCount c /\ storeHits c' = storeHits c /\
  storeMisses c' = storeMisses c.

(** The cache after the store of C3: its only slot is valid and dirty. *)
Definition dirtyTinyCache : Cache :=
  mkCache 1 1 4 "write-allocate" "write-back" "lru"
    [mkSet [mkSlot 0 true true 0 101]] 0 1 0 0 0 1 101.

(** Two ways of 4-byte blocks in one set, after a load of block 0 and a load
    of block 1. *)
Definition twoWayCache : Cache :=
  mkCache 1 2 4 "write-allocate" "write-back" "lru"
    [mkSet [mkSlot 0 true false 0 101; mkSlot 1 true false 0 202]]
    2 0 0 2 0 0 202.

(** The most cycles one access can add: two block transfers and one. *)
Definition accessBound (c : Cache) : Z := 50 * numBytes c + 1.

(** The statistics after at most [n] accesses without overflow. *)
Definition stats_bounded (n : Z) (c : Cache) : Prop :=
  (0 <= loadCount c <= n) /\ (0 <= storeCount c <= n) /\
  (0 <= loadHits c <= n) /\ (0 <= loadMisses c <= n) /\
  (0 <= storeHits c <= n) /\ (0 <= storeMisses c <= n) /\
  (0 <= totalCycles c <= n * accessBound c).

(** Each statistic after one access, against its value before. *)
Definition stats_step (c c' : Cache) : Prop :=
  (loadCount c <= loadCount c' <= loadCount c + 1) /\
  (storeCount c <= storeCount c' <= storeCount c + 1) /\
  (loadHits c <= loadHits c' <= loadHits c + 1) /\
  (loadMisses c <= loadMisses c' <= loadMisses c + 1) /\
  (storeHits c <= storeHits c' <= storeHits c + 1) /\
  (storeMisses c <= storeMisses c' <= storeMisses c + 1) /\
  (totalCycles c <= totalCycles c' <= totalCycles c + accessBound c).

(** The cache of one 128 MiB block, write-allocate and write-through. *)
Definition hugeBlockCache : Cache :=
  cacheSetUp newCache 1 1 134217728 "write-allocate" "write-through" "lru".

(** Two lists of slots that agree on the valid flags and on the compared
    timestamp. *)
Definition same_order (he : string) (l l' : list Slot) : Prop :=
  forall j,
    match l !! j, l' !! j with
    | Some x, Some y => valid x = valid y /\ ts_for he x = ts_for he y
    | None, None => True
    | _, _ => False
    end.

(** Two ways under fifo: block 0 at way 0, block 1 at way 1. *)
Definition fifoCache : Cache :=
  mkCache 1 2 4 "write-allocate" "write-through" "fifo"
    [mkSet [mkSlot 0 true false 101 0; mkSlot 1 true false 202 0]]
    2 0 0 2 0 0 202.

(** No timestamp lies ahead of the cycle count. *)
Definition stamps_bounded (c : Cache) : Prop :=
  forall si w s,
    slot_at c si w = Some s ->
    0 <= access_ts s <= totalCycles c /\ 0 <= load_ts s <= totalCycles c.

(** The cache of one 32 MiB block, write-allocate and write-back. *)
Definition bigBlockCache : Cache :=
  cacheSetUp newCache 1 1 33554432 "write-allocate" "write-back" "lru".

(** Whether the slot [findReplacementBlock] returns in the set at [index]
    is flushed on the way. *)
Definition flushedVictim (c : Cache) (index : Z) : bool :=
  match findReplacementBlock index c with
  | Some (Some (si, w), _) =>
      match slot_at c si w with
      | Some s => valid s && flushes s c
      | None => false
      end
  | _ => false
  end.

(** The values an access computes for the statistics, as numbers, in the
    order of the code: each counter it increments, each charge it adds and
    the cycle count after each addition.  [hit] is what [findBlock]
    returned. *)
Definition accessValues (c : Cache) (op : ascii) (index : Z) (hit : SlotPtr)
    : list Z :=
  let t := totalCycles c in
  let transfer := 100 * numBytes c / 4 in
  let afterVictim (t1 : Z) : list Z :=
    if flushedVictim c index
    then [transfer; t1 + transfer; t1 + transfer + 1]
    else [t1 + 1] in
  if Ascii.eqb op "l" then
    loadCount c + 1 ::
    match hit with
    | Some _ => [loadHits c + 1; t + 1]
    | None =>
        loadMisses c + 1 :: transfer :: t + transfer
        :: afterVictim (t + transfer)
    end
  else
    storeCount c + 1 ::
    match hit with
    | Some _ =>
        [storeHits c + 1;
         t + (if str_eq (handleWrite c) "write-back" then 1 else 100)]
    | None =>
        storeMisses c + 1 ::
        if str_eq (handleMiss c) "no-write-allocate" then [t + 100]
        else
          let fetch := 100 * (numBytes c / 4) in
          fetch :: t + fetch :: afterVictim (t + fetch)
    end.

(** No statistic overflows in the access [op] at [a]: the address decodes
    and every value above is an [int]. *)
Definition fits (c : Cache) (op : ascii) (a : Z) : Prop :=
  exists index tg hit,
    calculateIndex a c = Some (index, c) /\
    calculateTag a c = Some (tg, c) /\
    findBlock tg index c = Some (hit, c) /\
    Forall Int32.in_range (accessValues c op index hit).

(** The caches reached from the initialized one by accesses in none of which
    a statistic overflowed. *)
Inductive reach_fit : Cache -> Prop :=
| fit_init ns nb nby hm hw he :
    Int32.in_range ns -> Int32.in_range nb -> Int32.in_range nby ->
    validateArguments ns nb nby hm hw he = 0 ->
    reach_fit (cacheSetUp newCache ns nb nby hm hw he)
| fit_step c op a c' :
    reach_fit c -> Int32.in_range a -> fits c op a ->
    cacheSimulator op a c = Some (tt, c') ->
    reach_fit c'.

Definition stats_nonneg (c : Cache) : Prop :=
  0 <= loadCount c /\ 0 <= storeCount c /\ 0 <= loadHits c /\
  0 <= loadMisses c /\ 0 <= storeHits c /\ 0 <= storeMisses c /\
  0 <= totalCycles c.

Definition stats_grow (c c' : Cache) : Prop :=
  loadCount c <= loadCount c' /\ storeCount c <= storeCount c' /\
  loadHits c <= loadHits c' /\ loadMisses c <= loadMisses c' /\
  storeHits c <= storeHits c' /\ storeMisses c <= storeMisses c' /\
  totalCycles c <= totalCycles c'.

(** * Properties *)

(** ** Machine arithmetic *)
Module Int32Facts.
Import Int32.

Lemma modulus_eq : modulus = 4294967296.
Proof. reflexivity. Qed.

Lemma half_eq : half = 2147483648.
Proof. reflexivity. Qed.

Lemma wrap_id z : in_range z -> wrap z = z.
Proof.
  unfold in_range, wrap, min_int, max_int. rewrite modulus_eq, half_eq.
  intros H. rewrite Z.mod_small; lia.
Qed.

Lemma wrap_in_range z : in_range (wrap z).
Proof.
  unfold in_range, wrap, min_int, max_int. rewrite modulus_eq, half_eq.
  pose proof (Z.mod_pos_bound (z + 2147483648) 4294967296 ltac:(lia)). lia.
Qed.

Lemma wrap_high u : half <= u < modulus -> wrap u = u - modulus.
Proof.
  unfold wrap. rewrite modulus_eq, half_eq. intros H.
  replace (u + 2147483648) with (u - 2147483648 + 1 * 4294967296) by lia.
  rewrite Z.mod_add by lia. rewrite Z.mod_small; lia.
Qed.

Lemma to_uint_range z : in_urange (to_uint z).
Proof. unfold in_urange, to_uint. apply Z.mod_pos_bound. reflexivity. Qed.

Lemma to_uint_id z : 0 <= z < modulus -> to_uint z = z.
Proof. unfold to_uint. intros. now apply Z.mod_small. Qed.

Lemma add_id a b : in_range (a + b) -> add a b = a + b.
Proof. apply wrap_id. Qed.

Lemma pow2_range k : 0 <= k <= 30 -> in_range (2 ^ k) /\ 1 <= 2 ^ k.
Proof.
  intros Hk. unfold in_range, min_int, max_int.
  assert (2 ^ k <= 2 ^ 30) by (apply Z.pow_le_mono_r; lia).
  assert (0 < 2 ^ k) by (apply Z.pow_pos_nonneg; lia).
  change (2 ^ 30) with 1073741824 in *. change (2 ^ 31) with 2147483648. lia.
Qed.

End Int32Facts.

(** ** Argument validation *)

(** For an [int], [checkPowTwo] holds exactly of the powers of two. *)
Lemma checkPowTwo_pow2 x :
  Int32.in_range x ->
  checkPowTwo x = true <-> exists k, 0 <= k <= 30 /\ x = 2 ^ k.
Proof.
  intros Hr. unfold checkPowTwo. split.
  - destruct (Z.ltb_spec x 1) as [|Hx]; [discriminate|].
    assert (Hsub : Int32.sub x 1 = x - 1).
    { apply Int32Facts.wrap_id. unfold Int32.in_range, Int32.min_int,
        Int32.max_int in *. lia. }
    rewrite Hsub. destruct (Z.eqb_spec (Z.land x (x - 1)) 0) as [Hl|]; [|discriminate].
    intros _. exists (Z.log2 x).
    pose proof (Z.log2_spec x ltac:(lia)) as [Hlo Hhi].
    assert (Hk : 0 <= Z.log2 x) by apply Z.log2_nonneg.
    assert (Hx2 : x = 2 ^ Z.log2 x).
    { destruct (Z.eq_dec x (2 ^ Z.log2 x)) as [|Hne]; [assumption|exfalso].
      assert (Hlog : Z.log2 (x - 1) = Z.log2 x).
      { apply Z.log2_unique; [assumption|]. lia. }
      assert (Hb : Z.testbit (Z.land x (x - 1)) (Z.log2 x) = true).
      { assert (Hpos : 0 < 2 ^ Z.log2 x) by (apply Z.pow_pos_nonneg; lia).
        pose proof (Z.bit_log2 (x - 1) ltac:(lia)) as Hb1.
        rewrite Hlog in Hb1.
        rewrite Z.land_spec, Hb1, Z.bit_log2 by lia. reflexivity. }
      rewrite Hl in Hb. rewrite Z.bits_0 in Hb. discriminate. }
    split; [|assumption]. split; [assumption|].
    destruct (Z.le_gt_cases (Z.log2 x) 30) as [|Hgt]; [assumption|exfalso].
    assert (2 ^ 31 <= 2 ^ Z.log2 x) by (apply Z.pow_le_mono_r; lia).
    unfold Int32.in_range, Int32.max_int in Hr. lia.
  - intros (k & Hk & ->).
    pose proof (Int32Facts.pow2_range k Hk) as [Hin H1].
    destruct (Z.ltb_spec (2 ^ k) 1); [lia|].
    assert (Hsub : Int32.sub (2 ^ k) 1 = 2 ^ k - 1).
    { apply Int32Facts.wrap_id. unfold Int32.in_range, Int32.min_int,
        Int32.max_int in *. lia. }
    rewrite Hsub.
    replace (2 ^ k - 1) with (Z.ones k) by (rewrite Z.ones_equiv; lia).
    rewrite Z.land_ones by lia. rewrite Z.mod_same by lia. reflexivity.
Qed.

Lemma log2_pow2 k : 0 <= k -> Int32.log2 (2 ^ k) = Some k.
Proof.
  intros Hk. unfold Int32.log2.
  assert (0 < 2 ^ k) by (apply Z.pow_pos_nonneg; lia).
  destruct (Z.ltb_spec 0 (2 ^ k)); [|lia]. now rewrite Z.log2_pow2.
Qed.

(** ** The address decoder *)

Lemma valid_geometry_pow2 c :
  valid_geometry c ->
  exists ks kb, 0 <= ks <= 30 /\ 2 <= kb <= 30 /\
    numSets c = 2 ^ ks /\ numBytes c = 2 ^ kb.
Proof.
  intros (Hrs & Hrb & Hs & Hb & H4).
  apply checkPowTwo_pow2 in Hs as (ks & Hks & Es); [|assumption].
  apply checkPowTwo_pow2 in Hb as (kb & Hkb & Eb); [|assumption].
  exists ks, kb. repeat split; try lia; try assumption.
  destruct (Z.le_gt_cases 2 kb) as [|Hlt]; [assumption|exfalso].
  assert (2 ^ kb <= 2 ^ 1) by (apply Z.pow_le_mono_r; lia).
  change (2 ^ 1) with 2 in *. lia.
Qed.

Lemma shr_wrap_low u s :
  0 <= u < 2 ^ 31 -> Z.shiftr (Int32.wrap u) s = Z.shiftr u s.
Proof.
  intros Hu. rewrite Int32Facts.wrap_id; [reflexivity|].
  unfold Int32.in_range, Int32.min_int, Int32.max_int. lia.
Qed.

Lemma shr_wrap_high u s :
  2 ^ 31 <= u < 2 ^ 32 -> 0 <= s <= 32 ->
  Z.shiftr (Int32.wrap u) s = Z.shiftr u s - 2 ^ (32 - s).
Proof.
  intros Hu Hs. rewrite Int32Facts.wrap_high by exact Hu.
  rewrite !Z.shiftr_div_pow2 by lia. unfold Int32.modulus.
  assert (Hp : 0 < 2 ^ s) by (apply Z.pow_pos_nonneg; lia).
  replace (2 ^ 32) with (2 ^ (32 - s) * 2 ^ s)
    by (rewrite <- Z.pow_add_r by lia; f_equal; lia).
  replace (u - 2 ^ (32 - s) * 2 ^ s) with (u + (- 2 ^ (32 - s)) * 2 ^ s) by lia.
  rewrite Z.div_add by lia. lia.
Qed.

Lemma shr_high_bound u s :
  0 <= u < 2 ^ 32 -> 0 <= s <= 32 -> 0 <= Z.shiftr u s < 2 ^ (32 - s).
Proof.
  intros Hu Hs. rewrite Z.shiftr_div_pow2 by lia.
  assert (Hp : 0 < 2 ^ s) by (apply Z.pow_pos_nonneg; lia).
  split; [apply Z.div_pos; lia|].
  apply Z.div_lt_upper_bound; [lia|].
  rewrite <- Z.pow_add_r by lia. replace (s + (32 - s)) with 32 by lia. lia.
Qed.

(** Masking the shifted address: the sign extension of the [int] does not
    reach the index bits as long as offset and index bits fit in 32 bits. *)
Lemma index_bits_wrap u off idx :
  0 <= u < 2 ^ 32 -> 0 <= off -> 0 <= idx -> off + idx <= 32 ->
  Z.land (Z.shiftr (Int32.wrap u) off) (2 ^ idx - 1)
  = Z.land (Z.shiftr u off) (2 ^ idx - 1).
Proof.
  intros Hu Hoff Hidx Hsum.
  destruct (Z.lt_ge_cases u (2 ^ 31)) as [Hlo|Hhi].
  - now rewrite shr_wrap_low by lia.
  - rewrite shr_wrap_high by lia.
    replace (2 ^ idx - 1) with (Z.ones idx) by (rewrite Z.ones_equiv; lia).
    rewrite !Z.land_ones by lia.
    replace (2 ^ (32 - off)) with (2 ^ (32 - off - idx) * 2 ^ idx)
      by (rewrite <- Z.pow_add_r by lia; f_equal; lia).
    replace (Z.shiftr u off - 2 ^ (32 - off - idx) * 2 ^ idx)
      with (Z.shiftr u off + (- 2 ^ (32 - off - idx)) * 2 ^ idx) by lia.
    apply Z.mod_add.
    assert (0 < 2 ^ idx) by (apply Z.pow_pos_nonneg; lia). lia.
Qed.

Lemma calculateIndex_eq c a ks kb :
  0 <= ks <= 30 -> 0 <= kb <= 30 ->
  numSets c = 2 ^ ks -> numBytes c = 2 ^ kb ->
  calculateIndex a c = Some (Z.land (Z.shiftr a kb) (2 ^ ks - 1), c).
Proof.
  intros Hks Hkb Es Eb. unfold calculateIndex, bind, gets, lift, ret.
  cbv beta iota. rewrite Eb, log2_pow2 by lia. cbv beta iota.
  rewrite Es, log2_pow2 by lia. cbv beta iota.
  unfold Int32.shr, Int32.shl, Int32.width.
  destruct (Z.leb_spec 0 kb); [|lia]. destruct (Z.ltb_spec kb 32); [|lia].
  destruct (Z.leb_spec 0 ks); [|lia]. destruct (Z.ltb_spec ks 32); [|lia].
  cbv beta iota. unfold andb. cbv beta iota. rewrite Z.shiftl_1_l.
  pose proof (Int32Facts.pow2_range ks Hks) as [Hin Hone].
  rewrite (Int32Facts.wrap_id (2 ^ ks)) by assumption.
  unfold Int32.sub. rewrite Int32Facts.wrap_id; [reflexivity|].
  unfold Int32.in_range, Int32.min_int, Int32.max_int in *. lia.
Qed.

Lemma calculateTag_eq c a ks kb :
  0 <= ks <= 30 -> 0 <= kb <= 30 -> ks + kb <= 31 ->
  numSets c = 2 ^ ks -> numBytes c = 2 ^ kb ->
  calculateTag a c = Some (Z.shiftr a (kb + ks), c).
Proof.
  intros Hks Hkb Hsum Es Eb. unfold calculateTag, bind, gets, lift.
  cbv beta iota. rewrite Eb, log2_pow2 by lia. cbv beta iota.
  rewrite Es, log2_pow2 by lia. cbv beta iota.
  unfold Int32.shr, Int32.width, Int32.add.
  rewrite Int32Facts.wrap_id
    by (unfold Int32.in_range, Int32.min_int, Int32.max_int; lia).
  destruct (Z.leb_spec 0 (kb + ks)); [|lia].
  destruct (Z.ltb_spec (kb + ks) 32); [|lia]. reflexivity.
Qed.

(** A shift count of 32 or more leaves the tag undefined. *)
Lemma calculateTag_undefined c a ks kb :
  0 <= ks <= 30 -> 0 <= kb <= 30 -> 32 <= ks + kb ->
  numSets c = 2 ^ ks -> numBytes c = 2 ^ kb ->
  calculateTag a c = None.
Proof.
  intros Hks Hkb Hsum Es Eb. unfold calculateTag, bind, gets, lift.
  cbv beta iota. rewrite Eb, log2_pow2 by lia. cbv beta iota.
  rewrite Es, log2_pow2 by lia. cbv beta iota.
  unfold Int32.shr, Int32.width, Int32.add.
  rewrite Int32Facts.wrap_id
    by (unfold Int32.in_range, Int32.min_int, Int32.max_int; lia).
  destruct (Z.leb_spec 0 (kb + ks)); [|lia].
  destruct (Z.ltb_spec (kb + ks) 32); [lia|]. reflexivity.
Qed.

Lemma index_in_range a ks :
  0 <= ks -> 0 <= Z.land a (2 ^ ks - 1) < 2 ^ ks.
Proof.
  intros Hks.
  replace (2 ^ ks - 1) with (Z.ones ks) by (rewrite Z.ones_equiv; lia).
  rewrite Z.land_ones by lia. apply Z.mod_pos_bound.
  apply Z.pow_pos_nonneg; lia.
Qed.

(** C1, as amended.  The address arrives as an [int]: for an address whose
    top bit is set the signed shift sign-extends and the tag is negative.
    For every 32-bit address [u] and every valid geometry whose offset and
    index bits together stay below 32 (numSets * blockSizeBytes <= 2^31, so
    that the shift of [calculateTag] is defined), the index is
    [(u >> offsetBits) & ((1 << indexBits) - 1)] and lies in [0, numSets);
    the tag is the arithmetic shift of the address as an [int]: it is
    [u >> (offsetBits + indexBits)], and non-negative, when [u < 2^31], and
    that number minus [2^(32 - offsetBits - indexBits)], hence negative,
    otherwise. *)
Theorem decoder_index_tag c u :
  valid_geometry c ->
  numSets c * numBytes c <= 2 ^ 31 ->
  0 <= u < 2 ^ 32 ->
  let off := Z.log2 (numBytes c) in
  let idx := Z.log2 (numSets c) in
  let index := Z.land (Z.shiftr u off) (Z.shiftl 1 idx - 1) in
  let tg := Z.shiftr (Int32.wrap u) (off + idx) in
  calculateIndex (Int32.wrap u) c = Some (index, c) /\
  0 <= index < numSets c /\
  calculateTag (Int32.wrap u) c = Some (tg, c) /\
  (u < 2 ^ 31 -> tg = Z.shiftr u (off + idx) /\ 0 <= tg) /\
  (2 ^ 31 <= u ->
   tg = Z.shiftr u (off + idx) - 2 ^ (32 - (off + idx)) /\ tg < 0).
Proof.
  intros Hg Hprod Hu.
  destruct (valid_geometry_pow2 c Hg) as (ks & kb & Hks & Hkb & Es & Eb).
  assert (Hsum : ks + kb <= 31).
  { rewrite Es, Eb, <- Z.pow_add_r in Hprod by lia.
    apply Z.pow_le_mono_r_iff in Hprod; lia. }
  rewrite Es, Eb, !Z.log2_pow2 by lia. cbv zeta. rewrite Z.shiftl_1_l.
  split; [|split; [|split; [|split]]].
  - rewrite (calculateIndex_eq c _ ks kb) by (assumption || lia).
    now rewrite index_bits_wrap by lia.
  - apply index_in_range. lia.
  - apply calculateTag_eq; assumption || lia.
  - intros Hlo. rewrite shr_wrap_low by lia. split; [reflexivity|].
    apply Z.shiftr_nonneg. lia.
  - intros Hhi. rewrite shr_wrap_high by lia. split; [reflexivity|].
    pose proof (shr_high_bound u (kb + ks) Hu ltac:(lia)). lia.
Qed.

Lemma tinyCache_valid_geometry hm hw he : valid_geometry (tinyCache hm hw he).
Proof.
  unfold valid_geometry, Int32.in_range, Int32.min_int, Int32.max_int. simpl.
  repeat split; try reflexivity; lia.
Qed.

Lemma decoder_index_tag_witness :
  calculateIndex (Int32.wrap 20) (tinyCache "write-allocate" "write-back" "lru")
  = Some (0, tinyCache "write-allocate" "write-back" "lru") /\
  calculateTag (Int32.wrap 20) (tinyCache "write-allocate" "write-back" "lru")
  = Some (5, tinyCache "write-allocate" "write-back" "lru").
Proof.
  pose proof (decoder_index_tag
                (tinyCache "write-allocate" "write-back" "lru") 20
                (tinyCache_valid_geometry _ _ _)
                ltac:(simpl; lia) ltac:(lia)) as H.
  cbv zeta in H. destruct H as (Hi & _ & Ht & _).
  split; [exact Hi | exact Ht].
Defined.

(** C1 as stated fails at the address 0x80000000 with one set of 4-byte
    blocks: the claim gives the tag [0x80000000 >> 2 = 536870912], the code
    computes [-536870912]. *)
Lemma decoder_tag_top_bit_counterexample :
  valid_geometry (tinyCache "write-allocate" "write-back" "lru") /\
  0 <= 2147483648 < 2 ^ 32 /\
  calculateTag (Int32.wrap 2147483648)
    (tinyCache "write-allocate" "write-back" "lru")
  = Some (-536870912, tinyCache "write-allocate" "write-back" "lru") /\
  ~ (exists tg,
       calculateTag (Int32.wrap 2147483648)
         (tinyCache "write-allocate" "write-back" "lru")
       = Some (tg, tinyCache "write-allocate" "write-back" "lru") /\
       tg = Z.shiftr 2147483648
              (Z.log2 (numBytes (tinyCache "write-allocate" "write-back" "lru"))
               + Z.log2 (numSets (tinyCache "write-allocate" "write-back" "lru")))
       /\ 0 <= tg).
Proof.
  split; [apply tinyCache_valid_geometry|].
  split; [lia|]. split; [reflexivity|].
  intros (tg & Htg & _ & Hpos).
  assert (E : calculateTag (Int32.wrap 2147483648)
                (tinyCache "write-allocate" "write-back" "lru")
              = Some (-536870912, tinyCache "write-allocate" "write-back" "lru"))
    by reflexivity.
  rewrite E in Htg. injection Htg as <-. lia.
Qed.

(** ** The slot table *)

Lemma slot_at_upd c si w f si' w' :
  slot_at (upd_slot si w f c) si' w'
  = if decide (si = si' /\ w = w') then f <$> slot_at c si w
    else slot_at c si' w'.
Proof.
  unfold slot_at, upd_slot. simpl. rewrite list_lookup_alter.
  destruct (decide (si = si')) as [<-|Hsi].
  - destruct (sets c !! si) as [st|] eqn:Est; simpl.
    + rewrite list_lookup_alter.
      destruct (decide (w = w')) as [<-|Hw].
      * rewrite decide_True by auto. reflexivity.
      * rewrite decide_False by tauto. reflexivity.
    + destruct (decide _); reflexivity.
  - rewrite decide_False by tauto. reflexivity.
Qed.

Lemma slot_at_upd_eq c si w f s :
  slot_at c si w = Some s -> slot_at (upd_slot si w f c) si w = Some (f s).
Proof.
  intros H. rewrite slot_at_upd, decide_True by auto. now rewrite H.
Qed.

Lemma slot_at_upd_ne c si w f si' w' :
  (si, w) <> (si', w') ->
  slot_at (upd_slot si w f c) si' w' = slot_at c si' w'.
Proof.
  intros H. rewrite slot_at_upd, decide_False; [reflexivity|].
  intros [-> ->]. now apply H.
Qed.

Lemma upd_slot_upd_slot si w f g c :
  upd_slot si w g (upd_slot si w f c) = upd_slot si w (g ∘ f) c.
Proof.
  unfold upd_slot, set_sets. simpl. f_equal.
  rewrite list_alter_alter_eq. apply list_alter_ext; [|reflexivity].
  intros st _. simpl. now rewrite list_alter_alter_eq.
Qed.

Lemma slot_at_slots c si w st :
  sets c !! si = Some st -> slot_at c si w = slots st !! w.
Proof. unfold slot_at. now intros ->. Qed.

Lemma deref_eq c si w s :
  slot_at c si w = Some s -> deref (Some (si, w)) c = Some (s, c).
Proof. unfold deref. now intros ->. Qed.

Lemma assign_eq c si w s f :
  slot_at c si w = Some s ->
  assign (Some (si, w)) f c = Some (tt, upd_slot si w f c).
Proof. intros H. unfold assign, bind. now rewrite (deref_eq c si w s H). Qed.

Lemma set_ref_eq c index :
  0 <= index < Z.of_nat (length (sets c)) ->
  set_ref index c = Some (Z.to_nat index, c).
Proof.
  intros H. unfold set_ref.
  destruct (Z.leb_spec 0 index); [|lia].
  destruct (Z.ltb_spec index (Z.of_nat (length (sets c)))); [|lia]. reflexivity.
Qed.

Lemma set_ref_Some c index si c' :
  set_ref index c = Some (si, c') ->
  c' = c /\ si = Z.to_nat index /\ 0 <= index /\ (si < length (sets c))%nat.
Proof.
  unfold set_ref.
  destruct (Z.leb_spec 0 index); [|discriminate].
  destruct (Z.ltb_spec index (Z.of_nat (length (sets c)))); [|discriminate].
  simpl. intros [= <- <-]. repeat split; lia.
Qed.

Lemma slots_of_eq c si st :
  sets c !! si = Some st -> slots_of si c = Some (slots st, c).
Proof. unfold slots_of. now intros ->. Qed.

(** ** The scans *)

Lemma findBlock_scan_Some tg si w0 l p :
  findBlock_scan tg si w0 l = Some p ->
  exists k s, p = (si, (w0 + k)%nat) /\ l !! k = Some s /\
    valid s = true /\ tag s = tg /\
    forall j sj, (j < k)%nat -> l !! j = Some sj ->
      valid sj && (tag sj =? tg) = false.
Proof.
  revert w0. induction l as [|slot l IH]; intros w0; simpl; [discriminate|].
  destruct (valid slot && (tag slot =? tg)) eqn:E.
  - intros [= <-]. exists 0%nat, slot.
    apply andb_true_iff in E as [Hv Ht]. apply Z.eqb_eq in Ht.
    repeat split; try assumption; [f_equal; lia|]. intros j sj Hj; lia.
  - intros H. destruct (IH _ H) as (k & s & -> & Hk & Hv & Ht & Hbefore).
    exists (S k), s. repeat split; try assumption; [f_equal; lia|].
    intros [|j] sj Hj; simpl.
    + now intros [= <-].
    + apply Hbefore. lia.
Qed.

Lemma findBlock_scan_None tg si w0 l :
  findBlock_scan tg si w0 l = None ->
  forall j sj, l !! j = Some sj -> valid sj && (tag sj =? tg) = false.
Proof.
  revert w0. induction l as [|slot l IH]; intros w0; simpl.
  - intros _ j sj. now rewrite lookup_nil.
  - destruct (valid slot && (tag slot =? tg)) eqn:E; [discriminate|].
    intros H [|j] sj; simpl.
    + now intros [= <-].
    + eapply IH, H.
Qed.

Lemma findInvalid_scan_Some si w0 l p :
  findInvalid_scan si w0 l = Some p ->
  exists k s, p = (si, (w0 + k)%nat) /\ l !! k = Some s /\ valid s = false /\
    forall j sj, (j < k)%nat -> l !! j = Some sj -> valid sj = true.
Proof.
  revert w0. induction l as [|slot l IH]; intros w0; simpl; [discriminate|].
  destruct (valid slot) eqn:E; simpl.
  - intros H. destruct (IH _ H) as (k & s & -> & Hk & Hv & Hbefore).
    exists (S k), s. repeat split; try assumption; [f_equal; lia|].
    intros [|j] sj Hj; simpl.
    + now intros [= <-].
    + apply Hbefore. lia.
  - intros [= <-]. exists 0%nat, slot.
    repeat split; try assumption; [f_equal; lia|]. intros j sj Hj; lia.
Qed.

Lemma findInvalid_scan_None si w0 l :
  findInvalid_scan si w0 l = None ->
  forall j sj, l !! j = Some sj -> valid sj = true.
Proof.
  revert w0. induction l as [|slot l IH]; intros w0; simpl.
  - intros _ j sj. now rewrite lookup_nil.
  - destruct (valid slot) eqn:E; simpl; [|discriminate].
    intros H [|j] sj; simpl.
    + now intros [= <-].
    + eapply IH, H.
Qed.

(** The minimum scan keeps, over the prefix already visited, a slot whose
    timestamp is least and which is the first to carry that timestamp. *)
Lemma findMin_scan_inv ts pre l temp :
  (pre ++ l) !! fst temp = Some (snd temp) ->
  (forall j sj, (j < length pre)%nat -> (pre ++ l) !! j = Some sj ->
     ts (snd temp) <= ts sj) ->
  (forall j sj, (j < fst temp)%nat -> (pre ++ l) !! j = Some sj ->
     ts (snd temp) < ts sj) ->
  let r := findMin_scan ts (length pre) l temp in
  (pre ++ l) !! fst r = Some (snd r) /\
  (forall j sj, (pre ++ l) !! j = Some sj -> ts (snd r) <= ts sj) /\
  (forall j sj, (j < fst r)%nat -> (pre ++ l) !! j = Some sj ->
     ts (snd r) < ts sj).
Proof.
  revert pre temp. induction l as [|slot l IH]; intros pre temp Hat Hle Hlt; simpl.
  - repeat split; try assumption.
    intros j sj Hj. apply (Hle j sj); [|assumption].
    apply lookup_lt_Some in Hj. rewrite app_nil_r in Hj. exact Hj.
  - assert (Hcons : pre ++ slot :: l = (pre ++ [slot]) ++ l)
      by now rewrite <- app_assoc.
    assert (Hlen : S (length pre) = length (pre ++ [slot]))
      by (rewrite length_app; simpl; lia).
    assert (Hslot : (pre ++ slot :: l) !! length pre = Some slot)
      by (now rewrite list_lookup_middle).
    rewrite Hlen, Hcons.
    destruct (Z.ltb_spec (ts slot) (ts (snd temp))) as [Hnew|Hold].
    + apply IH; simpl; rewrite <- Hcons.
      * exact Hslot.
      * rewrite <- Hlen. intros j sj Hj Hsj.
        destruct (decide (j = length pre)) as [->|Hne].
        -- rewrite Hslot in Hsj. injection Hsj as <-. lia.
        -- specialize (Hle j sj ltac:(lia) Hsj). lia.
      * intros j sj Hj Hsj. specialize (Hle j sj Hj Hsj). lia.
    + apply IH; rewrite <- Hcons.
      * exact Hat.
      * rewrite <- Hlen. intros j sj Hj Hsj.
        destruct (decide (j = length pre)) as [->|Hne].
        -- rewrite Hslot in Hsj. injection Hsj as <-. lia.
        -- apply (Hle j sj); [lia|assumption].
      * exact Hlt.
Qed.

Lemma findMin_scan_spec ts s0 l :
  let r := findMin_scan ts 0 (s0 :: l) (0%nat, s0) in
  (s0 :: l) !! fst r = Some (snd r) /\
  (forall j sj, (s0 :: l) !! j = Some sj -> ts (snd r) <= ts sj) /\
  (forall j sj, (j < fst r)%nat -> (s0 :: l) !! j = Some sj ->
     ts (snd r) < ts sj).
Proof.
  apply (findMin_scan_inv ts [] (s0 :: l) (0%nat, s0)); simpl.
  - reflexivity.
  - intros j sj Hj; lia.
  - intros j sj Hj; lia.
Qed.

(** ** The replacement engine *)

Lemma flushIfDirty_eq c si w s :
  slot_at c si w = Some s ->
  flushIfDirty (Some (si, w)) c
  = Some (Some (si, w), if flushes s c then flush si w c else c).
Proof.
  intros H. unfold flushIfDirty, bind, gets. rewrite (deref_eq c si w s H).
  fold (flushes s c). destruct (flushes s c); [|reflexivity].
  rewrite (assign_eq c si w s _ H).
  rewrite (assign_eq _ si w _ _ (slot_at_upd_eq c si w _ s H)).
  reflexivity.
Qed.

Lemma findMin_block_eq ts c si st s0 l :
  sets c !! si = Some st -> slots st = s0 :: l ->
  (l0 <- slots_of si ;;
   match l0 with
   | [] => undefined
   | s1 :: _ => flushIfDirty (Some (si, fst (findMin_scan ts 0 l0 (0%nat, s1))))
   end) c
  = flushIfDirty (Some (si, fst (findMin_scan ts 0 (s0 :: l) (0%nat, s0)))) c.
Proof.
  intros Hst Hl. unfold bind. rewrite (slots_of_eq c si st Hst), Hl. reflexivity.
Qed.

(** What [findReplacementBlock] does on a set that has a slot: the choice
    depends on the slots and the eviction policy only. *)
Lemma findReplacementBlock_spec he index st :
  0 <= index -> slots st <> [] ->
  exists w s,
    picked he (slots st) w s /\
    forall c,
      sets c !! Z.to_nat index = Some st -> handleEviction c = he ->
      findReplacementBlock index c
      = Some (Some (Z.to_nat index, w), evict (Z.to_nat index) w s c).
Proof.
  intros Hidx Hne.
  destruct (findInvalid_scan (Z.to_nat index) 0 (slots st)) as [p|] eqn:Escan.
  - apply findInvalid_scan_Some in Escan as Hp.
    destruct Hp as (k & s & -> & Hk & Hv & Hbefore).
    exists k, s. split; [split; [assumption|left; split; assumption]|].
    intros c Hst _.
    assert (Hlen : (Z.to_nat index < length (sets c))%nat)
      by (eapply lookup_lt_Some; eassumption).
    unfold findReplacementBlock, bind.
    rewrite set_ref_eq by lia. rewrite (slots_of_eq c _ st Hst), Escan.
    unfold ret, evict. rewrite Hv. reflexivity.
  - pose proof (findInvalid_scan_None _ _ _ Escan) as Hall.
    destruct (slots st) as [|s0 l] eqn:El; [congruence|].
    pose proof (findMin_scan_spec (ts_for he) s0 l) as Hmin. cbv zeta in Hmin.
    destruct Hmin as (Hat & Hle & Hlt).
    set (r := findMin_scan (ts_for he) 0 (s0 :: l) (0%nat, s0)) in *.
    exists (fst r), (snd r).
    split; [split; [assumption|right; repeat split; assumption]|].
    intros c Hst Hhe.
    assert (Hlen : (Z.to_nat index < length (sets c))%nat)
      by (eapply lookup_lt_Some; eassumption).
    assert (Hslot : slot_at c (Z.to_nat index) (fst r) = Some (snd r))
      by (rewrite (slot_at_slots c _ _ st Hst), El; exact Hat).
    unfold findReplacementBlock, bind.
    rewrite set_ref_eq by lia. rewrite (slots_of_eq c _ st Hst), El, Escan.
    unfold gets, evict. rewrite (Hall _ _ Hat). simpl.
    subst r. unfold ts_for in *. rewrite Hhe.
    destruct (str_eq he "lru").
    + unfold findLRUBlock. rewrite (findMin_block_eq _ c _ st s0 l Hst El).
      now apply flushIfDirty_eq.
    + unfold findFIFOBlock. rewrite (findMin_block_eq _ c _ st s0 l Hst El).
      now apply flushIfDirty_eq.
Qed.

Lemma slot_at_flush c si w s si' w' :
  slot_at c si w = Some s ->
  slot_at (flush si w c) si' w'
  = if decide (si = si' /\ w = w')
    then Some (set_dirty false (set_valid false s))
    else slot_at c si' w'.
Proof.
  intros H. unfold flush, charge, addCycles. rewrite upd_slot_upd_slot.
  change (slot_at (set_totalCycles ?v ?c0) si' w') with (slot_at c0 si' w').
  rewrite slot_at_upd, H. reflexivity.
Qed.

Lemma slot_at_evict c si w s si' w' :
  slot_at c si w = Some s ->
  slot_at (evict si w s c) si' w'
  = if decide (si = si' /\ w = w') then Some (evicted s c)
    else slot_at c si' w'.
Proof.
  intros H. unfold evict, evicted. destruct (valid s && flushes s c).
  - now apply slot_at_flush.
  - destruct (decide _) as [[<- <-]|]; [assumption|reflexivity].
Qed.

Lemma slot_at_evict_eq c si w s :
  slot_at c si w = Some s ->
  slot_at (evict si w s c) si w = Some (evicted s c).
Proof. intros H. rewrite (slot_at_evict c si w s) by exact H. now rewrite decide_True. Qed.

Lemma slot_at_evict_ne c si w s si' w' :
  slot_at c si w = Some s -> ~ (si = si' /\ w = w') ->
  slot_at (evict si w s c) si' w' = slot_at c si' w'.
Proof. intros H Hne. rewrite (slot_at_evict c si w s) by exact H. now rewrite decide_False. Qed.

(** ** The access handlers *)

Lemma stamp_eq c si w s set_ts :
  slot_at c si w = Some s ->
  stamp (Some (si, w)) set_ts c
  = Some (tt, upd_slot si w (set_ts (Int32.to_uint (totalCycles c))) c).
Proof. intros H. unfold stamp, bind, gets. now apply assign_eq with s. Qed.

Lemma handleLoad_hit c index tg si w s :
  slot_at c si w = Some s ->
  handleLoad index tg (Some (si, w)) c = Some (tt, loadHit si w c).
Proof.
  intros H. unfold handleLoad, loadHit, incr, bind, modify, gets.
  cbv zeta beta iota.
  change (handleEviction (bump _ _ (bump _ _ (bump _ _ c))))
    with (handleEviction c).
  destruct (str_eq (handleEviction c) "lru"); [|reflexivity].
  now apply stamp_eq with s.
Qed.

(** The three writes of an install through [temp]. *)
Lemma install_eq c0 c si w s tg :
  slot_at c si w = Some s ->
  handleEviction c = handleEviction c0 ->
  (assign (Some (si, w)) (set_valid true) ;;
   assign (Some (si, w)) (set_tag tg) ;;
   he <- gets handleEviction ;;
   if str_eq he "lru" then stamp (Some (si, w)) set_access_ts
   else stamp (Some (si, w)) set_load_ts) c
  = Some (tt, upd_slot si w (installed c0 tg (totalCycles c)) c).
Proof.
  intros H Hev. unfold bind, gets.
  rewrite (assign_eq c si w s _ H).
  pose proof (slot_at_upd_eq c si w (set_valid true) s H) as H1.
  rewrite (assign_eq _ si w _ _ H1).
  pose proof (slot_at_upd_eq _ si w (set_tag tg) _ H1) as H2.
  change (handleEviction (upd_slot _ _ _ (upd_slot _ _ _ c)))
    with (handleEviction c).
  unfold installed, set_ts_of. rewrite <- Hev.
  destruct (str_eq (handleEviction c) "lru");
    rewrite (stamp_eq _ si w _ _ H2);
    now rewrite !upd_slot_upd_slot.
Qed.

Lemma handleLoad_miss c index tg w s :
  slot_at c (Z.to_nat index) w = Some s ->
  (forall c', sets c' = sets c -> handleEviction c' = handleEviction c ->
     findReplacementBlock index c'
     = Some (Some (Z.to_nat index, w), evict (Z.to_nat index) w s c')) ->
  handleLoad index tg nullptr c
  = Some (tt, loadMiss (Z.to_nat index) w s tg c).
Proof.
  intros Hs Hfind. unfold handleLoad, nullptr, loadMiss, incr, chargeBlock.
  unfold bind at 1 2 3 4. unfold modify at 1 2 3.
  rewrite Hfind by reflexivity. unfold bind at 1. unfold modify at 1.
  apply install_eq with (evicted s (charge (bump loadMisses set_loadMisses
                                      (bump loadCount set_loadCount c)))).
  - change (slot_at (bump ?g ?f ?c0)) with (slot_at c0).
    rewrite (slot_at_evict _ _ _ s) by exact Hs. now rewrite decide_True.
  - unfold evict. destruct (valid s && flushes s _); reflexivity.
Qed.

Lemma handleStore_hit c index tg si w s :
  slot_at c si w = Some s ->
  handleStore index tg (Some (si, w)) c = Some (tt, storeHit si w c).
Proof.
  intros H. unfold handleStore, storeHit, incr.
  unfold bind at 1 2 3 4. unfold modify at 1 2. unfold gets.
  rewrite (stamp_eq _ si w s) by exact H. cbv zeta.
  change (handleWrite (upd_slot _ _ _ (bump _ _ (bump _ _ c))))
    with (handleWrite c).
  destruct (str_eq (handleWrite c) "write-back"); [|reflexivity].
  unfold bind. erewrite assign_eq; [reflexivity|].
  apply slot_at_upd_eq. exact H.
Qed.

Lemma handleStore_miss_no_allocate c index tg :
  str_eq (handleMiss c) "no-write-allocate" = true ->
  handleStore index tg nullptr c = Some (tt, storeMissNoAllocate c).
Proof.
  intros H. unfold handleStore, nullptr, storeMissNoAllocate, incr, bind,
    modify, gets.
  change (handleMiss (bump _ _ (bump _ _ c))) with (handleMiss c).
  now rewrite H.
Qed.

Lemma handleStore_miss_allocate c index tg w s :
  str_eq (handleMiss c) "no-write-allocate" = false ->
  slot_at c (Z.to_nat index) w = Some s ->
  (forall c', sets c' = sets c -> handleEviction c' = handleEviction c ->
     findReplacementBlock index c'
     = Some (Some (Z.to_nat index, w), evict (Z.to_nat index) w s c')) ->
  handleStore index tg nullptr c
  = Some (tt, storeMissAllocate (Z.to_nat index) w s tg c).
Proof.
  intros Hm Hs Hfind. unfold handleStore, nullptr, storeMissAllocate, incr.
  unfold bind at 1 2 3. unfold modify at 1 2. unfold gets at 1.
  change (handleMiss (bump _ _ (bump _ _ c))) with (handleMiss c).
  rewrite Hm. unfold bind at 1 2. unfold modify at 1.
  rewrite Hfind by reflexivity. unfold bind at 1. unfold modify at 1.
  set (c0 := bump storeMisses set_storeMisses
               (bump storeCount set_storeCount c)).
  set (c1 := addCycles (storeFetchCost c0) c0).
  set (c2 := bump totalCycles set_totalCycles (evict (Z.to_nat index) w s c1)).
  assert (Hs2 : slot_at c2 (Z.to_nat index) w = Some (evicted s c1)).
  { subst c2. change (slot_at (bump ?g ?f ?x)) with (slot_at x).
    rewrite (slot_at_evict _ _ _ s) by exact Hs. now rewrite decide_True. }
  assert (Hev : handleEviction c2 = handleEviction c).
  { subst c2. unfold evict. destruct (valid s && flushes s c1); reflexivity. }
  assert (Hwr : handleWrite c2 = handleWrite c).
  { subst c2. unfold evict. destruct (valid s && flushes s c1); reflexivity. }
  pose proof (install_eq c c2 _ w _ tg Hs2 Hev) as Hin.
  unfold bind in Hin |- *. unfold gets in Hin |- *.
  destruct (assign (Some (Z.to_nat index, w)) (set_valid true) c2)
    as [[[] c3]|]; [|discriminate].
  destruct (assign (Some (Z.to_nat index, w)) (set_tag tg) c3)
    as [[[] c4]|]; [|discriminate].
  rewrite Hin. cbv zeta.
  change (handleWrite (upd_slot _ _ _ c2)) with (handleWrite c2). rewrite Hwr.
  destruct (str_eq (handleWrite c) "write-back"); [|reflexivity].
  erewrite assign_eq; [reflexivity|]. apply slot_at_upd_eq. exact Hs2.
Qed.

Lemma totalCycles_evict c si w s :
  totalCycles (evict si w s c) = afterFlush s c (totalCycles c).
Proof. unfold evict, afterFlush. destruct (valid s && flushes s c); reflexivity. Qed.

Lemma same_config_refl c : same_config c c.
Proof. repeat split. Qed.

Lemma same_config_evict c si w s : same_config c (evict si w s c).
Proof. unfold evict. destruct (valid s && flushes s c); repeat split. Qed.

Lemma same_config_loadHit c si w : same_config c (loadHit si w c).
Proof.
  unfold loadHit. cbv zeta. destruct (str_eq (handleEviction c) "lru");
    repeat split.
Qed.

Lemma same_config_loadMiss c si w s tg : same_config c (loadMiss si w s tg c).
Proof.
  unfold loadMiss. cbv zeta. unfold same_config. simpl.
  unfold evict. destruct (valid s && flushes s _); repeat split.
Qed.

Lemma same_config_storeHit c si w : same_config c (storeHit si w c).
Proof.
  unfold storeHit. cbv zeta. destruct (str_eq (handleWrite c) "write-back");
    repeat split.
Qed.

Lemma same_config_storeMissNoAllocate c :
  same_config c (storeMissNoAllocate c).
Proof. repeat split. Qed.

Lemma same_config_storeMissAllocate c si w s tg :
  same_config c (storeMissAllocate si w s tg c).
Proof.
  unfold storeMissAllocate. cbv zeta. unfold same_config.
  destruct (str_eq (handleWrite c) "write-back"); simpl;
    unfold evict; destruct (valid s && flushes s _); repeat split.
Qed.

Lemma slot_at_loadHit c si w s si' w' :
  slot_at c si w = Some s ->
  slot_at (loadHit si w c) si' w'
  = if decide (si = si' /\ w = w') then Some (loadHitSlot c s)
    else slot_at c si' w'.
Proof.
  intros H. unfold loadHit, loadHitSlot. cbv zeta.
  destruct (str_eq (handleEviction c) "lru").
  - rewrite slot_at_upd.
    change (slot_at (bump _ _ (bump _ _ (bump _ _ c)))) with (slot_at c).
    rewrite H. reflexivity.
  - change (slot_at (bump _ _ (bump _ _ (bump _ _ c)))) with (slot_at c).
    destruct (decide _) as [[<- <-]|]; [assumption|reflexivity].
Qed.

Lemma slot_at_loadMiss c si w s tg si' w' :
  slot_at c si w = Some s ->
  slot_at (loadMiss si w s tg c) si' w'
  = if decide (si = si' /\ w = w') then Some (loadMissSlot c tg s)
    else slot_at c si' w'.
Proof.
  intros H. unfold loadMiss, loadMissSlot, loadMissCycles. cbv zeta.
  rewrite slot_at_upd.
  change (slot_at (bump ?g ?f ?x)) with (slot_at x).
  change (totalCycles (bump totalCycles set_totalCycles ?x))
    with (Int32.add (totalCycles x) 1).
  rewrite totalCycles_evict.
  rewrite (slot_at_evict_eq _ si w s) by exact H.
  destruct (decide _) as [|Hne]; [reflexivity|].
  now rewrite (slot_at_evict_ne _ si w s) by assumption.
Qed.

Lemma slot_at_storeHit c si w s si' w' :
  slot_at c si w = Some s ->
  slot_at (storeHit si w c) si' w'
  = if decide (si = si' /\ w = w') then Some (storeHitSlot c s)
    else slot_at c si' w'.
Proof.
  intros H. unfold storeHit, storeHitSlot. cbv zeta.
  destruct (str_eq (handleWrite c) "write-back").
  - change (slot_at (bump ?g ?f ?x)) with (slot_at x).
    rewrite upd_slot_upd_slot, slot_at_upd.
    change (slot_at (bump _ _ (bump _ _ c))) with (slot_at c).
    rewrite H. reflexivity.
  - change (slot_at (addCycles ?n ?x)) with (slot_at x).
    rewrite slot_at_upd.
    change (slot_at (bump _ _ (bump _ _ c))) with (slot_at c).
    rewrite H. reflexivity.
Qed.

Lemma slot_at_storeMissAllocate c si w s tg si' w' :
  slot_at c si w = Some s ->
  slot_at (storeMissAllocate si w s tg c) si' w'
  = if decide (si = si' /\ w = w') then Some (storeMissSlot c tg s)
    else slot_at c si' w'.
Proof.
  intros H. unfold storeMissAllocate, storeMissSlot, storeMissCycles.
  cbv zeta.
  assert (E : forall F,
    slot_at (upd_slot si w F
      (bump totalCycles set_totalCycles
         (evict si w s
            (addCycles
               (storeFetchCost
                  (bump storeMisses set_storeMisses
                     (bump storeCount set_storeCount c)))
               (bump storeMisses set_storeMisses
                  (bump storeCount set_storeCount c)))))) si' w'
    = if decide (si = si' /\ w = w') then Some (F (evicted s c))
      else slot_at c si' w').
  { intros F. rewrite slot_at_upd.
    change (slot_at (bump ?g ?f ?x)) with (slot_at x).
    rewrite (slot_at_evict_eq _ si w s) by exact H.
    destruct (decide _) as [|Hne]; [reflexivity|].
    now rewrite (slot_at_evict_ne _ si w s) by assumption. }
  change (totalCycles (bump totalCycles set_totalCycles ?x))
    with (Int32.add (totalCycles x) 1).
  rewrite totalCycles_evict.
  destruct (str_eq (handleWrite c) "write-back").
  - rewrite upd_slot_upd_slot. rewrite E. reflexivity.
  - rewrite E. reflexivity.
Qed.

(** ** One access *)

Lemma lift_Some {A} (o : option A) c a c' :
  lift o c = Some (a, c') -> o = Some a /\ c' = c.
Proof. unfold lift. destruct o; [|discriminate]. now intros [= -> ->]. Qed.

Lemma calculateIndex_pure a c i c' :
  calculateIndex a c = Some (i, c') -> c' = c.
Proof.
  unfold calculateIndex, bind, gets, ret.
  repeat match goal with
         | |- context [lift ?o c] =>
             let E := fresh "E" in
             destruct (lift o c) as [[? ?]|] eqn:E; [|discriminate];
             apply lift_Some in E as [? ->]
         end.
  now intros [= _ <-].
Qed.

Lemma calculateTag_pure a c t c' :
  calculateTag a c = Some (t, c') -> c' = c.
Proof.
  unfold calculateTag, bind, gets.
  repeat match goal with
         | |- context [match lift ?o c with _ => _ end] =>
             let E := fresh "E" in
             destruct (lift o c) as [[? ?]|] eqn:E; [|discriminate];
             apply lift_Some in E as [? ->]
         end.
  intros Hl. now apply lift_Some in Hl as [_ ->].
Qed.

Lemma findBlock_eq c tg index st :
  0 <= index -> sets c !! Z.to_nat index = Some st ->
  findBlock tg index c
  = Some (findBlock_scan tg (Z.to_nat index) 0 (slots st), c).
Proof.
  intros Hidx Hst.
  assert (Hlen : (Z.to_nat index < length (sets c))%nat)
    by (eapply lookup_lt_Some; eassumption).
  unfold findBlock, bind. rewrite set_ref_eq by lia.
  now rewrite (slots_of_eq c _ st Hst).
Qed.

Lemma findBlock_inv c tg index hit c' :
  findBlock tg index c = Some (hit, c') ->
  0 <= index /\ exists st, sets c !! Z.to_nat index = Some st.
Proof.
  unfold findBlock, bind.
  destruct (set_ref index c) as [[si c1]|] eqn:E; [|discriminate].
  apply set_ref_Some in E as (-> & -> & Hidx & Hlen).
  intros _. split; [assumption|]. now apply lookup_lt_is_Some_2.
Qed.

Lemma cacheSimulator_inv op a c u c' :
  cacheSimulator op a c = Some (u, c') ->
  exists index tg st,
    calculateIndex a c = Some (index, c) /\
    calculateTag a c = Some (tg, c) /\
    0 <= index /\ sets c !! Z.to_nat index = Some st.
Proof.
  unfold cacheSimulator. unfold bind at 1.
  destruct (calculateIndex a c) as [[index c1]|] eqn:Ei; [|discriminate].
  pose proof (calculateIndex_pure _ _ _ _ Ei) as ->.
  unfold bind at 1.
  destruct (calculateTag a c) as [[tg c1]|] eqn:Et; [|discriminate].
  pose proof (calculateTag_pure _ _ _ _ Et) as ->.
  unfold bind at 1.
  destruct (findBlock tg index c) as [[hit c1]|] eqn:Ef; [|discriminate].
  intros _. apply findBlock_inv in Ef as (Hidx & st & Hst).
  now exists index, tg, st.
Qed.

Lemma findBlock_scan_hits tg si l w' :
  findBlock_scan tg si 0 l = Some w' ->
  exists w s, w' = (si, w) /\ hits tg l w s.
Proof.
  intros H. apply findBlock_scan_Some in H as (k & s & -> & Hk & Hv & Ht & Hb).
  exists k, s. split; [reflexivity|]. repeat split; assumption.
Qed.

(** Every access to a set that has a slot completes, in one of the five
    ways. *)
Lemma cacheSimulator_access op a c index tg st :
  calculateIndex a c = Some (index, c) ->
  calculateTag a c = Some (tg, c) ->
  0 <= index -> sets c !! Z.to_nat index = Some st -> slots st <> [] ->
  exists c', cacheSimulator op a c = Some (tt, c') /\
             access c op index tg st c'.
Proof.
  intros Ei Et Hidx Hst Hne.
  unfold cacheSimulator. unfold bind at 1. rewrite Ei.
  unfold bind at 1. rewrite Et. unfold bind at 1.
  rewrite (findBlock_eq c tg index st Hidx Hst).
  destruct (findReplacementBlock_spec (handleEviction c) index st Hidx Hne)
    as (wr & sr & Hpick & Hfind).
  assert (Hfind' : forall c', sets c' = sets c ->
            handleEviction c' = handleEviction c ->
            findReplacementBlock index c'
            = Some (Some (Z.to_nat index, wr),
                    evict (Z.to_nat index) wr sr c')).
  { intros c' Hs He. apply Hfind; [now rewrite Hs|assumption]. }
  assert (Hsr : slot_at c (Z.to_nat index) wr = Some sr)
    by (rewrite (slot_at_slots c _ _ st Hst); apply Hpick).
  destruct (findBlock_scan tg (Z.to_nat index) 0 (slots st)) as [p|] eqn:Escan.
  - apply findBlock_scan_hits in Escan as (w & s & -> & Hhit).
    assert (Hs : slot_at c (Z.to_nat index) w = Some s)
      by (rewrite (slot_at_slots c _ _ st Hst); apply Hhit).
    destruct (Ascii.eqb_spec op "l") as [->|Hop].
    + eexists. split; [apply handleLoad_hit with s; exact Hs|].
      apply access_loadHit with s; [reflexivity|exact Hhit].
    + eexists. split; [apply handleStore_hit with s; exact Hs|].
      apply access_storeHit with s; [exact Hop|exact Hhit].
  - pose proof (findBlock_scan_None _ _ _ _ Escan) as Hmiss.
    destruct (Ascii.eqb_spec op "l") as [->|Hop].
    + eexists. split; [apply handleLoad_miss; [exact Hsr|exact Hfind']|].
      apply access_loadMiss; [reflexivity|exact Hmiss|exact Hpick].
    + destruct (str_eq (handleMiss c) "no-write-allocate") eqn:Em.
      * eexists. split; [apply handleStore_miss_no_allocate; exact Em|].
        apply access_storeMissNoAllocate; [exact Hop|exact Hmiss|exact Em].
      * eexists.
        split; [apply handleStore_miss_allocate;
                [exact Em|exact Hsr|exact Hfind']|].
        apply access_storeMissAllocate;
          [exact Hop|exact Hmiss|exact Em|exact Hpick].
Qed.

(** ** Well-formed caches *)

Lemma table_upd_eq c c' si w s' : table_upd c c' si w s' -> slot_at c' si w = Some s'.
Proof. intros H. rewrite (H si w). now rewrite decide_True. Qed.

Lemma table_upd_ne c c' si w s' si' w' :
  table_upd c c' si w s' -> ~ (si = si' /\ w = w') ->
  slot_at c' si' w' = slot_at c si' w'.
Proof. intros H Hne. rewrite (H si' w'). now rewrite decide_False. Qed.

Lemma wf_same c c' :
  wf c -> same_config c c' ->
  (forall si w, slot_at c' si w = slot_at c si w) -> wf c'.
Proof.
  intros [Ha Hr Ht Hc Hu] (Es & Eb & Ey & Em & Ew & Ee) Hsame.
  constructor; unfold write_back in *; rewrite ?Es, ?Eb, ?Ey, ?Em, ?Ew, ?Ee.
  - exact Ha.
  - exact Hr.
  - intros si w. rewrite Hsame. apply Ht.
  - intros si w s. rewrite Hsame. apply Hc.
  - intros si w1 w2 s1 s2. rewrite !Hsame. apply Hu.
Qed.

Lemma wf_upd c c' si w s s' :
  wf c -> same_config c c' ->
  slot_at c si w = Some s -> table_upd c c' si w s' ->
  (dirty s' = true -> valid s' = true /\ write_back c = true) ->
  (valid s' = true ->
   forall w2 s2, w2 <> w -> slot_at c si w2 = Some s2 -> valid s2 = true ->
     tag s2 <> tag s') ->
  wf c'.
Proof.
  intros [Ha Hr Ht Hc Hu] (Es & Eb & Ey & Em & Ew & Ee) Hs Hupd Hd Htag.
  constructor; unfold write_back in *; rewrite ?Es, ?Eb, ?Ey, ?Em, ?Ew, ?Ee.
  - exact Ha.
  - exact Hr.
  - intros si' w'. rewrite (Hupd si' w').
    destruct (decide _) as [[<- <-]|]; [|apply Ht].
    rewrite <- Ht, Hs. split; intros _; eexists; reflexivity.
  - intros si' w' s0. rewrite (Hupd si' w').
    destruct (decide _) as [[<- <-]|]; [|apply Hc].
    intros [= <-]. exact Hd.
  - intros si' w1 w2 s1 s2. rewrite (Hupd si' w1), (Hupd si' w2).
    destruct (decide (si = si' /\ w = w1)) as [[E1 <-]|N1].
    + subst si'. destruct (decide (si = si /\ w = w2)) as [[_ <-]|N2];
        [reflexivity|].
      intros [= <-] H2 V1 V2 Et.
      destruct (decide (w2 = w)) as [->|Hw]; [reflexivity|exfalso].
      now apply (Htag V1 w2 s2 Hw H2 V2).
    + destruct (decide (si = si' /\ w = w2)) as [[E2 <-]|N2]; [|apply Hu].
      subst si'. intros H1 [= <-] V1 V2 Et.
      destruct (decide (w1 = w)) as [->|Hw]; [reflexivity|exfalso].
      now apply (Htag V2 w1 s1 Hw H1 V1).
Qed.

Lemma installed_valid c tg t s : valid (installed c tg t s) = true.
Proof. unfold installed, set_ts_of. now destruct (str_eq _ _). Qed.

Lemma installed_tag c tg t s : tag (installed c tg t s) = tg.
Proof. unfold installed, set_ts_of. now destruct (str_eq _ _). Qed.

Lemma installed_dirty c tg t s : dirty (installed c tg t s) = dirty s.
Proof. unfold installed, set_ts_of. now destruct (str_eq _ _). Qed.

(** In a well-formed cache the slot handed out for an install is clean. *)
Lemma evicted_clean c si w s :
  wf c -> slot_at c si w = Some s -> dirty (evicted s c) = false.
Proof.
  intros Hwf Hs. unfold evicted, flushes.
  destruct (dirty s) eqn:Ed.
  - destruct (wf_clean c Hwf si w s Hs Ed) as [-> Hwb].
    unfold write_back in Hwb. rewrite Hwb. reflexivity.
  - rewrite andb_false_r. exact Ed.
Qed.

Lemma misses_tag tg l w s :
  misses tg l -> l !! w = Some s -> valid s = true -> tag s <> tg.
Proof.
  intros Hm Hs Hv Et. specialize (Hm w s Hs). rewrite Hv in Hm.
  simpl in Hm. apply Z.eqb_neq in Hm. contradiction.
Qed.

(** Every access keeps the cache well formed. *)
Lemma access_wf c op index tg st c' :
  wf c -> sets c !! Z.to_nat index = Some st ->
  access c op index tg st c' -> wf c'.
Proof.
  intros Hwf Hst Hacc.
  assert (Hat : forall w, slot_at c (Z.to_nat index) w = slots st !! w)
    by (intros w; now apply slot_at_slots).
  destruct Hacc as [w s Hop (Hs & Hv & Ht & _) | w s Hop Hmiss (Hs & _)
                   | w s Hop (Hs & Hv & Ht & _) | Hop Hmiss Hm
                   | w s Hop Hmiss Hm (Hs & _)];
    rewrite <- Hat in Hs || idtac.
  - apply (wf_upd c _ (Z.to_nat index) w s (loadHitSlot c s) Hwf).
    + apply same_config_loadHit.
    + exact Hs.
    + intros si' w'. now apply slot_at_loadHit.
    + unfold loadHitSlot. destruct (str_eq _ _); simpl; intros Hd;
        (split; [exact Hv|eapply (wf_clean c Hwf); eassumption]).
    + intros _ w2 s2 Hw H2 V2 Et. apply Hw.
      apply (wf_tags c Hwf (Z.to_nat index) w2 w s2 s H2 Hs V2 Hv).
      rewrite Et. unfold loadHitSlot. now destruct (str_eq _ _).
  - apply (wf_upd c _ (Z.to_nat index) w s (loadMissSlot c tg s) Hwf).
    + apply same_config_loadMiss.
    + exact Hs.
    + intros si' w'. now apply slot_at_loadMiss.
    + unfold loadMissSlot. rewrite installed_dirty.
      rewrite (evicted_clean c _ _ s Hwf Hs). discriminate.
    + unfold loadMissSlot. rewrite installed_tag.
      intros _ w2 s2 _ H2 V2. rewrite Hat in H2.
      now apply (misses_tag tg (slots st) w2 s2).
  - apply (wf_upd c _ (Z.to_nat index) w s (storeHitSlot c s) Hwf).
    + apply same_config_storeHit.
    + exact Hs.
    + intros si' w'. now apply slot_at_storeHit.
    + unfold storeHitSlot, write_back. cbv zeta.
      destruct (str_eq (handleWrite c) "write-back") eqn:Ew; simpl.
      * intros _. now split.
      * intros Hd. destruct (wf_clean c Hwf _ _ s Hs Hd) as [_ Hwb].
        unfold write_back in Hwb. congruence.
    + intros _ w2 s2 Hw H2 V2 Et. apply Hw.
      apply (wf_tags c Hwf (Z.to_nat index) w2 w s2 s H2 Hs V2 Hv).
      rewrite Et. unfold storeHitSlot. cbv zeta. now destruct (str_eq _ _).
  - apply (wf_same c _ Hwf); [apply same_config_storeMissNoAllocate|].
    reflexivity.
  - apply (wf_upd c _ (Z.to_nat index) w s (storeMissSlot c tg s) Hwf).
    + apply same_config_storeMissAllocate.
    + exact Hs.
    + intros si' w'. now apply slot_at_storeMissAllocate.
    + unfold storeMissSlot, write_back. cbv zeta.
      destruct (str_eq (handleWrite c) "write-back") eqn:Ew; simpl.
      * intros _. split; [apply installed_valid|reflexivity].
      * rewrite installed_dirty, (evicted_clean c _ _ s Hwf Hs). discriminate.
    + intros _ w2 s2 _ H2 V2. rewrite Hat in H2.
      replace (tag (storeMissSlot c tg s)) with tg.
      * now apply (misses_tag tg (slots st) w2 s2).
      * unfold storeMissSlot. cbv zeta.
        destruct (str_eq (handleWrite c) "write-back");
          [change (tag (set_dirty true ?x)) with (tag x)|];
          now rewrite installed_tag.
Qed.

(** ** Reachable caches *)

Lemma validateArguments_ok ns nb nby hm hw he :
  validateArguments ns nb nby hm hw he = 0 ->
  (1 <= ns /\ checkPowTwo ns = true) /\
  (1 <= nb /\ checkPowTwo nb = true) /\
  (4 <= nby /\ checkPowTwo nby = true) /\
  (str_eq hm "write-allocate" = true \/ str_eq hm "no-write-allocate" = true) /\
  (str_eq hw "write-through" = true \/
   (str_eq hw "write-back" = true /\ str_eq hm "no-write-allocate" = false)) /\
  (str_eq he "lru" = true \/ str_eq he "fifo" = true).
Proof.
  unfold validateArguments.
  destruct (Z.ltb_spec ns 1); [discriminate|].
  destruct (checkPowTwo ns); [|discriminate].
  destruct (Z.ltb_spec nb 1); [discriminate|].
  destruct (checkPowTwo nb); [|discriminate].
  destruct (Z.ltb_spec nby 4); [discriminate|].
  destruct (checkPowTwo nby); [|discriminate]. simpl.
  destruct (str_eq hm "write-allocate") eqn:E1;
    destruct (str_eq hm "no-write-allocate") eqn:E2;
    destruct (str_eq hw "write-through") eqn:E3;
    destruct (str_eq hw "write-back") eqn:E4;
    destruct (str_eq he "lru") eqn:E5;
    destruct (str_eq he "fifo") eqn:E6;
    simpl; try discriminate; intros _; repeat split; auto.
Qed.

Lemma slot_at_cacheSetUp ns nb nby hm hw he si w :
  slot_at (cacheSetUp newCache ns nb nby hm hw he) si w
  = if decide ((si < Z.to_nat ns)%nat /\ (w < Z.to_nat nb)%nat)
    then Some emptySlot else None.
Proof.
  unfold slot_at, cacheSetUp. simpl.
  destruct (decide (si < Z.to_nat ns)%nat) as [Hsi|Hsi].
  - rewrite lookup_replicate_2 by assumption. simpl.
    destruct (decide (w < Z.to_nat nb)%nat) as [Hw|Hw].
    + rewrite lookup_replicate_2 by assumption. now rewrite decide_True.
    + rewrite decide_False by tauto.
      apply lookup_replicate_None. lia.
  - rewrite decide_False by tauto.
    assert (E : replicate (Z.to_nat ns)
                  (mkSet (replicate (Z.to_nat nb) emptySlot)) !! si = None)
      by (apply lookup_replicate_None; lia).
    now rewrite E.
Qed.

Lemma cacheSetUp_wf ns nb nby hm hw he :
  Int32.in_range ns -> Int32.in_range nb -> Int32.in_range nby ->
  validateArguments ns nb nby hm hw he = 0 ->
  wf (cacheSetUp newCache ns nb nby hm hw he).
Proof.
  intros Hs Hb Hy Hv. constructor.
  - exact Hv.
  - exact (conj Hs (conj Hb Hy)).
  - intros si w. rewrite slot_at_cacheSetUp. simpl.
    destruct (decide _) as [H|H]; split; try tauto.
    + intros _. eexists; reflexivity.
    + intros [x Hx]. discriminate.
  - intros si w s. rewrite slot_at_cacheSetUp.
    destruct (decide _); [|discriminate]. intros [= <-]. discriminate.
  - intros si w1 w2 s1 s2. rewrite !slot_at_cacheSetUp.
    destruct (decide _); [|discriminate]. intros [= <-]. discriminate.
Qed.

Lemma wf_valid_geometry c : wf c -> valid_geometry c.
Proof.
  intros Hwf. destruct (wf_range c Hwf) as (Hs & Hb & Hy).
  destruct (validateArguments_ok _ _ _ _ _ _ (wf_args c Hwf))
    as ((_ & Ps) & _ & (H4 & Py) & _).
  exact (conj Hs (conj Hy (conj Ps (conj Py H4)))).
Qed.

Lemma wf_blocks_pos c : wf c -> 1 <= numBlocks c.
Proof.
  intros Hwf.
  now destruct (validateArguments_ok _ _ _ _ _ _ (wf_args c Hwf))
    as (_ & (? & _) & _).
Qed.

Lemma wf_index c a index c' :
  wf c -> calculateIndex a c = Some (index, c') -> 0 <= index < numSets c.
Proof.
  intros Hwf H.
  destruct (valid_geometry_pow2 c (wf_valid_geometry c Hwf))
    as (ks & kb & Hks & Hkb & Es & Eb).
  rewrite (calculateIndex_eq c a ks kb) in H by (assumption || lia).
  injection H as <- _. rewrite Es. apply index_in_range. lia.
Qed.

Lemma wf_set c index :
  wf c -> 0 <= index < numSets c ->
  exists st, sets c !! Z.to_nat index = Some st /\ slots st <> [].
Proof.
  intros Hwf Hidx. pose proof (wf_blocks_pos c Hwf) as Hb.
  destruct (proj2 (wf_table c Hwf (Z.to_nat index) 0%nat)) as [s Hs];
    [split; lia|].
  unfold slot_at in Hs.
  destruct (sets c !! Z.to_nat index) as [st|]; [|discriminate].
  exists st. split; [reflexivity|]. intros E. now rewrite E in Hs.
Qed.

Lemma wf_step c op a u c' :
  wf c -> cacheSimulator op a c = Some (u, c') ->
  exists index tg st,
    calculateIndex a c = Some (index, c) /\
    calculateTag a c = Some (tg, c) /\
    0 <= index < numSets c /\
    sets c !! Z.to_nat index = Some st /\
    access c op index tg st c'.
Proof.
  intros Hwf H.
  destruct (cacheSimulator_inv _ _ _ _ _ H)
    as (index & tg & st & Ei & Et & Hi & Hst).
  pose proof (wf_index c a index c Hwf Ei) as Hrange.
  destruct (wf_set c index Hwf Hrange) as (st' & Hst' & Hne).
  rewrite Hst in Hst'. injection Hst' as <-.
  destruct (cacheSimulator_access op a c index tg st Ei Et Hi Hst Hne)
    as (c'' & E & Hacc).
  rewrite E in H. injection H as _ <-.
  now exists index, tg, st.
Qed.

Lemma reach_in_wf n c : reach_in n c -> wf c.
Proof.
  induction 1 as [ns nb nby hm hw he Hs Hb Hy Hv | n c op a c' _ IH Ha Hstep].
  - now apply cacheSetUp_wf.
  - destruct (wf_step c op a tt c' IH Hstep)
      as (index & tg & st & _ & _ & _ & Hst & Hacc).
    exact (access_wf c op index tg st c' IH Hst Hacc).
Qed.

Lemma reachable_wf c : reachable c -> wf c.
Proof. intros [n H]. exact (reach_in_wf n c H). Qed.

(** On a well-formed cache whose offset and index bits stay below 32, every
    access completes. *)
Lemma cacheSimulator_total c op a :
  wf c -> numSets c * numBytes c <= 2 ^ 31 ->
  exists c', cacheSimulator op a c = Some (tt, c').
Proof.
  intros Hwf Hprod.
  destruct (valid_geometry_pow2 c (wf_valid_geometry c Hwf))
    as (ks & kb & Hks & Hkb & Es & Eb).
  assert (Hsum : ks + kb <= 31).
  { rewrite Es, Eb, <- Z.pow_add_r in Hprod by lia.
    apply Z.pow_le_mono_r_iff in Hprod; lia. }
  pose proof (calculateIndex_eq c a ks kb Hks ltac:(lia) Es Eb) as Ei.
  pose proof (calculateTag_eq c a ks kb Hks ltac:(lia) Hsum Es Eb) as Et.
  pose proof (wf_index c a _ c Hwf Ei) as Hrange.
  destruct (wf_set c _ Hwf Hrange) as (st & Hst & Hne).
  destruct (cacheSimulator_access op a c _ _ st Ei Et ltac:(lia) Hst Hne)
    as (c' & E & _).
  now exists c'.
Qed.

(** On such a cache the address decodes and the lookup is defined. *)
Lemma lookup_total c a :
  wf c -> numSets c * numBytes c <= 2 ^ 31 ->
  exists index tg hit,
    calculateIndex a c = Some (index, c) /\
    calculateTag a c = Some (tg, c) /\
    findBlock tg index c = Some (hit, c).
Proof.
  intros Hwf Hprod.
  destruct (cacheSimulator_total c "l" a Hwf Hprod) as (c' & E).
  destruct (cacheSimulator_inv _ _ _ _ _ E)
    as (index & tg & st & Ei & Et & Hi & Hst).
  exists index, tg, (findBlock_scan tg (Z.to_nat index) 0 (slots st)).
  split; [exact Ei|]. split; [exact Et|]. now apply findBlock_eq.
Qed.

(** * The claims *)

Lemma str_eq_true a b : str_eq a b = true <-> a = b.
Proof. apply String.eqb_eq. Qed.

Lemma str_eq_false a b : str_eq a b = false <-> a <> b.
Proof. apply String.eqb_neq. Qed.

(** C3.  One set of one 4-byte block, write-allocate, write-back, lru: the
    store to 0x0 misses and installs a dirty block for 101 cycles; the load
    from 0x4 misses, flushes the dirty block and installs, 201 cycles more.
    The trace ends with totalCycles = 302, storeMisses = 1, loadMisses = 1. *)
Theorem scenario_dirty_eviction :
  exists c1 c2,
    cacheSimulator "s" (Int32.wrap 0)
      (tinyCache "write-allocate" "write-back" "lru") = Some (tt, c1) /\
    totalCycles c1 = 101 /\
    cacheSimulator "l" (Int32.wrap 4) c1 = Some (tt, c2) /\
    totalCycles c2 = 101 + (100 + 100 + 1) /\
    runTrace [("s"%char, 0); ("l"%char, 4)]
      (tinyCache "write-allocate" "write-back" "lru") = Some (tt, c2) /\
    totalCycles c2 = 302 /\ storeMisses c2 = 1 /\ loadMisses c2 = 1 /\
    storeCount c2 = 1 /\ loadCount c2 = 1 /\
    storeHits c2 = 0 /\ loadHits c2 = 0.
Proof.
  eexists. eexists.
  split; [vm_compute; reflexivity|].
  split; [reflexivity|].
  split; [vm_compute; reflexivity|].
  repeat split; reflexivity.
Qed.

(** C10.  [cacheSimulator] decodes the address, looks the block up, and
    then runs [handleLoad] exactly when the operation character is 'l';
    every other character, 's' or not, runs [handleStore]. *)
Theorem cacheSimulator_dispatch c op a index tg hit :
  calculateIndex a c = Some (index, c) ->
  calculateTag a c = Some (tg, c) ->
  findBlock tg index c = Some (hit, c) ->
  (op = "l"%char ->
   cacheSimulator op a c = handleLoad index tg hit c) /\
  (op <> "l"%char ->
   cacheSimulator op a c = handleStore index tg hit c /\
   cacheSimulator op a c = cacheSimulator "s" a c).
Proof.
  intros Ei Et Ef.
  assert (E : forall o, cacheSimulator o a c
                        = if Ascii.eqb o "l" then handleLoad index tg hit c
                          else handleStore index tg hit c).
  { intros o. unfold cacheSimulator. unfold bind at 1. rewrite Ei.
    unfold bind at 1. rewrite Et. unfold bind at 1. rewrite Ef.
    now destruct (Ascii.eqb o "l"). }
  split.
  - intros ->. now rewrite E.
  - intros Hop. rewrite !E. apply Ascii.eqb_neq in Hop. rewrite Hop.
    split; reflexivity.
Qed.

Lemma cacheSimulator_dispatch_witness :
  cacheSimulator "l" 0 (tinyCache "write-allocate" "write-back" "lru")
  = handleLoad 0 0 nullptr (tinyCache "write-allocate" "write-back" "lru") /\
  cacheSimulator "x" 0 (tinyCache "write-allocate" "write-back" "lru")
  = handleStore 0 0 nullptr (tinyCache "write-allocate" "write-back" "lru").
Proof.
  assert (Ei : calculateIndex 0 (tinyCache "write-allocate" "write-back" "lru")
               = Some (0, tinyCache "write-allocate" "write-back" "lru"))
    by (vm_compute; reflexivity).
  assert (Et : calculateTag 0 (tinyCache "write-allocate" "write-back" "lru")
               = Some (0, tinyCache "write-allocate" "write-back" "lru"))
    by (vm_compute; reflexivity).
  assert (Ef : findBlock 0 0 (tinyCache "write-allocate" "write-back" "lru")
               = Some (nullptr, tinyCache "write-allocate" "write-back" "lru"))
    by (vm_compute; reflexivity).
  split.
  - exact (proj1 (cacheSimulator_dispatch _ "l" 0 0 0 nullptr Ei Et Ef)
             eq_refl).
  - refine (proj1 (proj2 (cacheSimulator_dispatch _ "x" 0 0 0 nullptr
                            Ei Et Ef) _)).
    discriminate.
Defined.

(** C4.  A store that misses under no-write-allocate increments storeMisses
    and storeCount, adds 100 cycles, and leaves the whole table of sets and
    slots as it was. *)
Theorem store_miss_no_write_allocate c op a index tg :
  op <> "l"%char ->
  handleMiss c = "no-write-allocate"%string ->
  calculateIndex a c = Some (index, c) ->
  calculateTag a c = Some (tg, c) ->
  findBlock tg index c = Some (nullptr, c) ->
  exists c',
    cacheSimulator op a c = Some (tt, c') /\
    storeMisses c' = Int32.add (storeMisses c) 1 /\
    storeCount c' = Int32.add (storeCount c) 1 /\
    totalCycles c' = Int32.add (totalCycles c) 100 /\
    sets c' = sets c /\
    (forall si w, slot_at c' si w = slot_at c si w) /\
    storeHits c' = storeHits c /\
    same_load_stats c c' /\ same_config c c'.
Proof.
  intros Hop Hm Ei Et Ef. exists (storeMissNoAllocate c).
  unfold cacheSimulator. unfold bind at 1. rewrite Ei.
  unfold bind at 1. rewrite Et. unfold bind at 1. rewrite Ef.
  apply Ascii.eqb_neq in Hop. rewrite Hop.
  rewrite handleStore_miss_no_allocate by now apply str_eq_true.
  repeat split.
Qed.

Lemma store_miss_no_write_allocate_witness :
  exists c',
    cacheSimulator "s" 0 (tinyCache "no-write-allocate" "write-through" "lru")
    = Some (tt, c') /\
    totalCycles c' = 100 /\
    sets c' = sets (tinyCache "no-write-allocate" "write-through" "lru").
Proof.
  assert (Hop : "s"%char <> "l"%char) by discriminate.
  assert (Ei : calculateIndex 0
                 (tinyCache "no-write-allocate" "write-through" "lru")
               = Some (0, tinyCache "no-write-allocate" "write-through" "lru"))
    by (vm_compute; reflexivity).
  assert (Et : calculateTag 0
                 (tinyCache "no-write-allocate" "write-through" "lru")
               = Some (0, tinyCache "no-write-allocate" "write-through" "lru"))
    by (vm_compute; reflexivity).
  assert (Ef : findBlock 0 0
                 (tinyCache "no-write-allocate" "write-through" "lru")
               = Some (nullptr,
                       tinyCache "no-write-allocate" "write-through" "lru"))
    by (vm_compute; reflexivity).
  destruct (store_miss_no_write_allocate
              (tinyCache "no-write-allocate" "write-through" "lru")
              "s" 0 0 0 Hop eq_refl Ei Et Ef)
    as (c' & E & _ & _ & Ht & Hs & _).
  exists c'. split; [exact E|]. split; [exact Ht|exact Hs].
Defined.

(** C5.  On a set with at least one slot [findReplacementBlock] always
    returns a slot, never [nullptr].  If some slot is invalid it returns the
    first invalid one in way order and leaves the cache, its cycle count
    included, as it was.  Otherwise it returns the slot with the least
    [access_ts] under "lru", the least [load_ts] under any other policy
    (fifo): no slot is smaller, and every slot at a lower way is strictly
    larger, so a tie goes to the lowest way. *)
Theorem findReplacementBlock_choice c index st :
  0 <= index ->
  sets c !! Z.to_nat index = Some st ->
  slots st <> [] ->
  let ts := if str_eq (handleEviction c) "lru" then access_ts else load_ts in
  exists w s c',
    findReplacementBlock index c = Some (Some (Z.to_nat index, w), c') /\
    slots st !! w = Some s /\
    ((exists j sj, slots st !! j = Some sj /\ valid sj = false) ->
     valid s = false /\
     (forall j sj, (j < w)%nat -> slots st !! j = Some sj -> valid sj = true) /\
     c' = c) /\
    ((forall j sj, slots st !! j = Some sj -> valid sj = true) ->
     (forall j sj, slots st !! j = Some sj -> ts s <= ts sj) /\
     (forall j sj, (j < w)%nat -> slots st !! j = Some sj -> ts s < ts sj)).
Proof.
  intros Hidx Hst Hne ts.
  destruct (findReplacementBlock_spec (handleEviction c) index st Hidx Hne)
    as (w & s & (Hs & Hpick) & Hfind).
  exists w, s, (evict (Z.to_nat index) w s c).
  split; [now apply Hfind|]. split; [exact Hs|].
  destruct Hpick as [(Hv & Hfirst) | (Hall & Hle & Hlt)].
  - split.
    + intros _. repeat split; try assumption.
      unfold evict. now rewrite Hv.
    + intros Hall. rewrite (Hall w s Hs) in Hv. discriminate.
  - split.
    + intros (j & sj & Hj & Hvj). rewrite (Hall j sj Hj) in Hvj. discriminate.
    + intros _. split; assumption.
Qed.

Lemma findReplacementBlock_choice_witness :
  exists w s c',
    findReplacementBlock 0 (tinyCache "write-allocate" "write-back" "lru")
    = Some (Some (0%nat, w), c') /\
    [emptySlot] !! w = Some s.
Proof.
  destruct (findReplacementBlock_choice
              (tinyCache "write-allocate" "write-back" "lru") 0
              (mkSet [emptySlot]) ltac:(lia) eq_refl ltac:(discriminate))
    as (w & s & c' & E & Hs & _).
  exists w, s, c'. split; [exact E|exact Hs].
Defined.

(** The cost of a block transfer is 25 cycles a byte, as an [int]. *)
Lemma blockCost_wrap c :
  blockCost c = Int32.wrap (25 * numBytes c) /\
  blockCost c = Int32.wrap (100 * numBytes c / 4).
Proof.
  assert (E : 100 * numBytes c ÷ 4 = 25 * numBytes c).
  { replace (100 * numBytes c) with (25 * numBytes c * 4) by lia.
    apply Z.quot_mul. lia. }
  unfold blockCost, Int32.div. rewrite E. split; [reflexivity|].
  replace (100 * numBytes c) with (25 * numBytes c * 4) by lia.
  now rewrite Z.div_mul by lia.
Qed.

(** It is the plain quotient for blocks of at most 2^24 bytes. *)
Lemma blockCost_exact c :
  0 <= numBytes c <= 2 ^ 24 ->
  blockCost c = 100 * numBytes c / 4 /\ blockCost c = 25 * numBytes c.
Proof.
  intros Hb. change (2 ^ 24) with 16777216 in Hb.
  assert (E : blockCost c = 25 * numBytes c).
  { rewrite (proj1 (blockCost_wrap c)).
    apply Int32Facts.wrap_id.
    unfold Int32.in_range, Int32.min_int, Int32.max_int;
      change (2 ^ 31) with 2147483648; lia. }
  split; [|exact E]. rewrite E.
  replace (100 * numBytes c) with (25 * numBytes c * 4) by lia.
  now rewrite Z.div_mul by lia.
Qed.

(** On one block of 2^25 bytes the first load costs 25 * 2^25 + 1 cycles,
    and the flush of the block a store has brought in 25 * 2^25 more; on one
    block of 2^27 bytes [25 * 2^27] is not an [int] and the first load leaves
    a negative cycle count. *)
Lemma bigBlock_first_load :
  exists c',
    cacheSimulator "l" 0 bigBlockCache = Some (tt, c') /\
    totalCycles c' = 838860801.
Proof. eexists. split; [vm_compute; reflexivity|reflexivity]. Qed.

Lemma bigBlock_flush :
  exists c1 c2,
    cacheSimulator "s" 0 bigBlockCache = Some (tt, c1) /\
    totalCycles c1 = 838860801 /\
    findReplacementBlock 0 c1 = Some (Some (0%nat, 0%nat), c2) /\
    totalCycles c2 = 1677721601.
Proof.
  eexists. eexists. split; [vm_compute; reflexivity|].
  split; [reflexivity|]. split; [vm_compute; reflexivity|reflexivity].
Qed.

Lemma hugeBlock_first_load :
  exists c',
    cacheSimulator "l" 0 hugeBlockCache = Some (tt, c') /\
    totalCycles c' = -939524095.
Proof. eexists. split; [vm_compute; reflexivity|reflexivity]. Qed.

Lemma slot_at_set c si w s :
  slot_at c si w = Some s ->
  exists st, sets c !! si = Some st /\ slots st !! w = Some s.
Proof.
  unfold slot_at. destruct (sets c !! si) as [st|]; [|discriminate].
  intros H. now exists st.
Qed.

(** After a flush the flushed slot is the first invalid one of its set, so
    asking for a replacement again returns it and charges nothing. *)
Lemma findReplacementBlock_after_flush c index st w s :
  0 <= index -> sets c !! Z.to_nat index = Some st ->
  slots st !! w = Some s ->
  (forall j sj, slots st !! j = Some sj -> valid sj = true) ->
  findReplacementBlock index (flush (Z.to_nat index) w c)
  = Some (Some (Z.to_nat index, w), flush (Z.to_nat index) w c).
Proof.
  intros Hidx Hst Hs Hall.
  assert (Hsc : slot_at c (Z.to_nat index) w = Some s)
    by now rewrite (slot_at_slots c _ _ st Hst).
  set (c' := flush (Z.to_nat index) w c).
  assert (Hat : forall w', slot_at c' (Z.to_nat index) w'
                = if decide (w = w')
                  then Some (set_dirty false (set_valid false s))
                  else slots st !! w').
  { intros w'. subst c'. rewrite (slot_at_flush c _ w s) by exact Hsc.
    destruct (decide (w = w')) as [<-|Hne].
    - now rewrite decide_True.
    - rewrite decide_False by tauto. now apply slot_at_slots. }
  destruct (slot_at_set c' (Z.to_nat index) w _
              ltac:(rewrite Hat, decide_True by reflexivity; reflexivity))
    as (st' & Hst' & Hw').
  assert (Hat' : forall w', slots st' !! w'
                 = if decide (w = w')
                   then Some (set_dirty false (set_valid false s))
                   else slots st !! w').
  { intros w'. rewrite <- (slot_at_slots c' _ w' st' Hst'). apply Hat. }
  assert (Hne : slots st' <> []) by (intros E; now rewrite E in Hw').
  destruct (findReplacementBlock_spec (handleEviction c') index st' Hidx Hne)
    as (w2 & s2 & (Hs2 & Hpick) & Hfind).
  rewrite (Hfind c' Hst' eq_refl).
  destruct Hpick as [(Hv2 & _) | (Hall' & _)].
  - rewrite Hat' in Hs2. destruct (decide (w = w2)) as [<-|Hne2].
    + unfold evict. now rewrite Hv2.
    + rewrite (Hall w2 s2 Hs2) in Hv2. discriminate.
  - specialize (Hall' w _ Hw'). discriminate.
Qed.

(** C2.  In a reachable cache, when [findReplacementBlock] returns a slot
    that is dirty and the write policy is write-back, totalCycles grows by
    [100 * numBytes / 4] as an [int] (the plain quotient, 25 cycles a byte,
    for blocks of at most 2^26 bytes), the slot comes back with valid and
    dirty false and every other slot as it was, and the charge is made once:
    asking again returns the same slot and leaves the cache as it is.  When
    the returned slot is not dirty, or the policy is not write-back, the
    cache and its cycle count are left untouched. *)
Theorem dirty_eviction_flush c index :
  reachable c ->
  0 <= index < numSets c ->
  exists w s c',
    findReplacementBlock index c = Some (Some (Z.to_nat index, w), c') /\
    slot_at c (Z.to_nat index) w = Some s /\
    (dirty s = true -> handleWrite c = "write-back"%string ->
     totalCycles c'
     = Int32.add (totalCycles c) (Int32.wrap (100 * numBytes c / 4)) /\
     (exists s', slot_at c' (Z.to_nat index) w = Some s' /\
                 valid s' = false /\ dirty s' = false) /\
     (forall si' w', ~ (Z.to_nat index = si' /\ w = w') ->
        slot_at c' si' w' = slot_at c si' w') /\
     findReplacementBlock index c' = Some (Some (Z.to_nat index, w), c')) /\
    (dirty s = false \/ handleWrite c <> "write-back"%string -> c' = c) /\
    (numBytes c <= 2 ^ 26 ->
     Int32.wrap (100 * numBytes c / 4) = 100 * numBytes c / 4).
Proof.
  intros Hreach Hidx. pose proof (reachable_wf c Hreach) as Hwf.
  destruct (wf_set c index Hwf Hidx) as (st & Hst & Hne).
  destruct (findReplacementBlock_spec (handleEviction c) index st
              ltac:(lia) Hne) as (w & s & (Hs & Hpick) & Hfind).
  assert (Hsc : slot_at c (Z.to_nat index) w = Some s)
    by now rewrite (slot_at_slots c _ _ st Hst).
  exists w, s, (evict (Z.to_nat index) w s c).
  split; [now apply Hfind|]. split; [exact Hsc|]. split; [|split].
  - intros Hd Hwb. apply str_eq_true in Hwb.
    destruct (wf_clean c Hwf _ _ s Hsc Hd) as [Hv _].
    assert (Hall : forall j sj, slots st !! j = Some sj -> valid sj = true).
    { destruct Hpick as [(Hv' & _) | (Hall & _)]; [congruence|exact Hall]. }
    assert (E : evict (Z.to_nat index) w s c = flush (Z.to_nat index) w c)
      by (unfold evict, flushes; now rewrite Hv, Hd, Hwb).
    rewrite E. split; [now rewrite <- (proj2 (blockCost_wrap c))|].
    split; [|split].
    + exists (set_dirty false (set_valid false s)).
      split; [|split; reflexivity].
      rewrite (slot_at_flush c _ w s) by exact Hsc. now rewrite decide_True.
    + intros si' w' Hne'. rewrite (slot_at_flush c _ w s) by exact Hsc.
      now rewrite decide_False.
    + now apply findReplacementBlock_after_flush with st s.
  - intros Hno. unfold evict, flushes.
    destruct Hno as [Hd | Hwb].
    + now rewrite Hd, andb_false_r.
    + apply str_eq_false in Hwb. now rewrite Hwb, !andb_false_r.
  - intros Hb. change (2 ^ 26) with 67108864 in Hb.
    assert (0 <= numBytes c).
    { destruct (valid_geometry_pow2 c (wf_valid_geometry c Hwf))
        as (ks & kb & _ & Hkb & _ & ->).
      apply Z.pow_nonneg. lia. }
    replace (100 * numBytes c) with (25 * numBytes c * 4) by lia.
    rewrite Z.div_mul by lia.
    apply Int32Facts.wrap_id.
    unfold Int32.in_range, Int32.min_int, Int32.max_int;
      change (2 ^ 31) with 2147483648; lia.
Qed.

Lemma tinyCache_reach hm hw he :
  validateArguments 1 1 4 hm hw he = 0 -> reach_in 0 (tinyCache hm hw he).
Proof.
  intros Hv. apply reach_init; try assumption;
    unfold Int32.in_range, Int32.min_int, Int32.max_int; simpl; lia.
Qed.

Lemma dirtyTinyCache_reach : reach_in 1 dirtyTinyCache.
Proof.
  apply (reach_step 0 (tinyCache "write-allocate" "write-back" "lru") "s" 0).
  - now apply tinyCache_reach.
  - unfold Int32.in_range, Int32.min_int, Int32.max_int; simpl; lia.
  - vm_compute. reflexivity.
Qed.

Lemma dirty_eviction_flush_witness :
  exists c',
    findReplacementBlock 0 dirtyTinyCache = Some (Some (0%nat, 0%nat), c') /\
    totalCycles c' = 201.
Proof.
  assert (Hr : reachable dirtyTinyCache)
    by (exists 1%nat; exact dirtyTinyCache_reach).
  assert (Hi : 0 <= 0 < numSets dirtyTinyCache) by (simpl; lia).
  destruct (dirty_eviction_flush dirtyTinyCache 0 Hr Hi)
    as (w & s & c' & E & Hs & Hflush & _).
  destruct w as [|w]; [|discriminate Hs].
  injection Hs as <-.
  destruct (Hflush eq_refl eq_refl) as (Ht & _).
  exists c'. split; [exact E|exact Ht].
Defined.

(** ** Loads and stores, from the decoded address on *)

Lemma cacheSimulator_eq op a c index tg hit :
  calculateIndex a c = Some (index, c) ->
  calculateTag a c = Some (tg, c) ->
  findBlock tg index c = Some (hit, c) ->
  cacheSimulator op a c
  = if Ascii.eqb op "l" then handleLoad index tg hit c
    else handleStore index tg hit c.
Proof.
  intros Ei Et Ef. unfold cacheSimulator. unfold bind at 1. rewrite Ei.
  unfold bind at 1. rewrite Et. unfold bind at 1. rewrite Ef.
  now destruct (Ascii.eqb op "l").
Qed.

Lemma findBlock_lookup c tg index hit c' :
  findBlock tg index c = Some (hit, c') ->
  0 <= index /\
  exists st, sets c !! Z.to_nat index = Some st /\
             hit = findBlock_scan tg (Z.to_nat index) 0 (slots st).
Proof.
  intros H. destruct (findBlock_inv _ _ _ _ _ H) as (Hidx & st & Hst).
  split; [exact Hidx|]. exists st. split; [exact Hst|].
  rewrite (findBlock_eq c tg index st Hidx Hst) in H. now injection H.
Qed.

Lemma findBlock_hit c tg index si w c' :
  findBlock tg index c = Some (Some (si, w), c') ->
  si = Z.to_nat index /\
  exists st s, sets c !! si = Some st /\ hits tg (slots st) w s /\
               slot_at c si w = Some s.
Proof.
  intros H. destruct (findBlock_lookup _ _ _ _ _ H) as (_ & st & Hst & Hscan).
  symmetry in Hscan. apply findBlock_scan_hits in Hscan
    as (w' & s & [= -> ->] & Hhit).
  split; [reflexivity|]. exists st, s. repeat split; try apply Hhit; try assumption.
  rewrite (slot_at_slots c _ _ st Hst). apply Hhit.
Qed.

Lemma findBlock_miss c tg index c' :
  findBlock tg index c = Some (nullptr, c') ->
  0 <= index /\
  exists st, sets c !! Z.to_nat index = Some st /\ misses tg (slots st).
Proof.
  intros H. destruct (findBlock_lookup _ _ _ _ _ H) as (Hidx & st & Hst & Hscan).
  split; [exact Hidx|]. exists st. split; [exact Hst|].
  symmetry in Hscan. exact (findBlock_scan_None _ _ _ _ Hscan).
Qed.

(** The slot the replacement engine picks for a miss at [index]. *)
Lemma wf_pick c index st :
  wf c -> 0 <= index < numSets c -> sets c !! Z.to_nat index = Some st ->
  exists w s,
    picked (handleEviction c) (slots st) w s /\
    slot_at c (Z.to_nat index) w = Some s /\
    forall c', sets c' = sets c -> handleEviction c' = handleEviction c ->
      findReplacementBlock index c'
      = Some (Some (Z.to_nat index, w), evict (Z.to_nat index) w s c').
Proof.
  intros Hwf Hidx Hst.
  destruct (wf_set c index Hwf Hidx) as (st' & Hst' & Hne).
  rewrite Hst in Hst'. injection Hst' as <-.
  destruct (findReplacementBlock_spec (handleEviction c) index st
              ltac:(lia) Hne) as (w & s & Hpick & Hfind).
  exists w, s. split; [exact Hpick|]. split.
  - rewrite (slot_at_slots c _ _ st Hst). apply Hpick.
  - intros c' Hs He. apply Hfind; [now rewrite Hs|exact He].
Qed.

Lemma evicted_fields s c :
  tag (evicted s c) = tag s /\ load_ts (evicted s c) = load_ts s /\
  access_ts (evicted s c) = access_ts s.
Proof. unfold evicted. now destruct (valid s && flushes s c). Qed.

Lemma totalCycles_loadMiss c si w s tg :
  totalCycles (loadMiss si w s tg c) = loadMissCycles c s.
Proof.
  unfold loadMiss, loadMissCycles. cbv zeta.
  change (totalCycles (upd_slot ?a ?b ?f ?x)) with (totalCycles x).
  change (totalCycles (bump totalCycles set_totalCycles ?x))
    with (Int32.add (totalCycles x) 1).
  now rewrite totalCycles_evict.
Qed.

Lemma stats_loadMiss c si w s tg :
  loadCount (loadMiss si w s tg c) = Int32.add (loadCount c) 1 /\
  loadMisses (loadMiss si w s tg c) = Int32.add (loadMisses c) 1 /\
  loadHits (loadMiss si w s tg c) = loadHits c /\
  same_store_stats c (loadMiss si w s tg c).
Proof.
  unfold loadMiss, same_store_stats. cbv zeta. simpl.
  unfold evict. destruct (valid s && flushes s _); repeat split.
Qed.

Lemma stats_loadHit c si w :
  loadCount (loadHit si w c) = Int32.add (loadCount c) 1 /\
  loadHits (loadHit si w c) = Int32.add (loadHits c) 1 /\
  loadMisses (loadHit si w c) = loadMisses c /\
  totalCycles (loadHit si w c) = Int32.add (totalCycles c) 1 /\
  same_store_stats c (loadHit si w c).
Proof.
  unfold loadHit, same_store_stats. cbv zeta.
  destruct (str_eq (handleEviction c) "lru"); repeat split.
Qed.

Lemma sets_loadHit_fifo c si w :
  str_eq (handleEviction c) "lru" = false -> sets (loadHit si w c) = sets c.
Proof. intros H. unfold loadHit. cbv zeta. now rewrite H. Qed.

(** C6.  A load in a reachable cache.  On a hit loadHits and loadCount grow
    by one and totalCycles by 1; under lru the hit slot's [access_ts] becomes
    the new totalCycles (as [uint32_t]) and nothing else in the table
    changes; under fifo the table is unchanged.  On a miss loadMisses and
    loadCount grow by one; [100 * numBytes / 4] cycles are added, then the
    flush cycles of the replacement slot if it is flushed, then 1; the
    replacement slot becomes valid with the new tag and stays clean, its
    [access_ts] (lru) or [load_ts] (fifo) is the new totalCycles, its other
    timestamp and all other slots are unchanged.  All sums are [int] sums. *)
Theorem load_access c a index tg hit :
  reachable c ->
  calculateIndex a c = Some (index, c) ->
  calculateTag a c = Some (tg, c) ->
  findBlock tg index c = Some (hit, c) ->
  exists c',
    cacheSimulator "l" a c = Some (tt, c') /\
    loadCount c' = Int32.add (loadCount c) 1 /\
    same_store_stats c c' /\ same_config c c' /\
    match hit with
    | Some (si, w) =>
        loadHits c' = Int32.add (loadHits c) 1 /\
        loadMisses c' = loadMisses c /\
        totalCycles c' = Int32.add (totalCycles c) 1 /\
        (handleEviction c = "lru"%string ->
         exists s, slot_at c si w = Some s /\
           table_upd c c' si w
             (set_access_ts (Int32.to_uint (totalCycles c')) s)) /\
        (handleEviction c = "fifo"%string -> sets c' = sets c)
    | None =>
        loadMisses c' = Int32.add (loadMisses c) 1 /\
        loadHits c' = loadHits c /\
        exists w s s',
          slot_at c (Z.to_nat index) w = Some s /\
          (exists c1, findReplacementBlock index c
                      = Some (Some (Z.to_nat index, w), c1)) /\
          totalCycles c'
          = Int32.add
              (let fetched :=
                 Int32.add (totalCycles c)
                   (Int32.wrap (100 * numBytes c / 4)) in
               if valid s && (dirty s && str_eq (handleWrite c) "write-back")
               then Int32.add fetched (Int32.wrap (100 * numBytes c / 4))
               else fetched) 1 /\
          table_upd c c' (Z.to_nat index) w s' /\
          valid s' = true /\ tag s' = tg /\ dirty s' = false /\
          (handleEviction c = "lru"%string ->
           access_ts s' = Int32.to_uint (totalCycles c') /\
           load_ts s' = load_ts s) /\
          (handleEviction c = "fifo"%string ->
           load_ts s' = Int32.to_uint (totalCycles c') /\
           access_ts s' = access_ts s)
    end.
Proof.
  intros Hreach Ei Et Ef. pose proof (reachable_wf c Hreach) as Hwf.
  rewrite (cacheSimulator_eq "l" a c index tg hit Ei Et Ef).
  change (Ascii.eqb "l" "l") with true. cbv iota.
  destruct hit as [[si w]|].
  - destruct (findBlock_hit _ _ _ _ _ _ Ef) as (-> & st & s & Hst & Hhit & Hs).
    exists (loadHit (Z.to_nat index) w c).
    destruct (stats_loadHit c (Z.to_nat index) w) as (H1 & H2 & H3 & H4 & H5).
    split; [now apply handleLoad_hit with s|].
    split; [exact H1|]. split; [exact H5|].
    split; [apply same_config_loadHit|].
    split; [exact H2|]. split; [exact H3|]. split; [exact H4|]. split.
    + intros Hlru. exists s. split; [exact Hs|].
      intros si' w'. rewrite (slot_at_loadHit c _ w s) by exact Hs.
      unfold loadHitSlot. apply str_eq_true in Hlru. rewrite Hlru.
      now rewrite H4.
    + intros Hfifo. apply sets_loadHit_fifo. apply str_eq_false.
      rewrite Hfifo. discriminate.
  - destruct (findBlock_miss _ _ _ _ Ef) as (Hidx & st & Hst & Hmiss).
    pose proof (wf_index c a index c Hwf Ei) as Hrange.
    destruct (wf_pick c index st Hwf Hrange Hst) as (w & s & Hpick & Hs & Hfind).
    exists (loadMiss (Z.to_nat index) w s tg c).
    destruct (stats_loadMiss c (Z.to_nat index) w s tg) as (H1 & H2 & H3 & H4).
    split; [now apply handleLoad_miss|].
    split; [exact H1|]. split; [exact H4|].
    split; [apply same_config_loadMiss|].
    split; [exact H2|]. split; [exact H3|].
    exists w, s, (loadMissSlot c tg s).
    split; [exact Hs|]. split; [eexists; now apply Hfind|].
    split.
    { rewrite totalCycles_loadMiss. unfold loadMissCycles, afterFlush, flushes.
      now rewrite (proj2 (blockCost_wrap c)). }
    split; [intros si' w'; now apply slot_at_loadMiss|].
    unfold loadMissSlot. rewrite totalCycles_loadMiss.
    split; [apply installed_valid|]. split; [apply installed_tag|].
    split; [rewrite installed_dirty; now apply evicted_clean with (Z.to_nat index) w|].
    destruct (evicted_fields s c) as (_ & Hl & Ha).
    unfold installed, set_ts_of. split.
    + intros Hlru. apply str_eq_true in Hlru. rewrite Hlru. simpl.
      split; [reflexivity|exact Hl].
    + intros Hfifo.
      assert (Hn : str_eq (handleEviction c) "lru" = false)
        by (apply str_eq_false; rewrite Hfifo; discriminate).
      rewrite Hn. simpl. split; [reflexivity|exact Ha].
Qed.

Lemma dirtyTinyCache_reachable : reachable dirtyTinyCache.
Proof. exists 1%nat. exact dirtyTinyCache_reach. Qed.

Lemma load_access_witness :
  exists c',
    cacheSimulator "l" 4 dirtyTinyCache = Some (tt, c') /\
    loadCount c' = Int32.add (loadCount dirtyTinyCache) 1 /\
    loadMisses c' = Int32.add (loadMisses dirtyTinyCache) 1.
Proof.
  assert (Ei : calculateIndex 4 dirtyTinyCache = Some (0, dirtyTinyCache))
    by (vm_compute; reflexivity).
  assert (Et : calculateTag 4 dirtyTinyCache = Some (1, dirtyTinyCache))
    by (vm_compute; reflexivity).
  assert (Ef : findBlock 1 0 dirtyTinyCache = Some (nullptr, dirtyTinyCache))
    by (vm_compute; reflexivity).
  destruct (load_access dirtyTinyCache 4 0 1 nullptr
              dirtyTinyCache_reachable Ei Et Ef)
    as (c' & E & Hc & _ & _ & Hm & _).
  exists c'. split; [exact E|]. split; [exact Hc|exact Hm].
Defined.

Lemma stats_storeHit c si w :
  storeCount (storeHit si w c) = Int32.add (storeCount c) 1 /\
  storeHits (storeHit si w c) = Int32.add (storeHits c) 1 /\
  storeMisses (storeHit si w c) = storeMisses c /\
  totalCycles (storeHit si w c)
  = Int32.add (totalCycles c)
      (if str_eq (handleWrite c) "write-back" then 1 else 100) /\
  same_load_stats c (storeHit si w c).
Proof.
  unfold storeHit, same_load_stats. cbv zeta.
  destruct (str_eq (handleWrite c) "write-back"); repeat split.
Qed.

(** C7.  A store that hits, in a reachable cache: storeHits and storeCount
    grow by one; the hit slot's [access_ts] becomes the totalCycles of before
    the access (as [uint32_t]) whatever the eviction policy, its tag, valid
    flag and [load_ts] and every other slot stay as they were; under
    write-back the slot becomes dirty and totalCycles grows by 1, under
    write-through totalCycles grows by 100 and the slot stays clean. *)
Theorem store_hit c op a index tg si w :
  reachable c ->
  op <> "l"%char ->
  calculateIndex a c = Some (index, c) ->
  calculateTag a c = Some (tg, c) ->
  findBlock tg index c = Some (Some (si, w), c) ->
  exists c' s s',
    cacheSimulator op a c = Some (tt, c') /\
    slot_at c si w = Some s /\ table_upd c c' si w s' /\
    storeHits c' = Int32.add (storeHits c) 1 /\
    storeCount c' = Int32.add (storeCount c) 1 /\
    storeMisses c' = storeMisses c /\
    same_load_stats c c' /\ same_config c c' /\
    access_ts s' = Int32.to_uint (totalCycles c) /\
    valid s' = valid s /\ tag s' = tag s /\ load_ts s' = load_ts s /\
    (handleWrite c = "write-back"%string ->
     dirty s' = true /\ totalCycles c' = Int32.add (totalCycles c) 1) /\
    (handleWrite c = "write-through"%string ->
     dirty s = false /\ dirty s' = false /\
     totalCycles c' = Int32.add (totalCycles c) 100).
Proof.
  intros Hreach Hop Ei Et Ef. pose proof (reachable_wf c Hreach) as Hwf.
  rewrite (cacheSimulator_eq op a c index tg _ Ei Et Ef).
  apply Ascii.eqb_neq in Hop. rewrite Hop.
  destruct (findBlock_hit _ _ _ _ _ _ Ef) as (-> & st & s & Hst & Hhit & Hs).
  exists (storeHit (Z.to_nat index) w c), s, (storeHitSlot c s).
  destruct (stats_storeHit c (Z.to_nat index) w) as (H1 & H2 & H3 & H4 & H5).
  split; [now apply handleStore_hit with s|].
  split; [exact Hs|].
  split; [intros si' w'; now apply slot_at_storeHit|].
  split; [exact H2|]. split; [exact H1|]. split; [exact H3|].
  split; [exact H5|]. split; [apply same_config_storeHit|].
  rewrite H4. unfold storeHitSlot. cbv zeta.
  destruct (str_eq (handleWrite c) "write-back") eqn:Ew; simpl;
    repeat (split; [reflexivity|]); split.
  - intros _. split; reflexivity.
  - intros Hwt. apply str_eq_true in Ew. rewrite Hwt in Ew. discriminate.
  - intros Hwb. apply str_eq_false in Ew. contradiction.
  - intros _.
    assert (Hd : dirty s = false).
    { destruct (dirty s) eqn:Ed; [|reflexivity].
      destruct (wf_clean c Hwf _ _ s Hs Ed) as [_ Hwb].
      unfold write_back in Hwb. congruence. }
    repeat split; exact Hd || reflexivity.
Qed.

Lemma store_hit_witness :
  exists c',
    cacheSimulator "s" 0 dirtyTinyCache = Some (tt, c') /\
    storeHits c' = Int32.add (storeHits dirtyTinyCache) 1 /\
    totalCycles c' = Int32.add (totalCycles dirtyTinyCache) 1.
Proof.
  assert (Hop : "s"%char <> "l"%char) by discriminate.
  assert (Ei : calculateIndex 0 dirtyTinyCache = Some (0, dirtyTinyCache))
    by (vm_compute; reflexivity).
  assert (Et : calculateTag 0 dirtyTinyCache = Some (0, dirtyTinyCache))
    by (vm_compute; reflexivity).
  assert (Ef : findBlock 0 0 dirtyTinyCache
               = Some (Some (0%nat, 0%nat), dirtyTinyCache))
    by (vm_compute; reflexivity).
  destruct (store_hit dirtyTinyCache "s" 0 0 0 0%nat 0%nat
              dirtyTinyCache_reachable Hop Ei Et Ef)
    as (c' & s & s' & E & _ & _ & Hh & _ & _ & _ & _ & _ & _ & _ & _ & Hwb & _).
  exists c'. split; [exact E|]. split; [exact Hh|].
  exact (proj2 (Hwb eq_refl)).
Defined.

(** An access changes the tag or the validity of a slot only by installing,
    on a miss, a tag that no valid slot of the set carries. *)
Lemma access_installs_fresh c op index tg st c' :
  wf c -> sets c !! Z.to_nat index = Some st ->
  access c op index tg st c' ->
  forall si w s s',
    slot_at c si w = Some s -> slot_at c' si w = Some s' ->
    valid s' = true -> (valid s = false \/ tag s <> tag s') ->
    forall w2 s2, slot_at c si w2 = Some s2 -> valid s2 = true ->
      tag s2 <> tag s'.
Proof.
  intros Hwf Hst Hacc si w s s' Hs Hs' Hv' Hnew.
  assert (Hat : forall w0, slot_at c (Z.to_nat index) w0 = slots st !! w0)
    by (intros w0; now apply slot_at_slots).
  assert (Hkeep : s' = s -> False).
  { intros ->. destruct Hnew as [Hv|Ht]; [congruence|now apply Ht]. }
  destruct Hacc as [w0 s0 Hop (H0 & Hv0 & Ht0 & _) | w0 s0 Hop Hmiss (H0 & _)
                   | w0 s0 Hop (H0 & Hv0 & Ht0 & _) | Hop Hmiss Hm
                   | w0 s0 Hop Hmiss Hm (H0 & _)];
    rewrite <- Hat in H0 || idtac.
  - exfalso. rewrite (slot_at_loadHit c _ w0 s0) in Hs' by exact H0.
    destruct (decide _) as [[<- <-]|]; [|apply Hkeep; congruence].
    rewrite H0 in Hs. injection Hs as <-. injection Hs' as <-.
    unfold loadHitSlot in Hnew.
    destruct (str_eq _ _); simpl in Hnew; destruct Hnew; congruence.
  - rewrite (slot_at_loadMiss c _ w0 s0) in Hs' by exact H0.
    destruct (decide _) as [[<- <-]|]; [|exfalso; apply Hkeep; congruence].
    injection Hs' as <-. unfold loadMissSlot. rewrite installed_tag.
    intros w2 s2 H2 V2. rewrite Hat in H2.
    now apply (misses_tag tg (slots st) w2 s2).
  - exfalso. rewrite (slot_at_storeHit c _ w0 s0) in Hs' by exact H0.
    destruct (decide _) as [[<- <-]|]; [|apply Hkeep; congruence].
    rewrite H0 in Hs. injection Hs as <-. injection Hs' as <-.
    unfold storeHitSlot in Hnew. cbv zeta in Hnew.
    destruct (str_eq _ _); simpl in Hnew; destruct Hnew; congruence.
  - exfalso. apply Hkeep.
    change (slot_at (storeMissNoAllocate c) si w) with (slot_at c si w) in Hs'.
    congruence.
  - rewrite (slot_at_storeMissAllocate c _ w0 s0) in Hs' by exact H0.
    destruct (decide _) as [[<- <-]|]; [|exfalso; apply Hkeep; congruence].
    injection Hs' as <-.
    assert (Etag : tag (storeMissSlot c tg s0) = tg).
    { unfold storeMissSlot. cbv zeta.
      destruct (str_eq (handleWrite c) "write-back");
        [change (tag (set_dirty true ?x)) with (tag x)|];
        now rewrite installed_tag. }
    rewrite Etag. intros w2 s2 H2 V2. rewrite Hat in H2.
    now apply (misses_tag tg (slots st) w2 s2).
Qed.

(** C8.  In every cache reachable from the initialized one, two valid slots
    of one set never carry the same tag; and an access that gives a slot a
    new tag, or makes an invalid slot valid, installs a tag that no valid
    slot of that set carried before the access. *)
Theorem tags_unique_in_set c :
  reachable c ->
  (forall si w1 w2 s1 s2,
     slot_at c si w1 = Some s1 -> slot_at c si w2 = Some s2 ->
     valid s1 = true -> valid s2 = true -> tag s1 = tag s2 -> w1 = w2) /\
  (forall op a c' si w s s',
     Int32.in_range a ->
     cacheSimulator op a c = Some (tt, c') ->
     slot_at c si w = Some s -> slot_at c' si w = Some s' ->
     valid s' = true -> (valid s = false \/ tag s <> tag s') ->
     forall w2 s2, slot_at c si w2 = Some s2 -> valid s2 = true ->
       tag s2 <> tag s').
Proof.
  intros Hreach. pose proof (reachable_wf c Hreach) as Hwf. split.
  - exact (wf_tags c Hwf).
  - intros op a c' si w s s' _ Hstep.
    destruct (wf_step c op a tt c' Hwf Hstep)
      as (index & tg & st & _ & _ & _ & Hst & Hacc).
    exact (access_installs_fresh c op index tg st c' Hwf Hst Hacc si w s s').
Qed.

Lemma twoWayCache_reachable : reachable twoWayCache.
Proof.
  exists 2%nat.
  assert (Hr : forall z, -10 <= z <= 10 -> Int32.in_range z)
    by (intros z Hz; unfold Int32.in_range, Int32.min_int, Int32.max_int;
        simpl; lia).
  apply (reach_step 1
           (mkCache 1 2 4 "write-allocate" "write-back" "lru"
              [mkSet [mkSlot 0 true false 0 101; emptySlot]] 1 0 0 1 0 0 101)
           "l" 4); [|apply Hr; lia|vm_compute; reflexivity].
  apply (reach_step 0
           (cacheSetUp newCache 1 2 4 "write-allocate" "write-back" "lru")
           "l" 0); [|apply Hr; lia|vm_compute; reflexivity].
  apply reach_init; try (apply Hr; lia). reflexivity.
Qed.

Lemma tags_unique_in_set_witness :
  reachable twoWayCache /\
  slot_at twoWayCache 0 1 = Some (mkSlot 1 true false 0 202) /\
  (1 = 1)%nat.
Proof.
  split; [exact twoWayCache_reachable|]. split; [reflexivity|].
  exact (proj1 (tags_unique_in_set twoWayCache twoWayCache_reachable)
           0%nat 1%nat 1%nat (mkSlot 1 true false 0 202)
           (mkSlot 1 true false 0 202)
           eq_refl eq_refl eq_refl eq_refl eq_refl).
Defined.

(** ** Statistics *)

Lemma add_small a b :
  0 <= a -> 0 <= b -> a + b <= Int32.max_int -> Int32.add a b = a + b.
Proof.
  intros Ha Hb Hs. apply Int32Facts.add_id.
  unfold Int32.in_range, Int32.min_int, Int32.max_int in *.
  change (2 ^ 31) with 2147483648 in *. lia.
Qed.

Lemma storeFetchCost_bound c :
  0 <= numBytes c <= 2 ^ 24 ->
  storeFetchCost c = 100 * (numBytes c / 4) /\
  0 <= storeFetchCost c <= 25 * numBytes c.
Proof.
  intros Hb. change (2 ^ 24) with 16777216 in Hb.
  pose proof (Z.mul_div_le (numBytes c) 4 ltac:(lia)) as Hq.
  assert (Hq0 : 0 <= numBytes c / 4) by (apply Z.div_pos; lia).
  assert (E : storeFetchCost c = 100 * (numBytes c / 4)).
  { unfold storeFetchCost, Int32.mul, Int32.div.
    rewrite Z.quot_div_nonneg by lia.
    rewrite (Int32Facts.wrap_id (numBytes c / 4))
      by (unfold Int32.in_range, Int32.min_int, Int32.max_int;
          change (2 ^ 31) with 2147483648; lia).
    apply Int32Facts.wrap_id.
    unfold Int32.in_range, Int32.min_int, Int32.max_int;
      change (2 ^ 31) with 2147483648; lia. }
  rewrite E. split; [reflexivity|lia].
Qed.

Lemma afterFlush_bound s c t :
  0 <= numBytes c <= 2 ^ 24 -> 0 <= t ->
  t + 25 * numBytes c <= Int32.max_int ->
  t <= afterFlush s c t <= t + 25 * numBytes c.
Proof.
  intros Hb Ht Hs. unfold afterFlush.
  destruct (blockCost_exact c Hb) as [_ E].
  destruct (valid s && flushes s c); [|lia].
  rewrite E, add_small by lia. lia.
Qed.

Lemma stats_storeMissAllocate c si w s tg :
  storeCount (storeMissAllocate si w s tg c) = Int32.add (storeCount c) 1 /\
  storeMisses (storeMissAllocate si w s tg c) = Int32.add (storeMisses c) 1 /\
  storeHits (storeMissAllocate si w s tg c) = storeHits c /\
  totalCycles (storeMissAllocate si w s tg c) = storeMissCycles c s /\
  same_load_stats c (storeMissAllocate si w s tg c).
Proof.
  unfold storeMissAllocate, storeMissCycles, same_load_stats. cbv zeta.
  assert (E : totalCycles
                (bump totalCycles set_totalCycles
                   (evict si w s
                      (addCycles
                         (storeFetchCost
                            (bump storeMisses set_storeMisses
                               (bump storeCount set_storeCount c)))
                         (bump storeMisses set_storeMisses
                            (bump storeCount set_storeCount c)))))
              = Int32.add
                  (afterFlush s c
                     (Int32.add (totalCycles c) (storeFetchCost c))) 1).
  { change (totalCycles (bump totalCycles set_totalCycles ?x))
      with (Int32.add (totalCycles x) 1).
    now rewrite totalCycles_evict. }
  destruct (str_eq (handleWrite c) "write-back");
    [change (totalCycles (upd_slot ?a ?b ?f ?x)) with (totalCycles x)|];
    change (totalCycles (upd_slot ?a ?b ?f ?x)) with (totalCycles x);
    rewrite E; simpl;
    unfold evict; destruct (valid s && flushes s _); repeat split.
Qed.

(** Without overflow every access moves every statistic up, by at most one
    for the counters and by at most [accessBound] for the cycles. *)
Lemma access_stats c op index tg st c' :
  access c op index tg st c' ->
  4 <= numBytes c <= 2 ^ 24 ->
  0 <= loadCount c < Int32.max_int -> 0 <= storeCount c < Int32.max_int ->
  0 <= loadHits c < Int32.max_int -> 0 <= loadMisses c < Int32.max_int ->
  0 <= storeHits c < Int32.max_int -> 0 <= storeMisses c < Int32.max_int ->
  0 <= totalCycles c -> totalCycles c + accessBound c <= Int32.max_int ->
  stats_step c c'.
Proof.
  intros Hacc Hb Hlc Hsc Hlh Hlm Hsh Hsm Ht Hroom.
  unfold accessBound in *. unfold stats_step, accessBound.
  assert (Hb0 : 0 <= numBytes c <= 2 ^ 24) by lia.
  destruct (blockCost_exact c Hb0) as [_ Ecost].
  destruct (storeFetchCost_bound c Hb0) as [_ Hfetch].
  destruct Hacc as [w s Hop _ | w s Hop _ _ | w s Hop _ | Hop _ _
                   | w s Hop _ _ _].
  - destruct (stats_loadHit c (Z.to_nat index) w)
      as (-> & -> & -> & -> & -> & -> & ->).
    rewrite !add_small by lia. lia.
  - destruct (stats_loadMiss c (Z.to_nat index) w s tg)
      as (-> & -> & -> & -> & -> & ->).
    rewrite totalCycles_loadMiss. unfold loadMissCycles.
    rewrite (add_small (totalCycles c)), Ecost by lia.
    pose proof (afterFlush_bound s c (totalCycles c + 25 * numBytes c)
                  Hb0 ltac:(lia) ltac:(lia)) as Hf.
    rewrite !add_small by lia. lia.
  - destruct (stats_storeHit c (Z.to_nat index) w)
      as (-> & -> & -> & -> & -> & -> & ->).
    destruct (str_eq (handleWrite c) "write-back");
      rewrite !add_small by lia; lia.
  - unfold storeMissNoAllocate, addCycles, bump. simpl.
    rewrite !add_small by lia. lia.
  - destruct (stats_storeMissAllocate c (Z.to_nat index) w s tg)
      as (-> & -> & -> & -> & -> & -> & ->).
    unfold storeMissCycles.
    rewrite (add_small (totalCycles c)) by lia.
    pose proof (afterFlush_bound s c (totalCycles c + storeFetchCost c)
                  Hb0 ltac:(lia) ltac:(lia)) as Hf.
    rewrite !add_small by lia. lia.
Qed.

Lemma access_same_config c op index tg st c' :
  access c op index tg st c' -> same_config c c'.
Proof.
  intros [w s _ _ | w s _ _ _ | w s _ _ | _ _ _ | w s _ _ _ _].
  - apply same_config_loadHit.
  - apply same_config_loadMiss.
  - apply same_config_storeHit.
  - apply same_config_storeMissNoAllocate.
  - apply same_config_storeMissAllocate.
Qed.

Lemma wf_bytes c : wf c -> 4 <= numBytes c.
Proof. intros Hwf. now destruct (wf_valid_geometry c Hwf) as (_ & _ & _ & _ & ?). Qed.

(** As long as [n] accesses cannot overflow the cycle count, the statistics
    of a cache reached in [n] accesses are within their bounds. *)
Lemma reach_in_stats n c :
  reach_in n c ->
  numBytes c <= 2 ^ 24 ->
  Z.of_nat n * accessBound c <= Int32.max_int ->
  stats_bounded (Z.of_nat n) c.
Proof.
  induction 1 as [ns nb nby hm hw he Hs Hb Hy Hv | n c op a c' Hreach IH Ha Hstep].
  - intros _ _. unfold stats_bounded, accessBound. simpl. lia.
  - intros Hbytes Hroom.
    pose proof (reach_in_wf n c Hreach) as Hwf.
    destruct (wf_step c op a tt c' Hwf Hstep)
      as (index & tg & st & _ & _ & _ & Hst & Hacc).
    destruct (access_same_config _ _ _ _ _ _ Hacc) as (_ & _ & Eb & _).
    pose proof (wf_bytes c Hwf) as H4.
    unfold accessBound in *. rewrite Eb in *.
    assert (Hn : Z.of_nat (S n) = Z.of_nat n + 1) by lia.
    rewrite Hn in *.
    assert (Hroom' : Z.of_nat n * (50 * numBytes c + 1) + (50 * numBytes c + 1)
                     <= Int32.max_int) by lia.
    assert (Hnn : Z.of_nat n <= Z.of_nat n * (50 * numBytes c + 1)) by nia.
    specialize (IH Hbytes ltac:(lia)).
    destruct IH as (B1 & B2 & B3 & B4 & B5 & B6 & B7).
    unfold accessBound in B7.
    assert (S1 : stats_step c c').
    { apply (access_stats c op index tg st c' Hacc); unfold accessBound; lia. }
    destruct S1 as (S1 & S2 & S3 & S4 & S5 & S6 & S7).
    unfold accessBound in S7. unfold stats_bounded, accessBound.
    rewrite Eb. repeat split; lia.
Qed.

(** C9 as stated fails on the initialized cache of one 2^27-byte block: the
    store to address 0 misses and adds [100 * (134217728 / 4)] cycles, which
    does not fit an [int]; totalCycles goes from 0 to -939524095. *)
Lemma stats_overflow_counterexample :
  reachable hugeBlockCache /\
  totalCycles hugeBlockCache = 0 /\
  exists c',
    cacheSimulator "s" (Int32.wrap 0) hugeBlockCache = Some (tt, c') /\
    totalCycles c' = -939524095 /\
    ~ (0 <= totalCycles c' /\ totalCycles hugeBlockCache <= totalCycles c').
Proof.
  split.
  { exists 0%nat. apply reach_init;
      try (unfold Int32.in_range, Int32.min_int, Int32.max_int; simpl; lia).
    vm_compute. reflexivity. }
  split; [reflexivity|].
  eexists. split; [vm_compute; reflexivity|].
  split; [reflexivity|]. simpl. lia.
Qed.

Lemma flushedVictim_eq c index w s :
  slot_at c (Z.to_nat index) w = Some s ->
  findReplacementBlock index c
  = Some (Some (Z.to_nat index, w), evict (Z.to_nat index) w s c) ->
  flushedVictim c index = valid s && flushes s c.
Proof. intros Hs Hfind. unfold flushedVictim. now rewrite Hfind, Hs. Qed.

Ltac fit_inv H :=
  repeat (apply Forall_cons_1 in H;
          let F := fresh "F" in destruct H as [F H]).

(** The cycle count after the replacement slot was handed out and the
    install counted, when the values on the way fit. *)
Lemma afterFlush_fits c index w s t :
  0 <= numBytes c ->
  slot_at c (Z.to_nat index) w = Some s ->
  findReplacementBlock index c
  = Some (Some (Z.to_nat index, w), evict (Z.to_nat index) w s c) ->
  0 <= t ->
  Forall Int32.in_range
    (if flushedVictim c index
     then [100 * numBytes c / 4; t + 100 * numBytes c / 4;
           t + 100 * numBytes c / 4 + 1]
     else [t + 1]) ->
  t <= Int32.add (afterFlush s c t) 1.
Proof.
  intros Hb Hs Hfind Ht Hfit.
  rewrite (flushedVictim_eq c index w s Hs Hfind) in Hfit.
  unfold afterFlush. destruct (valid s && flushes s c); fit_inv Hfit.
  - rewrite (proj2 (blockCost_wrap c)), (Int32Facts.wrap_id _ F).
    rewrite (Int32Facts.add_id _ _ F0), (Int32Facts.add_id _ _ F1).
    pose proof (Z.div_pos (100 * numBytes c) 4 ltac:(lia) ltac:(lia)). lia.
  - rewrite (Int32Facts.add_id _ _ F). lia.
Qed.

(** An access in which no statistic overflows completes and moves no
    statistic down. *)
Lemma fits_stats c op a :
  wf c -> stats_nonneg c -> fits c op a ->
  exists c', cacheSimulator op a c = Some (tt, c') /\ stats_grow c c'.
Proof.
  intros Hwf (N1 & N2 & N3 & N4 & N5 & N6 & N7)
         (index & tg & hit & Ei & Et & Ef & Hfit).
  pose proof (wf_bytes c Hwf) as Hb.
  rewrite (cacheSimulator_eq op a c index tg hit Ei Et Ef).
  unfold accessValues in Hfit. cbv zeta in Hfit. unfold stats_grow.
  destruct (Ascii.eqb op "l"); destruct hit as [[si w]|].
  - destruct (findBlock_hit _ _ _ _ _ _ Ef) as (-> & st & s & Hst & Hhit & Hs).
    exists (loadHit (Z.to_nat index) w c).
    split; [now apply handleLoad_hit with s|].
    destruct (stats_loadHit c (Z.to_nat index) w)
      as (-> & -> & -> & -> & -> & -> & ->).
    fit_inv Hfit. rewrite !Int32Facts.add_id by assumption. lia.
  - destruct (findBlock_miss _ _ _ _ Ef) as (Hidx & st & Hst & Hmiss).
    pose proof (wf_index c a index c Hwf Ei) as Hrange.
    destruct (wf_pick c index st Hwf Hrange Hst)
      as (w & s & Hpick & Hs & Hfind).
    exists (loadMiss (Z.to_nat index) w s tg c).
    split; [now apply handleLoad_miss|].
    destruct (stats_loadMiss c (Z.to_nat index) w s tg)
      as (-> & -> & -> & -> & -> & ->).
    rewrite totalCycles_loadMiss. unfold loadMissCycles.
    apply Forall_cons_1 in Hfit as [F1 Hfit].
    apply Forall_cons_1 in Hfit as [F2 Hfit].
    apply Forall_cons_1 in Hfit as [F3 Hfit].
    apply Forall_cons_1 in Hfit as [F4 Hfit].
    rewrite (proj2 (blockCost_wrap c)), (Int32Facts.wrap_id _ F3).
    rewrite (Int32Facts.add_id _ _ F4).
    pose proof (Z.div_pos (100 * numBytes c) 4 ltac:(lia) ltac:(lia)) as Hq.
    pose proof (afterFlush_fits c index w s
                  (totalCycles c + 100 * numBytes c / 4) ltac:(lia) Hs
                  (Hfind c eq_refl eq_refl) ltac:(lia) Hfit) as Hf.
    rewrite !Int32Facts.add_id by assumption. lia.
  - destruct (findBlock_hit _ _ _ _ _ _ Ef) as (-> & st & s & Hst & Hhit & Hs).
    exists (storeHit (Z.to_nat index) w c).
    split; [now apply handleStore_hit with s|].
    destruct (stats_storeHit c (Z.to_nat index) w)
      as (-> & -> & -> & -> & -> & -> & ->).
    fit_inv Hfit. rewrite !Int32Facts.add_id by assumption.
    destruct (str_eq (handleWrite c) "write-back"); lia.
  - apply Forall_cons_1 in Hfit as [F1 Hfit].
    apply Forall_cons_1 in Hfit as [F2 Hfit].
    destruct (str_eq (handleMiss c) "no-write-allocate") eqn:Em.
    + exists (storeMissNoAllocate c).
      split; [now apply handleStore_miss_no_allocate|].
      fit_inv Hfit. unfold storeMissNoAllocate, addCycles, bump. simpl.
      rewrite !Int32Facts.add_id by assumption. lia.
    + destruct (findBlock_miss _ _ _ _ Ef) as (Hidx & st & Hst & Hmiss).
      pose proof (wf_index c a index c Hwf Ei) as Hrange.
      destruct (wf_pick c index st Hwf Hrange Hst)
        as (w & s & Hpick & Hs & Hfind).
      exists (storeMissAllocate (Z.to_nat index) w s tg c).
      split; [now apply handleStore_miss_allocate|].
      destruct (stats_storeMissAllocate c (Z.to_nat index) w s tg)
        as (-> & -> & -> & -> & -> & -> & ->).
      unfold storeMissCycles.
      apply Forall_cons_1 in Hfit as [F3 Hfit].
      apply Forall_cons_1 in Hfit as [F4 Hfit].
      assert (Hq : 0 <= numBytes c / 4) by (apply Z.div_pos; lia).
      assert (Efetch : storeFetchCost c = 100 * (numBytes c / 4)).
      { unfold storeFetchCost, Int32.mul, Int32.div.
        rewrite Z.quot_div_nonneg by lia.
        rewrite (Int32Facts.wrap_id (numBytes c / 4)).
        - now apply Int32Facts.wrap_id.
        - unfold Int32.in_range, Int32.min_int, Int32.max_int in *.
          change (2 ^ 31) with 2147483648 in *. lia. }
      rewrite Efetch, (Int32Facts.add_id _ _ F4).
      pose proof (afterFlush_fits c index w s
                    (totalCycles c + 100 * (numBytes c / 4)) ltac:(lia) Hs
                    (Hfind c eq_refl eq_refl) ltac:(lia) Hfit) as Hf.
      rewrite !Int32Facts.add_id by assumption. lia.
Qed.

Lemma reach_fit_reach c : reach_fit c -> reachable c.
Proof.
  induction 1 as [ns nb nby hm hw he Hs Hb Hy Hv | c op a c' _ IH Ha _ Hstep].
  - exists 0%nat. now apply reach_init.
  - destruct IH as (n & Hn). exists (S n). now apply reach_step with c op a.
Qed.

Lemma reach_fit_nonneg c : reach_fit c -> stats_nonneg c.
Proof.
  induction 1 as [ns nb nby hm hw he Hs Hb Hy Hv
                 | c op a c' Hreach IH Ha Hfit Hstep].
  - unfold stats_nonneg. simpl. lia.
  - pose proof (reachable_wf c (reach_fit_reach c Hreach)) as Hwf.
    destruct (fits_stats c op a Hwf IH Hfit) as (c'' & E & Hgrow).
    rewrite Hstep in E. injection E as <-.
    unfold stats_nonneg, stats_grow in *. lia.
Qed.

(** C9, as amended.  The statistics are [int]s and wrap around when a value
    does not fit.  For every cache reached from the initialized one by
    accesses in none of which a statistic overflowed, and every access in
    which none overflows (the address decodes, and each counter the access
    increments, each charge it adds and totalCycles after each addition is
    an [int]), the access completes, each of the seven statistics is
    non-negative before it and none is smaller after it. *)
Theorem stats_monotone c op a :
  reach_fit c ->
  fits c op a ->
  exists c',
    cacheSimulator op a c = Some (tt, c') /\
    (0 <= loadCount c <= loadCount c') /\
    (0 <= storeCount c <= storeCount c') /\
    (0 <= loadHits c <= loadHits c') /\
    (0 <= loadMisses c <= loadMisses c') /\
    (0 <= storeHits c <= storeHits c') /\
    (0 <= storeMisses c <= storeMisses c') /\
    (0 <= totalCycles c <= totalCycles c').
Proof.
  intros Hreach Hfit.
  pose proof (reachable_wf c (reach_fit_reach c Hreach)) as Hwf.
  pose proof (reach_fit_nonneg c Hreach) as Hnn.
  destruct (fits_stats c op a Hwf Hnn Hfit) as (c' & E & Hgrow).
  exists c'. split; [exact E|].
  unfold stats_nonneg, stats_grow in *. lia.
Qed.

Lemma stats_monotone_witness :
  exists c',
    cacheSimulator "l" 4 dirtyTinyCache = Some (tt, c') /\
    0 <= totalCycles dirtyTinyCache <= totalCycles c' /\
    0 <= loadMisses dirtyTinyCache <= loadMisses c'.
Proof.
  assert (Hfit0 : fits (tinyCache "write-allocate" "write-back" "lru") "s" 0).
  { exists 0, 0, nullptr.
    split; [vm_compute; reflexivity|]. split; [vm_compute; reflexivity|].
    split; [vm_compute; reflexivity|].
    vm_compute accessValues.
    repeat (apply Forall_cons_2 || apply Forall_nil_2);
      unfold Int32.in_range, Int32.min_int, Int32.max_int;
      change (2 ^ 31) with 2147483648; lia. }
  assert (Hreach : reach_fit dirtyTinyCache).
  { apply (fit_step (tinyCache "write-allocate" "write-back" "lru") "s" 0).
    - apply fit_init; try (vm_compute; reflexivity);
        unfold Int32.in_range, Int32.min_int, Int32.max_int;
        change (2 ^ 31) with 2147483648; lia.
    - unfold Int32.in_range, Int32.min_int, Int32.max_int;
        change (2 ^ 31) with 2147483648; lia.
    - exact Hfit0.
    - vm_compute. reflexivity. }
  assert (Hfit : fits dirtyTinyCache "l" 4).
  { exists 0, 1, nullptr.
    split; [vm_compute; reflexivity|]. split; [vm_compute; reflexivity|].
    split; [vm_compute; reflexivity|].
    vm_compute accessValues.
    repeat (apply Forall_cons_2 || apply Forall_nil_2);
      unfold Int32.in_range, Int32.min_int, Int32.max_int;
      change (2 ^ 31) with 2147483648; lia. }
  destruct (stats_monotone dirtyTinyCache "l" 4 Hreach Hfit)
    as (c' & E & _ & _ & _ & Hm & _ & _ & Ht).
  exists c'. split; [exact E|]. split; [exact Ht|exact Hm].
Defined.

(** * Further properties of the simulator *)

(** ** Validation and set-up *)

(** X1.  On an [int], [checkPowTwo] holds exactly of 1, 2, 4, ..., 2^30;
    in particular it rejects zero and every negative number. *)
Theorem checkPowTwo_exact x :
  Int32.in_range x ->
  (checkPowTwo x = true <-> exists k, 0 <= k <= 30 /\ x = 2 ^ k) /\
  (x <= 0 -> checkPowTwo x = false).
Proof.
  intros Hr. split; [now apply checkPowTwo_pow2|].
  intros Hx. unfold checkPowTwo. destruct (Z.ltb_spec x 1); [reflexivity|lia].
Qed.

Lemma checkPowTwo_exact_witness :
  checkPowTwo 8 = true <-> exists k, 0 <= k <= 30 /\ 8 = 2 ^ k.
Proof.
  apply (checkPowTwo_exact 8).
  unfold Int32.in_range, Int32.min_int, Int32.max_int. simpl. lia.
Defined.

(** X2.  [validateArguments] returns 0 or 1.  On [int] arguments it returns
    0 exactly when numSets and numBlocks are powers of two, blockSize is a
    power of two not below 4, the miss policy is "write-allocate" or
    "no-write-allocate", the eviction policy is "lru" or "fifo", and the
    write policy is "write-through", or "write-back" together with
    "write-allocate": write-back with no-write-allocate is refused. *)
Theorem validateArguments_accepts ns nb nby hm hw he :
  Int32.in_range ns -> Int32.in_range nb -> Int32.in_range nby ->
  (validateArguments ns nb nby hm hw he = 0 \/
   validateArguments ns nb nby hm hw he = 1) /\
  (validateArguments ns nb nby hm hw he = 0 <->
   (exists k, 0 <= k <= 30 /\ ns = 2 ^ k) /\
   (exists k, 0 <= k <= 30 /\ nb = 2 ^ k) /\
   (exists k, 2 <= k <= 30 /\ nby = 2 ^ k) /\
   (hm = "write-allocate" \/ hm = "no-write-allocate")%string /\
   (hw = "write-through" \/ (hw = "write-back" /\ hm = "write-allocate"))%string /\
   (he = "lru" \/ he = "fifo")%string).
Proof.
  intros Hs Hb Hy. split.
  - unfold validateArguments.
    repeat match goal with
           | |- context [if ?b then _ else _] => destruct b
           end; auto.
  - split.
    + intros Hv.
      destruct (validateArguments_ok _ _ _ _ _ _ Hv)
        as ((_ & Ps) & (_ & Pb) & (H4 & Py) & Hm & Hw & He).
      apply checkPowTwo_pow2 in Ps; [|assumption].
      apply checkPowTwo_pow2 in Pb; [|assumption].
      apply checkPowTwo_pow2 in Py as (k & Hk & ->); [|assumption].
      split; [exact Ps|]. split; [exact Pb|]. split.
      { exists k. split; [|reflexivity]. split; [|lia].
        destruct (Z.le_gt_cases 2 k) as [|Hlt]; [assumption|exfalso].
        assert (2 ^ k <= 2 ^ 1) by (apply Z.pow_le_mono_r; lia).
        change (2 ^ 1) with 2 in *. lia. }
      split; [destruct Hm as [Hm|Hm]; apply str_eq_true in Hm; auto|].
      split.
      * destruct Hw as [Hw|[Hw Hn]]; [apply str_eq_true in Hw; auto|].
        right. split; [now apply str_eq_true|].
        destruct Hm as [Hm|Hm]; [now apply str_eq_true|congruence].
      * destruct He as [He|He]; apply str_eq_true in He; auto.
    + intros ((ks & Hks & ->) & (kb & Hkb & ->) & (ky & Hky & ->)
              & Hm & Hw & He).
      assert (Cs : checkPowTwo (2 ^ ks) = true)
        by (apply checkPowTwo_pow2; [assumption|now exists ks]).
      assert (Cb : checkPowTwo (2 ^ kb) = true)
        by (apply checkPowTwo_pow2; [assumption|now exists kb]).
      assert (Cy : checkPowTwo (2 ^ ky) = true)
        by (apply checkPowTwo_pow2; [assumption|exists ky; split; [lia|reflexivity]]).
      pose proof (Int32Facts.pow2_range ks Hks) as [_ H1s].
      pose proof (Int32Facts.pow2_range kb Hkb) as [_ H1b].
      assert (4 <= 2 ^ ky)
        by (change 4 with (2 ^ 2); apply Z.pow_le_mono_r; lia).
      unfold validateArguments. rewrite Cs, Cb, Cy.
      destruct (Z.ltb_spec (2 ^ ks) 1); [lia|].
      destruct (Z.ltb_spec (2 ^ kb) 1); [lia|].
      destruct (Z.ltb_spec (2 ^ ky) 4); [lia|]. simpl.
      destruct Hm as [-> | ->]; destruct He as [-> | ->];
        destruct Hw as [-> | [-> Hwa]]; try discriminate Hwa; reflexivity.
Qed.

Lemma validateArguments_accepts_witness :
  validateArguments 256 4 16 "write-allocate" "write-back" "lru" = 0 /\
  validateArguments 256 4 16 "no-write-allocate" "write-back" "lru" = 1.
Proof.
  assert (Hr : forall z, 0 <= z <= 256 -> Int32.in_range z)
    by (intros z Hz; unfold Int32.in_range, Int32.min_int, Int32.max_int;
        simpl; lia).
  split.
  - apply (proj2 (validateArguments_accepts 256 4 16 "write-allocate"
                    "write-back" "lru" (Hr 256 ltac:(lia)) (Hr 4 ltac:(lia))
                    (Hr 16 ltac:(lia)))).
    split; [exists 8; split; [lia|reflexivity]|].
    split; [exists 2; split; [lia|reflexivity]|].
    split; [exists 4; split; [lia|reflexivity]|].
    split; [now left|]. split; [right; now split|now left].
  - destruct (proj1 (validateArguments_accepts 256 4 16 "no-write-allocate"
                       "write-back" "lru" (Hr 256 ltac:(lia)) (Hr 4 ltac:(lia))
                       (Hr 16 ltac:(lia)))) as [H0|H1]; [|exact H1].
    vm_compute in H0. discriminate H0.
Defined.

(** X3.  [cacheSetUp] on the fresh cache stores the geometry and the
    policies, leaves the seven statistics at 0, and builds the table: a slot
    exists at (set, way) exactly for set < numSets and way < numBlocks, and
    every slot is invalid and clean with tag 0 and both timestamps 0.  For a
    non-positive numSets or numBlocks the table has no slot. *)
Theorem cacheSetUp_initial ns nb nby hm hw he :
  let c := cacheSetUp newCache ns nb nby hm hw he in
  numSets c = ns /\ numBlocks c = nb /\ numBytes c = nby /\
  handleMiss c = hm /\ handleWrite c = hw /\ handleEviction c = he /\
  loadCount c = 0 /\ storeCount c = 0 /\ loadHits c = 0 /\ loadMisses c = 0 /\
  storeHits c = 0 /\ storeMisses c = 0 /\ totalCycles c = 0 /\
  length (sets c) = Z.to_nat ns /\
  (forall si st, sets c !! si = Some st -> length (slots st) = Z.to_nat nb) /\
  (forall si w s,
     slot_at c si w = Some s <->
     (si < Z.to_nat ns)%nat /\ (w < Z.to_nat nb)%nat /\
     s = mkSlot 0 false false 0 0).
Proof.
  cbv zeta. repeat (split; [reflexivity|]).
  split; [simpl; now rewrite length_replicate|]. split.
  - intros si st. simpl. intros H.
    apply lookup_replicate_1 in H as [-> _]. simpl.
    now rewrite length_replicate.
  - intros si w s. rewrite slot_at_cacheSetUp.
    destruct (decide _) as [[H1 H2]|Hn]; split.
    + intros [= <-]. now repeat split.
    + intros (_ & _ & ->). reflexivity.
    + discriminate.
    + intros (H1 & H2 & _). exfalso. apply Hn. now split.
Qed.

(** ** Lookup and replacement at the bounds *)

Lemma set_ref_None c index :
  ~ (0 <= index < Z.of_nat (length (sets c))) -> set_ref index c = None.
Proof.
  intros H. unfold set_ref.
  destruct (Z.leb_spec 0 index); [|reflexivity].
  destruct (Z.ltb_spec index (Z.of_nat (length (sets c)))); [lia|reflexivity].
Qed.

(** X4.  [findBlock] never writes the cache.  For an index inside
    [cache.sets] it returns a pointer to the first valid slot of that set
    carrying the tag, or [nullptr] when no valid slot of the set carries it;
    invalid slots are skipped whatever their tag.  For an index outside
    [cache.sets] (negative, or numSets and above) the lookup is undefined. *)
Theorem findBlock_contract c tg index :
  (0 <= index < Z.of_nat (length (sets c)) ->
   exists hit,
     findBlock tg index c = Some (hit, c) /\
     match hit with
     | Some (si, w) =>
         si = Z.to_nat index /\
         exists s, slot_at c si w = Some s /\ valid s = true /\ tag s = tg /\
           forall j sj, (j < w)%nat -> slot_at c si j = Some sj ->
             valid sj = false \/ tag sj <> tg
     | None =>
         forall w s, slot_at c (Z.to_nat index) w = Some s ->
           valid s = false \/ tag s <> tg
     end) /\
  (~ (0 <= index < Z.of_nat (length (sets c))) ->
   findBlock tg index c = None).
Proof.
  split.
  - intros Hidx.
    destruct (lookup_lt_is_Some_2 (sets c) (Z.to_nat index) ltac:(lia))
      as [st Hst].
    assert (Hsplit : forall s, valid s && (tag s =? tg) = false ->
              valid s = false \/ tag s <> tg).
    { intros s H. apply andb_false_iff in H as [H|H]; [now left|right].
      now apply Z.eqb_neq. }
    exists (findBlock_scan tg (Z.to_nat index) 0 (slots st)).
    split; [apply findBlock_eq; [lia|exact Hst]|].
    destruct (findBlock_scan tg (Z.to_nat index) 0 (slots st))
      as [[si w]|] eqn:E.
    + apply findBlock_scan_hits in E as (w' & s & [= -> ->] & Hs & Hv & Ht & Hb).
      split; [reflexivity|]. exists s.
      rewrite (slot_at_slots c _ _ st Hst).
      repeat split; try assumption.
      intros j sj Hj. rewrite (slot_at_slots c _ _ st Hst). intros Hsj.
      apply Hsplit. now apply (Hb j sj).
    + intros w s. rewrite (slot_at_slots c _ _ st Hst). intros Hs.
      apply Hsplit. exact (findBlock_scan_None _ _ _ _ E w s Hs).
  - intros Hout. unfold findBlock, bind. now rewrite set_ref_None.
Qed.

Lemma findReplacementBlock_empty c index st :
  0 <= index < Z.of_nat (length (sets c)) ->
  sets c !! Z.to_nat index = Some st -> slots st = [] ->
  findReplacementBlock index c = None.
Proof.
  intros Hidx Hst Hnil. unfold findReplacementBlock. unfold bind at 1.
  rewrite set_ref_eq by lia. unfold bind at 1.
  rewrite (slots_of_eq c _ st Hst), Hnil.
  change (findInvalid_scan (Z.to_nat index) 0 []) with nullptr.
  unfold nullptr. unfold bind at 1. unfold gets.
  destruct (str_eq (handleEviction c) "lru").
  - unfold findLRUBlock, bind.
    now rewrite (slots_of_eq c _ st Hst), Hnil.
  - unfold findFIFOBlock, bind.
    now rewrite (slots_of_eq c _ st Hst), Hnil.
Qed.

(** X5.  [findReplacementBlock] yields a result exactly when the index lies
    inside [cache.sets] and the set there has at least one slot; on an index
    out of range, or on a set without slots (where it would read
    [slots[0]]), it is undefined. *)
Theorem findReplacementBlock_defined c index :
  is_Some (findReplacementBlock index c) <->
  0 <= index < Z.of_nat (length (sets c)) /\
  exists st, sets c !! Z.to_nat index = Some st /\ slots st <> [].
Proof.
  split.
  - intros [r Hr].
    destruct (Z_le_dec 0 index) as [H0|H0];
      [destruct (Z_lt_dec index (Z.of_nat (length (sets c)))) as [H1|H1]|].
    + split; [lia|].
      destruct (lookup_lt_is_Some_2 (sets c) (Z.to_nat index) ltac:(lia))
        as [st Hst].
      exists st. split; [exact Hst|]. intros Hnil.
      rewrite (findReplacementBlock_empty c index st) in Hr
        by (assumption || lia).
      discriminate Hr.
    + exfalso. unfold findReplacementBlock, bind in Hr.
      rewrite set_ref_None in Hr by lia. discriminate.
    + exfalso. unfold findReplacementBlock, bind in Hr.
      rewrite set_ref_None in Hr by lia. discriminate.
  - intros (Hidx & st & Hst & Hne).
    destruct (findReplacementBlock_spec (handleEviction c) index st
                ltac:(lia) Hne) as (w & s & _ & Hfind).
    rewrite (Hfind c Hst eq_refl). eexists; reflexivity.
Qed.

(** ** Addresses of one block *)

Lemma shiftr_split q ks :
  0 <= ks -> q = Z.shiftr q ks * 2 ^ ks + Z.land q (2 ^ ks - 1).
Proof.
  intros Hks. rewrite Z.shiftr_div_pow2 by lia.
  replace (2 ^ ks - 1) with (Z.ones ks) by (rewrite Z.ones_equiv; lia).
  rewrite Z.land_ones by lia.
  assert (0 < 2 ^ ks) by (apply Z.pow_pos_nonneg; lia).
  rewrite Z.mul_comm. apply Z.div_mod. lia.
Qed.

(** X6.  Index and tag together name the block: under a valid geometry whose
    offset and index bits stay below 32, two [int] addresses decode to the
    same index and the same tag exactly when they agree above the offset
    bits, that is when they lie in the same block. *)
Theorem decoder_same_block c a b :
  valid_geometry c ->
  numSets c * numBytes c <= 2 ^ 31 ->
  (calculateIndex a c = calculateIndex b c /\
   calculateTag a c = calculateTag b c) <->
  Z.shiftr a (Z.log2 (numBytes c)) = Z.shiftr b (Z.log2 (numBytes c)).
Proof.
  intros Hg Hprod.
  destruct (valid_geometry_pow2 c Hg) as (ks & kb & Hks & Hkb & Es & Eb).
  assert (Hsum : ks + kb <= 31).
  { rewrite Es, Eb, <- Z.pow_add_r in Hprod by lia.
    apply Z.pow_le_mono_r_iff in Hprod; lia. }
  rewrite !(calculateIndex_eq c _ ks kb) by (assumption || lia).
  rewrite !(calculateTag_eq c _ ks kb) by (assumption || lia).
  rewrite Eb, Z.log2_pow2 by lia.
  rewrite <- !(Z.shiftr_shiftr _ kb ks) by lia.
  split.
  - intros [[= Hi] [= Ht]].
    rewrite (shiftr_split (Z.shiftr a kb) ks), (shiftr_split (Z.shiftr b kb) ks)
      by lia.
    now rewrite Hi, Ht.
  - intros ->. split; reflexivity.
Qed.

Lemma decoder_same_block_witness :
  calculateIndex 64 (cacheSetUp newCache 4 1 16 "write-allocate" "write-back" "lru")
  = calculateIndex 79 (cacheSetUp newCache 4 1 16 "write-allocate" "write-back" "lru").
Proof.
  assert (Hg : valid_geometry
                 (cacheSetUp newCache 4 1 16 "write-allocate" "write-back" "lru")).
  { unfold valid_geometry, Int32.in_range, Int32.min_int, Int32.max_int. simpl.
    repeat split; try reflexivity; lia. }
  assert (Hp : numSets (cacheSetUp newCache 4 1 16 "write-allocate"
                          "write-back" "lru")
               * numBytes (cacheSetUp newCache 4 1 16 "write-allocate"
                             "write-back" "lru") <= 2 ^ 31)
    by (vm_compute; discriminate).
  exact (proj1 (proj2 (decoder_same_block _ 64 79 Hg Hp) eq_refl)).
Defined.

(** ** What an access does to the table *)

Lemma storeMissSlot_fields c tg s :
  valid (storeMissSlot c tg s) = true /\ tag (storeMissSlot c tg s) = tg /\
  dirty (storeMissSlot c tg s)
  = (if str_eq (handleWrite c) "write-back" then true
     else dirty (evicted s c)).
Proof.
  unfold storeMissSlot. cbv zeta.
  destruct (str_eq (handleWrite c) "write-back").
  - change (valid (set_dirty true ?x)) with (valid x).
    change (tag (set_dirty true ?x)) with (tag x).
    rewrite installed_valid, installed_tag. now repeat split.
  - rewrite installed_valid, installed_tag, installed_dirty. now repeat split.
Qed.

Lemma loadHitSlot_fields c s :
  valid (loadHitSlot c s) = valid s /\ tag (loadHitSlot c s) = tag s /\
  dirty (loadHitSlot c s) = dirty s /\ load_ts (loadHitSlot c s) = load_ts s.
Proof. unfold loadHitSlot. now destruct (str_eq _ _). Qed.

Lemma storeHitSlot_fields c s :
  valid (storeHitSlot c s) = valid s /\ tag (storeHitSlot c s) = tag s /\
  load_ts (storeHitSlot c s) = load_ts s.
Proof. unfold storeHitSlot. cbv zeta. now destruct (str_eq _ _). Qed.

(** The three shapes of an access: a hit rewrites the hit slot and keeps
    its tag, valid flag and [load_ts]; an installing miss rewrites the picked
    slot into a valid slot with the new tag; a store miss under
    no-write-allocate leaves the table alone. *)
Lemma access_cases c op index tg st c' :
  sets c !! Z.to_nat index = Some st ->
  access c op index tg st c' ->
  (exists w s s',
     hits tg (slots st) w s /\ slot_at c (Z.to_nat index) w = Some s /\
     table_upd c c' (Z.to_nat index) w s' /\
     valid s' = valid s /\ tag s' = tag s /\ load_ts s' = load_ts s)
  \/
  (misses tg (slots st) /\
   (op = "l"%char \/ str_eq (handleMiss c) "no-write-allocate" = false) /\
   exists w s s',
     picked (handleEviction c) (slots st) w s /\
     slot_at c (Z.to_nat index) w = Some s /\
     table_upd c c' (Z.to_nat index) w s' /\
     valid s' = true /\ tag s' = tg)
  \/
  (misses tg (slots st) /\ op <> "l"%char /\
   str_eq (handleMiss c) "no-write-allocate" = true /\
   forall si w, slot_at c' si w = slot_at c si w).
Proof.
  intros Hst Hacc.
  assert (Hat : forall w, slot_at c (Z.to_nat index) w = slots st !! w)
    by (intros w; now apply slot_at_slots).
  destruct Hacc as [w s Hop Hhit | w s Hop Hmiss Hpick
                   | w s Hop Hhit | Hop Hmiss Hm
                   | w s Hop Hmiss Hm Hpick].
  - left. assert (Hs : slot_at c (Z.to_nat index) w = Some s)
      by (rewrite Hat; apply Hhit).
    exists w, s, (loadHitSlot c s).
    destruct (loadHitSlot_fields c s) as (Hv & Ht & _ & Hl).
    repeat split; try assumption; try apply Hhit.
    intros si' w'. now apply slot_at_loadHit.
  - right. left. split; [exact Hmiss|]. split; [now left|].
    assert (Hs : slot_at c (Z.to_nat index) w = Some s)
      by (rewrite Hat; apply Hpick).
    exists w, s, (loadMissSlot c tg s).
    split; [exact Hpick|]. split; [exact Hs|].
    split; [intros si' w'; now apply slot_at_loadMiss|].
    unfold loadMissSlot. split; [apply installed_valid|apply installed_tag].
  - left. assert (Hs : slot_at c (Z.to_nat index) w = Some s)
      by (rewrite Hat; apply Hhit).
    exists w, s, (storeHitSlot c s).
    destruct (storeHitSlot_fields c s) as (Hv & Ht & Hl).
    repeat split; try assumption; try apply Hhit.
    intros si' w'. now apply slot_at_storeHit.
  - right. right. repeat split; assumption.
  - right. left. split; [exact Hmiss|]. split; [now right|].
    assert (Hs : slot_at c (Z.to_nat index) w = Some s)
      by (rewrite Hat; apply Hpick).
    exists w, s, (storeMissSlot c tg s).
    split; [exact Hpick|]. split; [exact Hs|].
    split; [intros si' w'; now apply slot_at_storeMissAllocate|].
    destruct (storeMissSlot_fields c tg s) as (Hv & Ht & _). now split.
Qed.

(** X7.  A store that misses under write-allocate, in a reachable cache:
    storeMisses and storeCount grow by one; [100 * (numBytes / 4)] cycles
    are added, then [100 * numBytes / 4] if the replacement slot is flushed,
    then 1; the slot [findReplacementBlock] returns becomes valid
    with the new tag, dirty exactly under write-back, stamped in [access_ts]
    (lru) or [load_ts] (any other policy) with the new totalCycles; every
    other slot is unchanged.  All sums are [int] sums. *)
Theorem store_miss_write_allocate c op a index tg :
  reachable c ->
  op <> "l"%char ->
  handleMiss c <> "no-write-allocate"%string ->
  calculateIndex a c = Some (index, c) ->
  calculateTag a c = Some (tg, c) ->
  findBlock tg index c = Some (nullptr, c) ->
  exists c' w s s',
    cacheSimulator op a c = Some (tt, c') /\
    storeMisses c' = Int32.add (storeMisses c) 1 /\
    storeCount c' = Int32.add (storeCount c) 1 /\
    storeHits c' = storeHits c /\
    same_load_stats c c' /\ same_config c c' /\
    slot_at c (Z.to_nat index) w = Some s /\
    (exists c1, findReplacementBlock index c
                = Some (Some (Z.to_nat index, w), c1)) /\
    totalCycles c'
    = Int32.add
        (let fetched :=
           Int32.add (totalCycles c)
             (Int32.mul 100 (Int32.div (numBytes c) 4)) in
         if valid s && (dirty s && str_eq (handleWrite c) "write-back")
         then Int32.add fetched (Int32.wrap (100 * numBytes c / 4))
         else fetched) 1 /\
    table_upd c c' (Z.to_nat index) w s' /\
    valid s' = true /\ tag s' = tg /\
    (dirty s' = true <-> handleWrite c = "write-back"%string) /\
    (if str_eq (handleEviction c) "lru"
     then access_ts s' = Int32.to_uint (totalCycles c') /\
          load_ts s' = load_ts s
     else load_ts s' = Int32.to_uint (totalCycles c') /\
          access_ts s' = access_ts s).
Proof.
  intros Hreach Hop Hm Ei Et Ef. pose proof (reachable_wf c Hreach) as Hwf.
  rewrite (cacheSimulator_eq op a c index tg _ Ei Et Ef).
  apply Ascii.eqb_neq in Hop. rewrite Hop.
  apply str_eq_false in Hm.
  destruct (findBlock_miss _ _ _ _ Ef) as (Hidx & st & Hst & Hmiss).
  pose proof (wf_index c a index c Hwf Ei) as Hrange.
  destruct (wf_pick c index st Hwf Hrange Hst) as (w & s & Hpick & Hs & Hfind).
  exists (storeMissAllocate (Z.to_nat index) w s tg c), w, s,
    (storeMissSlot c tg s).
  destruct (stats_storeMissAllocate c (Z.to_nat index) w s tg)
    as (H1 & H2 & H3 & H4 & H5).
  destruct (storeMissSlot_fields c tg s) as (Hv & Ht & Hd).
  split; [now apply handleStore_miss_allocate|].
  split; [exact H2|]. split; [exact H1|]. split; [exact H3|].
  split; [exact H5|]. split; [apply same_config_storeMissAllocate|].
  split; [exact Hs|]. split; [eexists; now apply Hfind|].
  split.
  { rewrite H4. unfold storeMissCycles, afterFlush, flushes, storeFetchCost.
    rewrite (proj2 (blockCost_wrap c)). reflexivity. }
  split; [intros si' w'; now apply slot_at_storeMissAllocate|].
  split; [exact Hv|]. split; [exact Ht|]. split.
  - rewrite Hd. destruct (str_eq (handleWrite c) "write-back") eqn:Ew.
    + apply str_eq_true in Ew. now split.
    + rewrite (evicted_clean c _ _ s Hwf Hs). apply str_eq_false in Ew.
      split; [discriminate|contradiction].
  - rewrite H4. destruct (evicted_fields s c) as (_ & Hl & Ha).
    unfold storeMissSlot, installed, set_ts_of. cbv zeta.
    destruct (str_eq (handleEviction c) "lru");
      destruct (str_eq (handleWrite c) "write-back"); simpl;
      (split; [reflexivity|assumption]).
Qed.

Lemma store_miss_write_allocate_witness :
  exists c',
    cacheSimulator "s" 4 dirtyTinyCache = Some (tt, c') /\
    storeMisses c' = Int32.add (storeMisses dirtyTinyCache) 1.
Proof.
  assert (Hop : "s"%char <> "l"%char) by discriminate.
  assert (Hm : handleMiss dirtyTinyCache <> "no-write-allocate"%string)
    by discriminate.
  assert (Ei : calculateIndex 4 dirtyTinyCache = Some (0, dirtyTinyCache))
    by (vm_compute; reflexivity).
  assert (Et : calculateTag 4 dirtyTinyCache = Some (1, dirtyTinyCache))
    by (vm_compute; reflexivity).
  assert (Ef : findBlock 1 0 dirtyTinyCache = Some (nullptr, dirtyTinyCache))
    by (vm_compute; reflexivity).
  destruct (store_miss_write_allocate dirtyTinyCache "s" 4 0 1
              dirtyTinyCache_reachable Hop Hm Ei Et Ef)
    as (c' & w & s & s' & E & Hsm & _).
  exists c'. split; [exact E|exact Hsm].
Defined.

Lemma findBlock_scan_present tg si l w s :
  l !! w = Some s -> valid s = true -> tag s = tg ->
  exists w', findBlock_scan tg si 0 l = Some (si, w').
Proof.
  intros Hs Hv Ht.
  destruct (findBlock_scan tg si 0 l) as [[si' w']|] eqn:E.
  - apply findBlock_scan_hits in E as (w0 & s0 & [= -> ->] & _). now exists w0.
  - exfalso. pose proof (findBlock_scan_None _ _ _ _ E w s Hs) as Hno.
    rewrite Hv, Ht, Z.eqb_refl in Hno. discriminate.
Qed.

(** Offset and index bits of a cache on which a tag was computed. *)
Lemma wf_bits c a tg c0 :
  wf c -> calculateTag a c = Some (tg, c0) ->
  exists ks kb, 0 <= ks <= 30 /\ 2 <= kb <= 30 /\ ks + kb <= 31 /\
    numSets c = 2 ^ ks /\ numBytes c = 2 ^ kb.
Proof.
  intros Hwf Et.
  destruct (valid_geometry_pow2 c (wf_valid_geometry c Hwf))
    as (ks & kb & Hks & Hkb & Es & Eb).
  exists ks, kb. repeat split; try lia; try assumption.
  destruct (Z.le_gt_cases (ks + kb) 31) as [|Hgt]; [assumption|exfalso].
  rewrite (calculateTag_undefined c a ks kb) in Et by (assumption || lia).
  discriminate.
Qed.

(** X8.  Once a load, or a store under write-allocate, of an address has
    completed in a reachable cache, the block of that address is resident:
    the lookup of any address of the same block finds a valid slot, and a
    load of it is counted as a hit, not as a miss. *)
Theorem reaccess_hits c op a c' b :
  reachable c ->
  cacheSimulator op a c = Some (tt, c') ->
  op = "l"%char \/ handleMiss c <> "no-write-allocate"%string ->
  Z.shiftr b (Z.log2 (numBytes c)) = Z.shiftr a (Z.log2 (numBytes c)) ->
  exists index tg w c'',
    calculateIndex b c' = Some (index, c') /\
    calculateTag b c' = Some (tg, c') /\
    findBlock tg index c' = Some (Some (Z.to_nat index, w), c') /\
    cacheSimulator "l" b c' = Some (tt, c'') /\
    loadHits c'' = Int32.add (loadHits c') 1 /\
    loadMisses c'' = loadMisses c'.
Proof.
  intros Hreach Hstep Hinst Hblock.
  pose proof (reachable_wf c Hreach) as Hwf.
  destruct (wf_step c op a tt c' Hwf Hstep)
    as (index & tg & st & Ei & Et & Hrange & Hst & Hacc).
  destruct (wf_bits c a tg c Hwf Et)
    as (ks & kb & Hks & Hkb & Hsum & Es & Eb).
  destruct (access_same_config _ _ _ _ _ _ Hacc) as (Es' & _ & Eb' & _).
  rewrite Es in Es'. rewrite Eb in Eb'.
  rewrite Eb, Z.log2_pow2 in Hblock by lia.
  rewrite (calculateIndex_eq c a ks kb) in Ei by (assumption || lia).
  rewrite (calculateTag_eq c a ks kb) in Et by (assumption || lia).
  injection Ei as Ei. injection Et as Et.
  assert (Ei' : calculateIndex b c' = Some (index, c')).
  { rewrite (calculateIndex_eq c' b ks kb) by (assumption || lia).
    now rewrite Hblock, Ei. }
  assert (Et' : calculateTag b c' = Some (tg, c')).
  { rewrite (calculateTag_eq c' b ks kb) by (assumption || lia).
    rewrite <- (Z.shiftr_shiftr b kb ks), Hblock, Z.shiftr_shiftr by lia.
    now rewrite Et. }
  assert (Hres : exists w s', slot_at c' (Z.to_nat index) w = Some s' /\
                              valid s' = true /\ tag s' = tg).
  { destruct (access_cases c op index tg st c' Hst Hacc)
      as [(w & s & s' & Hhit & Hs & Hupd & Hv & Ht & _)
         | [(_ & _ & w & s & s' & _ & Hs & Hupd & Hv & Ht)
           | (_ & Hop & Hm & _)]].
    - exists w, s'. split; [exact (table_upd_eq _ _ _ _ _ Hupd)|].
      destruct Hhit as (_ & Hvs & Hts & _). split; congruence.
    - exists w, s'. split; [exact (table_upd_eq _ _ _ _ _ Hupd)|now split].
    - exfalso. destruct Hinst as [Hl|Hn]; [contradiction|].
      apply str_eq_true in Hm. contradiction. }
  destruct Hres as (w & s' & Hs' & Hv & Ht).
  destruct (slot_at_set c' _ _ _ Hs') as (st' & Hst' & Hw).
  destruct (findBlock_scan_present tg (Z.to_nat index) (slots st') w s' Hw Hv Ht)
    as (w' & Hscan).
  assert (Ef' : findBlock tg index c'
                = Some (Some (Z.to_nat index, w'), c')).
  { rewrite (findBlock_eq c' tg index st') by (assumption || lia).
    now rewrite Hscan. }
  destruct (findBlock_hit _ _ _ _ _ _ Ef') as (_ & _ & s0 & _ & _ & Hs0).
  exists index, tg, w', (loadHit (Z.to_nat index) w' c').
  split; [exact Ei'|]. split; [exact Et'|]. split; [exact Ef'|].
  destruct (stats_loadHit c' (Z.to_nat index) w') as (_ & H2 & H3 & _).
  split; [|split; assumption].
  rewrite (cacheSimulator_eq "l" b c' index tg _ Ei' Et' Ef').
  change (Ascii.eqb "l" "l") with true. cbv iota.
  now apply handleLoad_hit with s0.
Qed.

Lemma reaccess_hits_witness :
  exists index tg w c'',
    calculateIndex 3 dirtyTinyCache = Some (index, dirtyTinyCache) /\
    calculateTag 3 dirtyTinyCache = Some (tg, dirtyTinyCache) /\
    findBlock tg index dirtyTinyCache
    = Some (Some (Z.to_nat index, w), dirtyTinyCache) /\
    cacheSimulator "l" 3 dirtyTinyCache = Some (tt, c'') /\
    loadHits c'' = Int32.add (loadHits dirtyTinyCache) 1 /\
    loadMisses c'' = loadMisses dirtyTinyCache.
Proof.
  assert (Hr : reachable (tinyCache "write-allocate" "write-back" "lru"))
    by (exists 0%nat; now apply tinyCache_reach).
  assert (Hstep0 : cacheSimulator "s" 0
                    (tinyCache "write-allocate" "write-back" "lru")
                  = Some (tt, dirtyTinyCache))
    by (vm_compute; reflexivity).
  assert (Hm : handleMiss (tinyCache "write-allocate" "write-back" "lru")
               <> "no-write-allocate"%string) by discriminate.
  assert (Hb : Z.shiftr 3
                 (Z.log2 (numBytes (tinyCache "write-allocate" "write-back"
                                      "lru")))
               = Z.shiftr 0
                   (Z.log2 (numBytes (tinyCache "write-allocate" "write-back"
                                        "lru"))))
    by (vm_compute; reflexivity).
  exact (reaccess_hits (tinyCache "write-allocate" "write-back" "lru")
           "s" 0 dirtyTinyCache 3 Hr Hstep0 (or_intror Hm) Hb).
Defined.

(** X9.  An access in a reachable cache never writes the geometry or the
    policies, never adds or removes a slot, and writes at most one slot,
    which lies in the set the address indexes: every slot of every other
    set, and every other way of that set, is as before. *)
Theorem access_frame c op a c' :
  reachable c ->
  cacheSimulator op a c = Some (tt, c') ->
  same_config c c' /\
  (forall si w,
     is_Some (slot_at c' si w) <->
     (si < Z.to_nat (numSets c))%nat /\ (w < Z.to_nat (numBlocks c))%nat) /\
  exists index w,
    calculateIndex a c = Some (index, c) /\ 0 <= index < numSets c /\
    forall si w', ~ (si = Z.to_nat index /\ w' = w) ->
      slot_at c' si w' = slot_at c si w'.
Proof.
  intros Hreach Hstep. pose proof (reachable_wf c Hreach) as Hwf.
  destruct (wf_step c op a tt c' Hwf Hstep)
    as (index & tg & st & Ei & Et & Hrange & Hst & Hacc).
  pose proof (access_same_config _ _ _ _ _ _ Hacc) as Hcfg.
  split; [exact Hcfg|]. split.
  - pose proof (access_wf c op index tg st c' Hwf Hst Hacc) as Hwf'.
    destruct Hcfg as (Es & Eb & _).
    intros si w. rewrite <- Es, <- Eb. apply (wf_table c' Hwf').
  - destruct (access_cases c op index tg st c' Hst Hacc)
      as [(w & s & s' & _ & _ & Hupd & _)
         | [(_ & _ & w & s & s' & _ & _ & Hupd & _)
           | (_ & _ & _ & Hsame)]].
    + exists index, w. split; [exact Ei|]. split; [exact Hrange|].
      intros si w' Hne. apply (table_upd_ne _ _ _ _ _ _ _ Hupd).
      intros [<- <-]. now apply Hne.
    + exists index, w. split; [exact Ei|]. split; [exact Hrange|].
      intros si w' Hne. apply (table_upd_ne _ _ _ _ _ _ _ Hupd).
      intros [<- <-]. now apply Hne.
    + exists index, 0%nat. split; [exact Ei|]. split; [exact Hrange|].
      intros si w' _. apply Hsame.
Qed.

Lemma access_frame_witness :
  same_config (tinyCache "write-allocate" "write-back" "lru") dirtyTinyCache.
Proof.
  assert (Hr : reachable (tinyCache "write-allocate" "write-back" "lru"))
    by (exists 0%nat; now apply tinyCache_reach).
  assert (Hstep0 : cacheSimulator "s" 0
                    (tinyCache "write-allocate" "write-back" "lru")
                  = Some (tt, dirtyTinyCache))
    by (vm_compute; reflexivity).
  exact (proj1 (access_frame _ "s" 0 dirtyTinyCache Hr Hstep0)).
Defined.

(** X10.  In every reachable cache a dirty slot is valid and the write
    policy is write-back: a write-through cache never holds a dirty slot,
    and no invalid slot is dirty. *)
Theorem dirty_only_under_write_back c :
  reachable c ->
  forall si w s,
    slot_at c si w = Some s -> dirty s = true ->
    valid s = true /\ handleWrite c = "write-back"%string.
Proof.
  intros Hreach si w s Hs Hd.
  destruct (wf_clean c (reachable_wf c Hreach) si w s Hs Hd) as [Hv Hwb].
  split; [exact Hv|]. now apply str_eq_true.
Qed.

Lemma dirty_only_under_write_back_witness :
  valid (mkSlot 0 true true 0 101) = true /\
  handleWrite dirtyTinyCache = "write-back"%string.
Proof.
  exact (dirty_only_under_write_back dirtyTinyCache dirtyTinyCache_reachable
           0%nat 0%nat (mkSlot 0 true true 0 101) eq_refl eq_refl).
Defined.

(** X11.  Under no-write-allocate no store installs or removes a block: in
    a reachable cache a store, hit or miss, leaves the valid flag, the tag
    and [load_ts] of every slot as they were, and every slot clean. *)
Theorem no_write_allocate_store_keeps_blocks c op a c' :
  reachable c ->
  handleMiss c = "no-write-allocate"%string ->
  op <> "l"%char ->
  cacheSimulator op a c = Some (tt, c') ->
  forall si w s',
    slot_at c' si w = Some s' ->
    exists s, slot_at c si w = Some s /\
      valid s' = valid s /\ tag s' = tag s /\ load_ts s' = load_ts s /\
      dirty s' = false.
Proof.
  intros Hreach Hm Hop Hstep si w s' Hs'.
  pose proof (reachable_wf c Hreach) as Hwf.
  destruct (wf_step c op a tt c' Hwf Hstep)
    as (index & tg & st & _ & _ & _ & Hst & Hacc).
  pose proof (access_wf c op index tg st c' Hwf Hst Hacc) as Hwf'.
  destruct (access_same_config _ _ _ _ _ _ Hacc) as (_ & _ & _ & _ & Ew & _).
  assert (Hclean : dirty s' = false).
  { destruct (dirty s') eqn:Ed; [exfalso|reflexivity].
    destruct (wf_clean c' Hwf' si w s' Hs' Ed) as [_ Hwb].
    unfold write_back in Hwb. rewrite Ew in Hwb.
    destruct (validateArguments_ok _ _ _ _ _ _ (wf_args c Hwf))
      as (_ & _ & _ & _ & [Hwt | [_ Hn]] & _).
    - apply str_eq_true in Hwt. rewrite Hwt in Hwb. discriminate.
    - apply str_eq_false in Hn. contradiction. }
  apply str_eq_true in Hm.
  destruct (access_cases c op index tg st c' Hst Hacc)
    as [(w0 & s0 & s0' & _ & Hs0 & Hupd & Hv & Ht & Hl)
       | [(_ & [Hl | Hn] & _) | (_ & _ & _ & Hsame)]].
  - rewrite (Hupd si w) in Hs'.
    destruct (decide _) as [[<- <-]|].
    + injection Hs' as <-. exists s0. now repeat split.
    + exists s'. now repeat split.
  - contradiction.
  - congruence.
  - rewrite Hsame in Hs'. exists s'. now repeat split.
Qed.

Lemma no_write_allocate_store_keeps_blocks_witness :
  exists s,
    slot_at (tinyCache "no-write-allocate" "write-through" "lru") 0 0 = Some s /\
    valid emptySlot = valid s /\ tag emptySlot = tag s /\
    load_ts emptySlot = load_ts s /\ dirty emptySlot = false.
Proof.
  assert (Hr : reachable (tinyCache "no-write-allocate" "write-through" "lru"))
    by (exists 0%nat; now apply tinyCache_reach).
  assert (Hop : "s"%char <> "l"%char) by discriminate.
  assert (Hstep : cacheSimulator "s" 0
                    (tinyCache "no-write-allocate" "write-through" "lru")
                  = Some (tt, mkCache 1 1 4 "no-write-allocate"
                                "write-through" "lru" [mkSet [emptySlot]]
                                0 1 0 0 0 1 100))
    by (vm_compute; reflexivity).
  exact (no_write_allocate_store_keeps_blocks
           (tinyCache "no-write-allocate" "write-through" "lru") "s" 0 _
           Hr eq_refl Hop Hstep 0%nat 0%nat emptySlot eq_refl).
Defined.

(** X12.  A block that is replaced is gone: when an access in a reachable
    cache gives a valid slot another tag, no valid slot of that set carries
    the old tag afterwards, so a lookup of the old block misses. *)
Theorem replaced_block_is_gone c op a c' si w s s' :
  reachable c ->
  cacheSimulator op a c = Some (tt, c') ->
  slot_at c si w = Some s -> valid s = true ->
  slot_at c' si w = Some s' -> tag s' <> tag s ->
  forall w2 s2,
    slot_at c' si w2 = Some s2 -> valid s2 = true -> tag s2 <> tag s.
Proof.
  intros Hreach Hstep Hs Hv Hs' Hnew w2 s2 Hs2 Hv2 Heq.
  pose proof (reachable_wf c Hreach) as Hwf.
  destruct (wf_step c op a tt c' Hwf Hstep)
    as (index & tg & st & _ & _ & _ & Hst & Hacc).
  assert (Hcase : forall w0 s0',
            table_upd c c' (Z.to_nat index) w0 s0' ->
            (Z.to_nat index = si /\ w0 = w) -> False).
  { intros w0 s0' Hupd [<- <-].
    destruct (decide (w2 = w0)) as [->|Hne].
    - rewrite Hs' in Hs2. injection Hs2 as <-. contradiction.
    - rewrite (table_upd_ne _ _ _ _ _ _ _ Hupd) in Hs2
        by (intros [_ E]; now apply Hne).
      apply Hne. exact (wf_tags c Hwf _ w2 w0 s2 s Hs2 Hs Hv2 Hv Heq). }
  destruct (access_cases c op index tg st c' Hst Hacc)
    as [(w0 & s0 & s0' & _ & Hs0 & Hupd & _ & Ht & _)
       | [(_ & _ & w0 & s0 & s0' & _ & Hs0 & Hupd & _)
         | (_ & _ & _ & Hsame)]].
  - rewrite (Hupd si w) in Hs'. destruct (decide _) as [[<- <-]|].
    + rewrite Hs0 in Hs. injection Hs as <-. injection Hs' as <-.
      contradiction.
    + rewrite Hs in Hs'. injection Hs' as <-. now apply Hnew.
  - destruct (decide (Z.to_nat index = si /\ w0 = w)) as [Hpos|Hpos].
    + exact (Hcase w0 s0' Hupd Hpos).
    + rewrite (table_upd_ne _ _ _ _ _ _ _ Hupd) in Hs' by exact Hpos.
      rewrite Hs in Hs'. injection Hs' as <-. now apply Hnew.
  - rewrite Hsame, Hs in Hs'. injection Hs' as <-. now apply Hnew.
Qed.

(** The cache after the load of address 4 in [dirtyTinyCache]. *)
Lemma dirtyTinyCache_load4 :
  cacheSimulator "l" 4 dirtyTinyCache
  = Some (tt, mkCache 1 1 4 "write-allocate" "write-back" "lru"
                [mkSet [mkSlot 1 true false 0 302]] 1 1 0 1 0 1 302).
Proof. vm_compute. reflexivity. Qed.

Lemma replaced_block_is_gone_witness :
  (tag (mkSlot 1 true false 0 302) =? tag (mkSlot 0 true true 0 101)) = false.
Proof.
  apply Z.eqb_neq.
  assert (Hnew : tag (mkSlot 1 true false 0 302)
                 <> tag (mkSlot 0 true true 0 101)) by discriminate.
  exact (replaced_block_is_gone dirtyTinyCache "l" 4 _ 0%nat 0%nat
           (mkSlot 0 true true 0 101) (mkSlot 1 true false 0 302)
           dirtyTinyCache_reachable dirtyTinyCache_load4
           eq_refl eq_refl eq_refl Hnew 0%nat (mkSlot 1 true false 0 302)
           eq_refl eq_refl).
Defined.

(** ** Counters and traces *)

Lemma incr_small a : 0 <= a < Int32.max_int -> Int32.add a 1 = a + 1.
Proof. intros H. apply add_small; lia. Qed.

(** Without counter overflow an access counts once: as a load or as a
    store, and as a hit or as a miss of that kind. *)
Lemma access_counts c op index tg st c' :
  access c op index tg st c' ->
  0 <= loadCount c < Int32.max_int -> 0 <= storeCount c < Int32.max_int ->
  0 <= loadHits c < Int32.max_int -> 0 <= loadMisses c < Int32.max_int ->
  0 <= storeHits c < Int32.max_int -> 0 <= storeMisses c < Int32.max_int ->
  loadCount c' + storeCount c' = loadCount c + storeCount c + 1 /\
  loadCount c' - (loadHits c' + loadMisses c')
  = loadCount c - (loadHits c + loadMisses c) /\
  storeCount c' - (storeHits c' + storeMisses c')
  = storeCount c - (storeHits c + storeMisses c) /\
  loadHits c <= loadHits c' /\ loadMisses c <= loadMisses c' /\
  storeHits c <= storeHits c' /\ storeMisses c <= storeMisses c'.
Proof.
  intros Hacc Hlc Hsc Hlh Hlm Hsh Hsm.
  destruct Hacc as [w s Hop _ | w s Hop _ _ | w s Hop _ | Hop _ _
                   | w s Hop _ _ _].
  - destruct (stats_loadHit c (Z.to_nat index) w)
      as (-> & -> & -> & _ & -> & -> & ->).
    rewrite !incr_small by lia. lia.
  - destruct (stats_loadMiss c (Z.to_nat index) w s tg)
      as (-> & -> & -> & -> & -> & ->).
    rewrite !incr_small by lia. lia.
  - destruct (stats_storeHit c (Z.to_nat index) w)
      as (-> & -> & -> & _ & -> & -> & ->).
    rewrite !incr_small by lia. lia.
  - unfold storeMissNoAllocate, addCycles, bump. simpl.
    rewrite !incr_small by lia. lia.
  - destruct (stats_storeMissAllocate c (Z.to_nat index) w s tg)
      as (-> & -> & -> & _ & -> & -> & ->).
    rewrite !incr_small by lia. lia.
Qed.

(** X13.  After [n] accesses from the initialized cache, with [n] within
    the range of an [int], loadCount + storeCount = n, every load was counted
    as a hit or as a miss (loadCount = loadHits + loadMisses), and likewise
    every store; no counter is negative. *)
Theorem counters_consistent n c :
  reach_in n c ->
  Z.of_nat n <= Int32.max_int ->
  loadCount c + storeCount c = Z.of_nat n /\
  loadCount c = loadHits c + loadMisses c /\
  storeCount c = storeHits c + storeMisses c /\
  0 <= loadHits c /\ 0 <= loadMisses c /\
  0 <= storeHits c /\ 0 <= storeMisses c.
Proof.
  induction 1 as [ns nb nby hm hw he Hs Hb Hy Hv | n c op a c' Hreach IH Ha Hstep].
  - intros _. simpl. lia.
  - intros Hn.
    pose proof (reach_in_wf n c Hreach) as Hwf.
    destruct (wf_step c op a tt c' Hwf Hstep)
      as (index & tg & st & _ & _ & _ & Hst & Hacc).
    destruct (IH ltac:(lia)) as (I1 & I2 & I3 & I4 & I5 & I6 & I7).
    destruct (access_counts c op index tg st c' Hacc)
      as (S1 & S2 & S3 & S4 & S5 & S6 & S7); try lia.
Qed.

Lemma counters_consistent_witness :
  loadCount twoWayCache + storeCount twoWayCache = Z.of_nat 2 /\
  loadCount twoWayCache = loadHits twoWayCache + loadMisses twoWayCache.
Proof.
  assert (Hr : reach_in 2 twoWayCache).
  { assert (Hin : forall z, -10 <= z <= 10 -> Int32.in_range z)
      by (intros z Hz; unfold Int32.in_range, Int32.min_int, Int32.max_int;
          simpl; lia).
    apply (reach_step 1
             (mkCache 1 2 4 "write-allocate" "write-back" "lru"
                [mkSet [mkSlot 0 true false 0 101; emptySlot]] 1 0 0 1 0 0 101)
             "l" 4); [|apply Hin; lia|vm_compute; reflexivity].
    apply (reach_step 0
             (cacheSetUp newCache 1 2 4 "write-allocate" "write-back" "lru")
             "l" 0); [|apply Hin; lia|vm_compute; reflexivity].
    apply reach_init; try (apply Hin; lia). reflexivity. }
  assert (Hn : Z.of_nat 2 <= Int32.max_int) by (vm_compute; discriminate).
  destruct (counters_consistent 2 twoWayCache Hr Hn) as (H1 & H2 & _).
  split; [exact H1|exact H2].
Defined.

Lemma same_config_trans c1 c2 c3 :
  same_config c1 c2 -> same_config c2 c3 -> same_config c1 c3.
Proof.
  intros (A1 & A2 & A3 & A4 & A5 & A6) (B1 & B2 & B3 & B4 & B5 & B6).
  repeat split; congruence.
Qed.

(** X14.  From a reachable cache whose offset and index bits stay below 32
    every trace is processed to its end: no record of the trace, whatever
    its operation character and its 32-bit address, shifts by 32 or more,
    indexes the table of sets or a set out of range, or dereferences a null
    slot pointer; the cache at the end is the cache reached after one access
    per record, with the configuration it started with.  Overflow of the
    [int] statistics is not excluded here: they wrap around, and
    [reach_fit] and [fits] describe the runs without it. *)
Theorem runTrace_completes trace :
  forall n c,
    reach_in n c ->
    numSets c * numBytes c <= 2 ^ 31 ->
    exists c',
      runTrace trace c = Some (tt, c') /\
      reach_in (n + length trace) c' /\ same_config c c'.
Proof.
  induction trace as [|[op addr] rest IH]; intros n c Hreach Hprod.
  - exists c. simpl. rewrite Nat.add_0_r.
    split; [reflexivity|]. split; [exact Hreach|apply same_config_refl].
  - pose proof (reach_in_wf n c Hreach) as Hwf.
    destruct (cacheSimulator_total c op (Int32.wrap addr) Hwf Hprod)
      as (c1 & E1).
    assert (Hreach1 : reach_in (S n) c1)
      by (apply (reach_step n c op (Int32.wrap addr));
          [exact Hreach|apply Int32Facts.wrap_in_range|exact E1]).
    destruct (wf_step c op _ tt c1 Hwf E1)
      as (index & tg & st & _ & _ & _ & _ & Hacc).
    pose proof (access_same_config _ _ _ _ _ _ Hacc) as Hcfg.
    assert (Hprod1 : numSets c1 * numBytes c1 <= 2 ^ 31).
    { destruct Hcfg as (-> & _ & -> & _). exact Hprod. }
    destruct (IH (S n) c1 Hreach1 Hprod1) as (c' & E & Hr' & Hcfg').
    exists c'. split.
    + simpl. unfold bind. now rewrite E1.
    + split; [|exact (same_config_trans _ _ _ Hcfg Hcfg')].
      replace (n + length ((op, addr) :: rest))%nat
        with (S n + length rest)%nat by (simpl; lia).
      exact Hr'.
Qed.

Lemma runTrace_completes_witness :
  exists c',
    runTrace [("l"%char, 4294967295); ("s"%char, 0)]
      (tinyCache "write-allocate" "write-back" "lru") = Some (tt, c') /\
    reach_in 2 c'.
Proof.
  assert (Hr : reach_in 0 (tinyCache "write-allocate" "write-back" "lru"))
    by now apply tinyCache_reach.
  assert (Hp : numSets (tinyCache "write-allocate" "write-back" "lru")
               * numBytes (tinyCache "write-allocate" "write-back" "lru")
               <= 2 ^ 31) by (vm_compute; discriminate).
  destruct (runTrace_completes [("l"%char, 4294967295); ("s"%char, 0)]
              0%nat _ Hr Hp) as (c' & E & Hr' & _).
  exists c'. split; [exact E|exact Hr'].
Defined.

(** X15.  Processing a trace in two parts is processing the whole trace:
    the second part starts from the cache the first part leaves, and is
    undefined if the first part is. *)
Theorem runTrace_app t1 t2 c :
  runTrace (t1 ++ t2) c
  = match runTrace t1 c with
    | Some (_, c1) => runTrace t2 c1
    | None => None
    end.
Proof.
  revert c. induction t1 as [|[op addr] rest IH]; intros c.
  - reflexivity.
  - simpl. unfold bind.
    destruct (cacheSimulator op (Int32.wrap addr) c) as [[[] c1]|];
      [apply IH|reflexivity].
Qed.

(** ** Eviction order *)

Lemma picked_unique he l w1 s1 w2 s2 :
  picked he l w1 s1 -> picked he l w2 s2 -> w1 = w2.
Proof.
  intros (H1 & P1) (H2 & P2).
  destruct P1 as [(V1 & F1) | (A1 & L1 & T1)];
    destruct P2 as [(V2 & F2) | (A2 & L2 & T2)].
  - destruct (Nat.lt_trichotomy w1 w2) as [Hlt|[Heq|Hgt]]; [|exact Heq|].
    + rewrite (F2 w1 s1 Hlt H1) in V1. discriminate.
    + rewrite (F1 w2 s2 Hgt H2) in V2. discriminate.
  - rewrite (A2 w1 s1 H1) in V1. discriminate.
  - rewrite (A1 w2 s2 H2) in V2. discriminate.
  - destruct (Nat.lt_trichotomy w1 w2) as [Hlt|[Heq|Hgt]]; [|exact Heq|].
    + specialize (T2 w1 s1 Hlt H1). specialize (L1 w2 s2 H2). lia.
    + specialize (T1 w2 s2 Hgt H2). specialize (L2 w1 s1 H1). lia.
Qed.

Lemma picked_transfer he l l' w s :
  same_order he l l' -> picked he l w s -> exists s', picked he l' w s'.
Proof.
  intros Hsame (Hs & P).
  assert (Hto : forall j x, l !! j = Some x ->
            exists y, l' !! j = Some y /\ valid x = valid y /\
                      ts_for he x = ts_for he y).
  { intros j x Hx. specialize (Hsame j). rewrite Hx in Hsame.
    destruct (l' !! j) as [y|]; [|contradiction]. now exists y. }
  assert (Hfrom : forall j y, l' !! j = Some y ->
            exists x, l !! j = Some x /\ valid x = valid y /\
                      ts_for he x = ts_for he y).
  { intros j y Hy. specialize (Hsame j). rewrite Hy in Hsame.
    destruct (l !! j) as [x|]; [|contradiction]. now exists x. }
  destruct (Hto w s Hs) as (s' & Hs' & Hv & Ht).
  exists s'. split; [exact Hs'|].
  destruct P as [(V & F) | (A & L & T)]; [left|right].
  - split; [congruence|]. intros j y Hj Hy.
    destruct (Hfrom j y Hy) as (x & Hx & Hvx & _).
    rewrite <- Hvx. now apply (F j x).
  - split; [|split].
    + intros j y Hy. destruct (Hfrom j y Hy) as (x & Hx & Hvx & _).
      rewrite <- Hvx. now apply (A j x).
    + intros j y Hy. destruct (Hfrom j y Hy) as (x & Hx & _ & Htx).
      rewrite <- Ht, <- Htx. now apply (L j x).
    + intros j y Hj Hy. destruct (Hfrom j y Hy) as (x & Hx & _ & Htx).
      rewrite <- Ht, <- Htx. now apply (T j x).
Qed.

Lemma findReplacementBlock_inv c index r :
  findReplacementBlock index c = Some r ->
  0 <= index /\
  exists st, sets c !! Z.to_nat index = Some st /\ slots st <> [].
Proof.
  intros Hr.
  destruct (Z_le_dec 0 index) as [H0|H0];
    [destruct (Z_lt_dec index (Z.of_nat (length (sets c)))) as [H1|H1]|].
  - split; [lia|].
    destruct (lookup_lt_is_Some_2 (sets c) (Z.to_nat index) ltac:(lia))
      as [st Hst].
    exists st. split; [exact Hst|]. intros Hnil.
    rewrite (findReplacementBlock_empty c index st) in Hr
      by (assumption || lia).
    discriminate Hr.
  - exfalso. unfold findReplacementBlock, bind in Hr.
    rewrite set_ref_None in Hr by lia. discriminate.
  - exfalso. unfold findReplacementBlock, bind in Hr.
    rewrite set_ref_None in Hr by lia. discriminate.
Qed.

(** The way [findReplacementBlock] returns depends on the valid flags and
    the compared timestamps of the set only. *)
Lemma findReplacementBlock_same_order c c' i w x :
  handleEviction c' = handleEviction c ->
  (forall st, sets c !! Z.to_nat i = Some st ->
     exists st', sets c' !! Z.to_nat i = Some st' /\
                 same_order (handleEviction c) (slots st) (slots st')) ->
  findReplacementBlock i c = Some (Some (Z.to_nat i, w), x) ->
  exists x', findReplacementBlock i c' = Some (Some (Z.to_nat i, w), x').
Proof.
  intros He Hrel Hr.
  destruct (findReplacementBlock_inv c i _ Hr) as (Hi & st & Hst & Hne).
  destruct (Hrel st Hst) as (st' & Hst' & Hsame).
  destruct (findReplacementBlock_spec (handleEviction c) i st Hi Hne)
    as (w1 & s1 & Hp1 & Hf1).
  rewrite (Hf1 c Hst eq_refl) in Hr. injection Hr as <- _.
  assert (Hne' : slots st' <> []).
  { intros E. destruct Hp1 as (Hs1 & _). specialize (Hsame w1).
    rewrite Hs1, E in Hsame. exact Hsame. }
  destruct (findReplacementBlock_spec (handleEviction c) i st' Hi Hne')
    as (w2 & s2 & Hp2 & Hf2).
  destruct (picked_transfer _ _ _ _ _ Hsame Hp1) as (s1' & Hp1').
  rewrite (picked_unique _ _ _ _ _ _ Hp1' Hp2).
  eexists. now apply Hf2.
Qed.

(** X16.  Under fifo a hit does not change the eviction order: after a load
    or a store that hits in a reachable cache whose eviction policy is not
    "lru", [findReplacementBlock] returns for every set the same way as it
    did before the access. *)
Theorem fifo_hit_keeps_victim c op a index tg p c' :
  reachable c ->
  handleEviction c <> "lru"%string ->
  calculateIndex a c = Some (index, c) ->
  calculateTag a c = Some (tg, c) ->
  findBlock tg index c = Some (Some p, c) ->
  cacheSimulator op a c = Some (tt, c') ->
  forall i w x,
    findReplacementBlock i c = Some (Some (Z.to_nat i, w), x) ->
    exists x', findReplacementBlock i c' = Some (Some (Z.to_nat i, w), x').
Proof.
  intros Hreach Hfifo Ei Et Ef Hstep i w x Hr.
  pose proof (reachable_wf c Hreach) as Hwf.
  destruct (wf_step c op a tt c' Hwf Hstep)
    as (index' & tg' & st & Ei' & Et' & _ & Hst & Hacc).
  rewrite Ei in Ei'. injection Ei' as <-.
  rewrite Et in Et'. injection Et' as <-.
  destruct (access_same_config _ _ _ _ _ _ Hacc) as (_ & _ & _ & _ & _ & He).
  apply str_eq_false in Hfifo.
  assert (Hts : ts_for (handleEviction c) = load_ts)
    by (unfold ts_for; now rewrite Hfifo).
  destruct p as [sp wp].
  destruct (findBlock_hit _ _ _ _ _ _ Ef) as (-> & st0 & s0 & Hst0 & Hhit0 & _).
  rewrite Hst in Hst0. injection Hst0 as <-.
  assert (Hnomiss : misses tg (slots st) -> False).
  { intros Hm. destruct Hhit0 as (Hs0 & Hv0 & Ht0 & _).
    exact (misses_tag tg _ _ _ Hm Hs0 Hv0 Ht0). }
  destruct (access_cases c op index tg st c' Hst Hacc)
    as [(w0 & s1 & s1' & _ & Hs1 & Hupd & Hv & _ & Hl)
       | [(Hm & _) | (Hm & _)]]; try (exfalso; now apply Hnomiss).
  apply (findReplacementBlock_same_order c c' i w x He); [|exact Hr].
  intros sti Hsti.
  assert (Hsl : forall j, slot_at c' (Z.to_nat i) j
                = if decide (Z.to_nat index = Z.to_nat i /\ w0 = j)
                  then Some s1' else slots sti !! j).
  { intros j. rewrite (Hupd (Z.to_nat i) j).
    destruct (decide _); [reflexivity|]. now apply slot_at_slots. }
  destruct (sets c' !! Z.to_nat i) as [sti'|] eqn:Esti'.
  - exists sti'. split; [reflexivity|]. intros j.
    rewrite <- (slot_at_slots c' _ j sti' Esti'), Hsl.
    destruct (decide _) as [[Eidx <-]|].
    + rewrite <- Eidx in Hsti. rewrite <- (slot_at_slots c _ w0 sti Hsti), Hs1.
      rewrite Hts. now split.
    + destruct (slots sti !! j); [now split|exact I].
  - exfalso.
    destruct (findReplacementBlock_inv c i _ Hr) as (_ & st2 & Hst2 & Hne2).
    rewrite Hsti in Hst2. injection Hst2 as <-.
    destruct (slots sti) as [|y l] eqn:El; [congruence|].
    specialize (Hsl 0%nat). unfold slot_at in Hsl. rewrite Esti' in Hsl.
    destruct (decide _); simpl in Hsl; discriminate.
Qed.

Lemma fifoCache_reachable : reachable fifoCache.
Proof.
  exists 2%nat.
  assert (Hin : forall z, -10 <= z <= 10 -> Int32.in_range z)
    by (intros z Hz; unfold Int32.in_range, Int32.min_int, Int32.max_int;
        simpl; lia).
  apply (reach_step 1
           (mkCache 1 2 4 "write-allocate" "write-through" "fifo"
              [mkSet [mkSlot 0 true false 101 0; emptySlot]] 1 0 0 1 0 0 101)
           "l" 4); [|apply Hin; lia|vm_compute; reflexivity].
  apply (reach_step 0
           (cacheSetUp newCache 1 2 4 "write-allocate" "write-through" "fifo")
           "l" 0); [|apply Hin; lia|vm_compute; reflexivity].
  apply reach_init; try (apply Hin; lia). reflexivity.
Qed.

Lemma fifo_hit_keeps_victim_witness :
  exists x',
    findReplacementBlock 0
      (mkCache 1 2 4 "write-allocate" "write-through" "fifo"
         [mkSet [mkSlot 0 true false 101 0; mkSlot 1 true false 202 202]]
         2 1 0 2 1 0 302)
    = Some (Some (Z.to_nat 0, 0%nat), x').
Proof.
  assert (Hf : handleEviction fifoCache <> "lru"%string) by discriminate.
  assert (Ei : calculateIndex 4 fifoCache = Some (0, fifoCache))
    by (vm_compute; reflexivity).
  assert (Et : calculateTag 4 fifoCache = Some (1, fifoCache))
    by (vm_compute; reflexivity).
  assert (Ef : findBlock 1 0 fifoCache = Some (Some (0%nat, 1%nat), fifoCache))
    by (vm_compute; reflexivity).
  assert (Hstep : cacheSimulator "s" 4 fifoCache
                  = Some (tt, mkCache 1 2 4 "write-allocate" "write-through"
                                "fifo"
                                [mkSet [mkSlot 0 true false 101 0;
                                        mkSlot 1 true false 202 202]]
                                2 1 0 2 1 0 302))
    by (vm_compute; reflexivity).
  assert (Hr : findReplacementBlock 0 fifoCache
               = Some (Some (Z.to_nat 0, 0%nat), fifoCache))
    by (vm_compute; reflexivity).
  exact (fifo_hit_keeps_victim fifoCache "s" 4 0 1 (0%nat, 1%nat) _
           fifoCache_reachable Hf Ei Et Ef Hstep 0 0%nat fifoCache Hr).
Defined.

(** ** Recency under lru *)

Lemma to_uint_small t : 0 <= t <= Int32.max_int -> Int32.to_uint t = t.
Proof.
  intros H. apply Int32Facts.to_uint_id.
  unfold Int32.max_int, Int32.modulus in *.
  change (2 ^ 31) with 2147483648 in H. change (2 ^ 32) with 4294967296. lia.
Qed.

(** The timestamps an access leaves in a slot: those the slot had, or the
    cycle count before or after the access. *)
Lemma access_stamps c op index tg st c' :
  sets c !! Z.to_nat index = Some st ->
  access c op index tg st c' ->
  forall si w s',
    slot_at c' si w = Some s' ->
    exists s, slot_at c si w = Some s /\
      (access_ts s' = access_ts s \/
       access_ts s' = Int32.to_uint (totalCycles c') \/
       access_ts s' = Int32.to_uint (totalCycles c)) /\
      (load_ts s' = load_ts s \/
       load_ts s' = Int32.to_uint (totalCycles c')).
Proof.
  intros Hst Hacc si w s' Hs'.
  assert (Hat : forall w0, slot_at c (Z.to_nat index) w0 = slots st !! w0)
    by (intros w0; now apply slot_at_slots).
  assert (Hkeep : forall s0, slot_at c si w = Some s0 -> s' = s0 ->
            exists s, slot_at c si w = Some s /\
              (access_ts s' = access_ts s \/
               access_ts s' = Int32.to_uint (totalCycles c') \/
               access_ts s' = Int32.to_uint (totalCycles c)) /\
              (load_ts s' = load_ts s \/
               load_ts s' = Int32.to_uint (totalCycles c')))
    by (intros s0 H0 ->; exists s0; auto).
  destruct Hacc as [w0 s0 Hop (H0 & _) | w0 s0 Hop Hmiss (H0 & _)
                   | w0 s0 Hop (H0 & _) | Hop Hmiss Hm
                   | w0 s0 Hop Hmiss Hm (H0 & _)];
    rewrite <- Hat in H0 || idtac.
  - rewrite (slot_at_loadHit c _ w0 s0) in Hs' by exact H0.
    destruct (decide _) as [[<- <-]|]; [|now apply (Hkeep s')].
    injection Hs' as <-. exists s0. split; [exact H0|].
    destruct (stats_loadHit c (Z.to_nat index) w0) as (_ & _ & _ & -> & _).
    unfold loadHitSlot. destruct (str_eq _ _); simpl; auto.
  - rewrite (slot_at_loadMiss c _ w0 s0) in Hs' by exact H0.
    destruct (decide _) as [[<- <-]|]; [|now apply (Hkeep s')].
    injection Hs' as <-. exists s0. split; [exact H0|].
    rewrite totalCycles_loadMiss.
    destruct (evicted_fields s0 c) as (_ & Hl & Ha).
    unfold loadMissSlot, installed, set_ts_of.
    destruct (str_eq _ _); simpl; rewrite ?Hl, ?Ha; auto.
  - rewrite (slot_at_storeHit c _ w0 s0) in Hs' by exact H0.
    destruct (decide _) as [[<- <-]|]; [|now apply (Hkeep s')].
    injection Hs' as <-. exists s0. split; [exact H0|].
    unfold storeHitSlot. cbv zeta. destruct (str_eq _ _); simpl; auto.
  - apply (Hkeep s'); [exact Hs'|reflexivity].
  - rewrite (slot_at_storeMissAllocate c _ w0 s0) in Hs' by exact H0.
    destruct (decide _) as [[<- <-]|]; [|now apply (Hkeep s')].
    injection Hs' as <-. exists s0. split; [exact H0|].
    destruct (stats_storeMissAllocate c (Z.to_nat index) w0 s0 tg)
      as (_ & _ & _ & -> & _).
    destruct (evicted_fields s0 c) as (_ & Hl & Ha).
    unfold storeMissSlot, installed, set_ts_of. cbv zeta.
    destruct (str_eq (handleEviction c) "lru");
      destruct (str_eq (handleWrite c) "write-back"); simpl;
      rewrite ?Hl, ?Ha; auto.
Qed.

(** As long as the cycle count cannot have overflowed, it bounds every
    timestamp. *)
Lemma reach_in_stamps n c :
  reach_in n c ->
  numBytes c <= 2 ^ 24 ->
  Z.of_nat n * accessBound c <= Int32.max_int ->
  stats_bounded (Z.of_nat n) c /\ stamps_bounded c.
Proof.
  induction 1 as [ns nb nby hm hw he Hs Hb Hy Hv | n c op a c' Hreach IH Ha Hstep].
  - intros Hbytes Hroom. split.
    + apply reach_in_stats; [now apply reach_init|assumption|assumption].
    + intros si w s. rewrite slot_at_cacheSetUp.
      destruct (decide _); [|discriminate]. intros [= <-]. simpl. lia.
  - intros Hbytes Hroom.
    assert (Hr' : reach_in (S n) c') by (eapply reach_step; eassumption).
    split; [now apply reach_in_stats|].
    pose proof (reach_in_wf n c Hreach) as Hwf.
    destruct (wf_step c op a tt c' Hwf Hstep)
      as (index & tg & st & _ & _ & _ & Hst & Hacc).
    destruct (access_same_config _ _ _ _ _ _ Hacc) as (_ & _ & Eb & _).
    pose proof (wf_bytes c Hwf) as H4.
    unfold accessBound in *. rewrite Eb in *.
    assert (Hn : Z.of_nat (S n) = Z.of_nat n + 1) by lia.
    rewrite Hn in Hroom.
    assert (Hnn : 0 <= Z.of_nat n * (50 * numBytes c + 1)) by nia.
    destruct (IH Hbytes ltac:(lia)) as ((B1 & B2 & B3 & B4 & B5 & B6 & B7) & Hst0).
    unfold accessBound in B7.
    assert (S1 : stats_step c c').
    { apply (access_stats c op index tg st c' Hacc); unfold accessBound; lia. }
    destruct S1 as (_ & _ & _ & _ & _ & _ & S7). unfold accessBound in S7.
    intros si w s' Hs'.
    destruct (access_stamps c op index tg st c' Hst Hacc si w s' Hs')
      as (s & Hs & Ha' & Hl').
    destruct (Hst0 si w s Hs) as (Ba & Bl).
    rewrite (to_uint_small (totalCycles c')) in * by lia.
    rewrite (to_uint_small (totalCycles c)) in * by lia.
    lia.
Qed.

(** X17.  As long as the cycle count cannot have overflowed (blocks of at
    most 2^24 bytes, [n * (50 * numBytes + 1) <= 2^31 - 1] after [n]
    accesses), every timestamp of every slot lies between 0 and
    totalCycles. *)
Theorem stamps_within_cycles n c :
  reach_in n c ->
  numBytes c <= 2 ^ 24 ->
  Z.of_nat n * (50 * numBytes c + 1) <= 2 ^ 31 - 1 ->
  forall si w s,
    slot_at c si w = Some s ->
    0 <= access_ts s <= totalCycles c /\ 0 <= load_ts s <= totalCycles c.
Proof.
  intros Hreach Hb Hroom.
  exact (proj2 (reach_in_stamps n c Hreach Hb Hroom)).
Qed.

Lemma stamps_within_cycles_witness :
  0 <= access_ts (mkSlot 0 true true 0 101) <= totalCycles dirtyTinyCache /\
  0 <= load_ts (mkSlot 0 true true 0 101) <= totalCycles dirtyTinyCache.
Proof.
  assert (Hb : numBytes dirtyTinyCache <= 2 ^ 24) by (vm_compute; discriminate).
  assert (Hroom : Z.of_nat 1 * (50 * numBytes dirtyTinyCache + 1) <= 2 ^ 31 - 1)
    by (vm_compute; discriminate).
  exact (stamps_within_cycles 1 dirtyTinyCache dirtyTinyCache_reach Hb Hroom
           0%nat 0%nat (mkSlot 0 true true 0 101) eq_refl).
Defined.

(** A load under lru stamps the slot of its block with the new cycle count
    and leaves every other slot alone. *)
Lemma load_lru_stamp c index tg st c' :
  sets c !! Z.to_nat index = Some st ->
  str_eq (handleEviction c) "lru" = true ->
  access c "l" index tg st c' ->
  exists w0 s0 s0',
    slot_at c (Z.to_nat index) w0 = Some s0 /\
    table_upd c c' (Z.to_nat index) w0 s0' /\
    valid s0' = true /\ tag s0' = tg /\
    access_ts s0' = Int32.to_uint (totalCycles c') /\
    (totalCycles c' = Int32.add (totalCycles c) 1 \/
     totalCycles c' = loadMissCycles c s0).
Proof.
  intros Hst Hlru Hacc.
  assert (Hat : forall w, slot_at c (Z.to_nat index) w = slots st !! w)
    by (intros w; now apply slot_at_slots).
  inversion Hacc as [w s Hop (H0 & Hv & Ht & _) E | w s Hop Hmiss (H0 & _) E
                    | w s Hop _ E | Hop _ _ E | w s Hop _ _ _ E];
    try (exfalso; now apply Hop); rewrite <- Hat in H0.
  - exists w, s, (loadHitSlot c s).
    destruct (stats_loadHit c (Z.to_nat index) w) as (_ & _ & _ & Htot & _).
    split; [exact H0|].
    split; [intros si' w'; now apply slot_at_loadHit|].
    destruct (loadHitSlot_fields c s) as (-> & -> & _).
    split; [exact Hv|]. split; [exact Ht|]. rewrite Htot.
    split; [|now left]. unfold loadHitSlot. now rewrite Hlru.
  - exists w, s, (loadMissSlot c tg s).
    split; [exact H0|].
    split; [intros si' w'; now apply slot_at_loadMiss|].
    rewrite totalCycles_loadMiss. unfold loadMissSlot.
    split; [apply installed_valid|]. split; [apply installed_tag|].
    split; [|now right]. unfold installed, set_ts_of. now rewrite Hlru.
Qed.

(** X18.  Under lru, without cycle overflow, the block a load has just
    touched is never the next one to go: after a load (hit or miss) in a
    reachable cache with at least two ways per set, the lookup of the loaded
    address finds its block at some way, and [findReplacementBlock] on that
    set returns another way. *)
Theorem lru_load_is_not_next_victim n c a c' :
  reach_in n c ->
  handleEviction c = "lru"%string ->
  2 <= numBlocks c ->
  numBytes c <= 2 ^ 24 ->
  (Z.of_nat n + 1) * (50 * numBytes c + 1) <= 2 ^ 31 - 1 ->
  cacheSimulator "l" a c = Some (tt, c') ->
  exists index tg w0,
    calculateIndex a c = Some (index, c) /\
    calculateTag a c = Some (tg, c) /\
    findBlock tg index c' = Some (Some (Z.to_nat index, w0), c') /\
    forall w x,
      findReplacementBlock index c' = Some (Some (Z.to_nat index, w), x) ->
      w <> w0.
Proof.
  intros Hreach Hlru Hways Hbytes Hroom Hstep.
  pose proof (reach_in_wf n c Hreach) as Hwf.
  pose proof (wf_bytes c Hwf) as H4.
  fold Int32.max_int in Hroom.
  assert (Hnn : 0 <= Z.of_nat n * (50 * numBytes c + 1)) by nia.
  destruct (reach_in_stamps n c Hreach Hbytes ltac:(unfold accessBound; lia))
    as ((_ & _ & _ & _ & _ & _ & B7) & Hstamps).
  unfold accessBound in B7.
  destruct (wf_step c "l" a tt c' Hwf Hstep)
    as (index & tg & st & Ei & Et & Hrange & Hst & Hacc).
  pose proof (access_wf c "l" index tg st c' Hwf Hst Hacc) as Hwf'.
  destruct (access_same_config _ _ _ _ _ _ Hacc)
    as (Es & Ebl & _ & _ & _ & He).
  apply str_eq_true in Hlru.
  destruct (load_lru_stamp c index tg st c' Hst Hlru Hacc)
    as (w0 & s0 & s0' & Hs0 & Hupd & Hv0 & Ht0 & Ha0 & Htot).
  (* the cycle count has grown, and is the stamp of the loaded block *)
  assert (Hgrow : totalCycles c < totalCycles c' <= Int32.max_int).
  { destruct (blockCost_exact c ltac:(lia)) as [_ Ecost].
    destruct Htot as [-> | ->].
    - rewrite add_small by lia. lia.
    - unfold loadMissCycles.
      rewrite (add_small (totalCycles c)), Ecost by lia.
      pose proof (afterFlush_bound s0 c (totalCycles c + 25 * numBytes c)
                    ltac:(lia) ltac:(lia) ltac:(lia)) as Hf.
      rewrite add_small by lia. lia. }
  rewrite to_uint_small in Ha0 by lia.
  pose proof (table_upd_eq _ _ _ _ _ Hupd) as Hs0'.
  exists index, tg, w0. split; [exact Ei|]. split; [exact Et|].
  destruct (slot_at_set c' _ _ _ Hs0') as (st' & Hst' & Hw0).
  split.
  - destruct (findBlock_scan_present tg (Z.to_nat index) (slots st') w0 s0'
                Hw0 Hv0 Ht0) as (w1 & Hscan).
    rewrite (findBlock_eq c' tg index st') by (assumption || lia).
    rewrite Hscan.
    apply findBlock_scan_hits in Hscan
      as (w2 & s2 & [= ->] & Hs2 & Hv2 & Ht2 & _).
    rewrite <- (slot_at_slots c' _ _ st' Hst') in Hs2.
    assert (Ew : w2 = w0)
      by (apply (wf_tags c' Hwf' _ w2 w0 s2 s0' Hs2 Hs0' Hv2 Hv0); congruence).
    now rewrite Ew.
  - intros w x Hr ->.
    assert (Hne' : slots st' <> []) by (intros E; now rewrite E in Hw0).
    destruct (findReplacementBlock_spec (handleEviction c') index st'
                ltac:(lia) Hne') as (w1 & s1 & (Hs1 & Hpick) & Hf).
    rewrite (Hf c' Hst' eq_refl) in Hr. injection Hr as <- _.
    rewrite Hw0 in Hs1. injection Hs1 as <-.
    destruct Hpick as [(Hv & _) | (_ & Hle & _)]; [congruence|].
    (* another way of the set, whose stamp is older *)
    set (j := if decide (w1 = 0%nat) then 1%nat else 0%nat).
    assert (Hj : j <> w1) by (subst j; destruct (decide _); lia).
    destruct (proj2 (wf_table c' Hwf' (Z.to_nat index) j)) as [sj Hsj].
    { rewrite Es, Ebl. split; [lia|]. subst j. destruct (decide _); lia. }
    pose proof Hsj as Hsj0.
    rewrite (table_upd_ne _ _ _ _ _ _ _ Hupd) in Hsj0
      by (intros [_ E]; now apply Hj).
    destruct (Hstamps _ _ _ Hsj0) as (Bj & _).
    rewrite (slot_at_slots c' _ _ st' Hst') in Hsj.
    specialize (Hle j sj Hsj).
    rewrite He in Hle. unfold ts_for in Hle. rewrite Hlru in Hle. lia.
Qed.

Lemma lru_load_is_not_next_victim_witness :
  exists index tg w0,
    calculateIndex 0 twoWayCache = Some (index, twoWayCache) /\
    calculateTag 0 twoWayCache = Some (tg, twoWayCache) /\
    findBlock tg index
      (mkCache 1 2 4 "write-allocate" "write-back" "lru"
         [mkSet [mkSlot 0 true false 0 203; mkSlot 1 true false 0 202]]
         3 0 1 2 0 0 203)
    = Some (Some (Z.to_nat index, w0),
            mkCache 1 2 4 "write-allocate" "write-back" "lru"
              [mkSet [mkSlot 0 true false 0 203; mkSlot 1 true false 0 202]]
              3 0 1 2 0 0 203).
Proof.
  assert (Hr : reach_in 2 twoWayCache).
  { assert (Hin : forall z, -10 <= z <= 10 -> Int32.in_range z)
      by (intros z Hz; unfold Int32.in_range, Int32.min_int, Int32.max_int;
          simpl; lia).
    apply (reach_step 1
             (mkCache 1 2 4 "write-allocate" "write-back" "lru"
                [mkSet [mkSlot 0 true false 0 101; emptySlot]] 1 0 0 1 0 0 101)
             "l" 4); [|apply Hin; lia|vm_compute; reflexivity].
    apply (reach_step 0
             (cacheSetUp newCache 1 2 4 "write-allocate" "write-back" "lru")
             "l" 0); [|apply Hin; lia|vm_compute; reflexivity].
    apply reach_init; try (apply Hin; lia). reflexivity. }
  assert (Hw : 2 <= numBlocks twoWayCache) by (vm_compute; discriminate).
  assert (Hb : numBytes twoWayCache <= 2 ^ 24) by (vm_compute; discriminate).
  assert (Hroom : (Z.of_nat 2 + 1) * (50 * numBytes twoWayCache + 1)
                  <= 2 ^ 31 - 1) by (vm_compute; discriminate).
  assert (Hstep : cacheSimulator "l" 0 twoWayCache
                  = Some (tt, mkCache 1 2 4 "write-allocate" "write-back" "lru"
                                [mkSet [mkSlot 0 true false 0 203;
                                        mkSlot 1 true false 0 202]]
                                3 0 1 2 0 0 203))
    by (vm_compute; reflexivity).
  destruct (lru_load_is_not_next_victim 2 twoWayCache 0 _ Hr eq_refl Hw Hb
              Hroom Hstep) as (index & tg & w0 & Ei & Et & Ef & _).
  exists index, tg, w0. split; [exact Ei|]. split; [exact Et|exact Ef].
Defined.

(** ** Geometries beyond 32 address bits *)

(** X19.  A geometry that [validateArguments] accepts can need 32 or more
    offset and index bits (numSets * numBytes >= 2^32).  [calculateTag] then
    shifts an [int] by 32 or more, which is undefined, and so is every
    access, whatever its operation and address. *)
Theorem oversized_geometry_undefined c op a :
  valid_geometry c ->
  2 ^ 32 <= numSets c * numBytes c ->
  calculateTag a c = None /\ cacheSimulator op a c = None.
Proof.
  intros Hg Hprod.
  destruct (valid_geometry_pow2 c Hg) as (ks & kb & Hks & Hkb & Es & Eb).
  assert (Hsum : 32 <= ks + kb).
  { rewrite Es, Eb, <- Z.pow_add_r in Hprod by lia.
    apply Z.pow_le_mono_r_iff in Hprod; lia. }
  assert (Et : calculateTag a c = None)
    by (apply (calculateTag_undefined c a ks kb); assumption || lia).
  split; [exact Et|].
  unfold cacheSimulator. unfold bind at 1.
  destruct (calculateIndex a c) as [[index c1]|] eqn:Ei; [|reflexivity].
  pose proof (calculateIndex_pure _ _ _ _ Ei) as ->.
  unfold bind at 1. now rewrite Et.
Qed.

Lemma oversized_geometry_undefined_witness :
  validateArguments 1073741824 1 8 "write-allocate" "write-back" "lru" = 0 /\
  cacheSimulator "l" 0
    (mkCache 1073741824 1 8 "write-allocate" "write-back" "lru" []
       0 0 0 0 0 0 0) = None.
Proof.
  split; [vm_compute; reflexivity|].
  assert (Hg : valid_geometry
                 (mkCache 1073741824 1 8 "write-allocate" "write-back" "lru" []
                    0 0 0 0 0 0 0)).
  { unfold valid_geometry, Int32.in_range, Int32.min_int, Int32.max_int.
    simpl. repeat split; try (vm_compute; reflexivity); lia. }
  assert (Hp : 2 ^ 32 <= numSets (mkCache 1073741824 1 8 "write-allocate"
                                    "write-back" "lru" [] 0 0 0 0 0 0 0)
                         * numBytes (mkCache 1073741824 1 8 "write-allocate"
                                       "write-back" "lru" [] 0 0 0 0 0 0 0))
    by (vm_compute; discriminate).
  exact (proj2 (oversized_geometry_undefined _ "l" 0 Hg Hp)).
Defined.
